(** * Martingale strategy calculator

    A shallow embedding of the calculation core of the repository:
    [src/utils/oddsConverter.js] (odds normaliser and formatter) and
    [src/utils/martingaleCalculator.js] (progression engine, statistics,
    session simulator).

    JavaScript numbers are IEEE-754 binary64 values.  They are modelled by
    the standard library's [spec_float] with precision 53 and maximal
    exponent 1024, whose operations round to nearest, ties to even, exactly
    as the language prescribes; every definition below therefore evaluates
    to the very number the JavaScript code produces. *)

From Stdlib Require Import ZArith Bool List String Ascii Lia.
From Stdlib Require Import Floats.SpecFloat.
Import ListNotations.
Local Open Scope Z_scope.

(* ================================================================== *)
(** * Binary64 numbers *)
(* ================================================================== *)

Module F64.

Definition prec : Z := 53.
Definition emax : Z := 1024.

Definition number : Type := spec_float.

(** A [spec_float] denotes a JavaScript number when its mantissa and
    exponent are the canonical ones of binary64. *)
Definition valid (x : number) : bool := valid_binary prec emax x.

Definition NaN : number := S754_nan.
Definition Infinity : number := S754_infinity false.
Definition zero : number := S754_zero false.

Definition add : number -> number -> number := SFadd prec emax.
Definition sub : number -> number -> number := SFsub prec emax.
Definition mul : number -> number -> number := SFmul prec emax.
Definition div : number -> number -> number := SFdiv prec emax.
Definition neg : number -> number := SFopp.

(** The relational operators [<], [<=], [>], [>=] and [===] on numbers. *)
Definition lt (a b : number) : bool := SFltb a b.
Definition le (a b : number) : bool := SFleb a b.
Definition gt (a b : number) : bool := SFltb b a.
Definition ge (a b : number) : bool := SFleb b a.
Definition eq (a b : number) : bool := SFeqb a b.

Definition isNaN (x : number) : bool :=
  match x with S754_nan => true | _ => false end.

Definition isFinite (x : number) : bool :=
  match x with
  | S754_zero _ | S754_finite _ _ _ => true
  | S754_infinity _ | S754_nan => false
  end.

(** Truthiness of a number in a condition: everything but [0], [-0]
    and [NaN]. *)
Definition truthy (x : number) : bool :=
  match x with
  | S754_zero _ | S754_nan => false
  | _ => true
  end.

(** The number nearest to the integer [n]. *)
Definition of_Z (n : Z) : number := binary_normalize prec emax n 0 false.

(** The number nearest to [(-1)^s * digits * 10^exp10]: the value of a
    decimal literal.  A negative power of ten is divided out with a
    single rounding. *)
Definition of_decimal (s : bool) (digits : Z) (exp10 : Z) : number :=
  match digits with
  | Zpos d =>
      if 0 <=? exp10
      then binary_round prec emax s (d * Z.to_pos (10 ^ exp10)) 0
      else SFdiv prec emax (S754_finite s d 0)
                           (S754_finite false (Z.to_pos (10 ^ (- exp10))) 0)
  | _ => S754_zero s
  end.

(** [Math.max] and [Math.min] of two arguments: [NaN] is contagious and
    [+0] is larger than [-0]. *)
Definition Math_max (a b : number) : number :=
  if isNaN a || isNaN b then NaN
  else if lt a b then b
  else if lt b a then a
  else match a with S754_zero true => b | _ => a end.

Definition Math_min (a b : number) : number :=
  if isNaN a || isNaN b then NaN
  else if lt a b then a
  else if lt b a then b
  else match a with S754_zero false => b | _ => a end.

Definition Math_abs : number -> number := SFabs.

(** [Math.floor]: the largest integral number not above [x]. *)
Definition Math_floor (x : number) : number :=
  match x with
  | S754_finite s m e =>
      if 0 <=? e then x
      else
        let n := Z.shiftr (cond_Zopp s (Zpos m)) (- e) in
        if n =? 0 then S754_zero false else of_Z n
  | _ => x
  end.

(** [Math.round]: the integral number nearest to [x], a tie going
    towards [+Infinity]; a result of zero keeps the sign of [x]. *)
Definition Math_round (x : number) : number :=
  match x with
  | S754_finite s m e =>
      if 0 <=? e then x
      else
        let n := Z.shiftr (2 * cond_Zopp s (Zpos m) + 2 ^ (- e)) (- e + 1) in
        if n =? 0 then S754_zero s else of_Z n
  | _ => x
  end.

(** The remainder operator [%]: the result has the sign of the
    dividend and is computed without rounding. *)
Definition rem (a b : number) : number :=
  match a, b with
  | S754_nan, _ | _, S754_nan => NaN
  | S754_infinity _, _ => NaN
  | _, S754_zero _ => NaN
  | _, S754_infinity _ => a
  | S754_zero _, _ => a
  | S754_finite sa ma ea, S754_finite _ mb eb =>
      let e0 := Z.min ea eb in
      let A := Zpos ma * 2 ^ (ea - e0) in
      let B := Zpos mb * 2 ^ (eb - e0) in
      match Z.rem A B with
      | Zpos r => binary_round prec emax sa r e0
      | _ => S754_zero sa
      end
  end.

(** Literals used by the sources. *)
Definition c0 : number := zero.
Definition c1 : number := Eval vm_compute in of_Z 1.
Definition c2 : number := Eval vm_compute in of_Z 2.
Definition c20 : number := Eval vm_compute in of_Z 20.
Definition c100 : number := Eval vm_compute in of_Z 100.
Definition c100000 : number := Eval vm_compute in of_Z 100000.
Definition c0_5 : number := Eval vm_compute in of_decimal false 5 (-1).
Definition c1_01 : number := Eval vm_compute in of_decimal false 101 (-2).

#[global] Arguments add : simpl never.
#[global] Arguments sub : simpl never.
#[global] Arguments mul : simpl never.
#[global] Arguments div : simpl never.
#[global] Arguments lt : simpl never.
#[global] Arguments le : simpl never.
#[global] Arguments gt : simpl never.
#[global] Arguments ge : simpl never.
#[global] Arguments eq : simpl never.
#[global] Arguments of_Z : simpl never.
#[global] Arguments Math_max : simpl never.
#[global] Arguments Math_min : simpl never.
#[global] Arguments Math_floor : simpl never.
#[global] Arguments Math_round : simpl never.

End F64.

Import F64.

(* ================================================================== *)
(** * The JavaScript runtime the sources rely on *)
(* ================================================================== *)

Module JS.

Local Open Scope string_scope.
Local Open Scope Z_scope.

(** ** Values, exceptions and completions *)

Inductive value : Type :=
| VUndefined
| VNull
| VBool (b : bool)
| VNum (x : number)
| VStr (s : string).

Inductive exn : Type :=
| JsError (message : string)       (* [throw new Error(message)] *)
| JsTypeError (message : string).  (* raised by the runtime itself *)

(** The outcome of running a piece of code: a value, an exception, or
    [Unfinished] when a bounded unrolling of a loop was not enough. *)
Inductive completion (A : Type) : Type :=
| Normal (a : A)
| Throw (e : exn)
| Unfinished.

Arguments Normal {A} a.
Arguments Throw {A} e.
Arguments Unfinished {A}.

Definition bind {A B : Type} (c : completion A) (k : A -> completion B)
  : completion B :=
  match c with
  | Normal a => k a
  | Throw e => Throw e
  | Unfinished => Unfinished
  end.

(** [try { body } catch (error) { handler }] *)
Definition try_catch {A : Type} (body : completion A)
    (handler : exn -> completion A) : completion A :=
  match body with
  | Throw e => handler e
  | c => c
  end.

Declare Scope js_scope.
Delimit Scope js_scope with js.
Notation "x <- c ;; k" := (bind c (fun x => k))
  (at level 61, c at next level, right associativity) : js_scope.
Notation "' p <- c ;; k" := (bind c (fun x => let 'p := x in k))
  (at level 61, p pattern, c at next level, right associativity) : js_scope.

Definition typeof (v : value) : string :=
  match v with
  | VUndefined => "undefined"
  | VNull => "object"
  | VBool _ => "boolean"
  | VNum _ => "number"
  | VStr _ => "string"
  end.

(** ** Characters and digits

    Strings are sequences of 8-bit characters; the white space the
    parsers skip is the ASCII part of the language's white space. *)

Definition is_space (c : ascii) : bool :=
  let n := nat_of_ascii c in
  ((9 <=? n) && (n <=? 13))%nat || (n =? 32)%nat.

(** The value of [c] as a digit of the given radix, if it is one. *)
Definition digit_of (radix : Z) (c : ascii) : option Z :=
  let n := Z.of_nat (nat_of_ascii c) in
  let d :=
    if (48 <=? n) && (n <=? 57) then n - 48
    else if (97 <=? n) && (n <=? 122) then n - 87
    else if (65 <=? n) && (n <=? 90) then n - 55
    else 36 in
  if d <? radix then Some d else None.

Fixpoint trim_start (s : string) : string :=
  match s with
  | String c r => if is_space c then trim_start r else s
  | EmptyString => s
  end.

Fixpoint rev_onto (s acc : string) : string :=
  match s with
  | String c r => rev_onto r (String c acc)
  | EmptyString => acc
  end.

Definition trim (s : string) : string :=
  rev_onto (trim_start (rev_onto (trim_start s) "")) "".

(** The longest run of digits at the head of [s]: the integer they
    denote on top of [acc], how many there are, and what follows. *)
Fixpoint scan_digits (radix : Z) (s : string) (acc count : Z)
  : Z * Z * string :=
  match s with
  | String c r =>
      match digit_of radix c with
      | Some d => scan_digits radix r (radix * acc + d) (count + 1)
      | None => (acc, count, s)
      end
  | EmptyString => (acc, count, s)
  end.

Definition scan_sign (s : string) : bool * string :=
  match s with
  | String "+" r => (false, r)
  | String "-" r => (true, r)
  | _ => (false, s)
  end.

(** The longest prefix of [s] that is an unsigned decimal literal
    (digits, an optional fraction, an optional exponent): its digits
    as an integer, its power of ten, and what follows. *)
Definition scan_decimal (s : string) : option (Z * Z * string) :=
  let '(ip, nip, r1) := scan_digits 10 s 0 0 in
  let '(mant, nfp, r2) :=
    match r1 with
    | String "." r => scan_digits 10 r ip 0
    | _ => (ip, 0, r1)
    end in
  if (nip =? 0) && (nfp =? 0) then None
  else
    let '(ex, r3) :=
      match r2 with
      | String c r =>
          if (Ascii.eqb c "e" || Ascii.eqb c "E")%bool then
            let '(sg, r') := scan_sign r in
            let '(ev, nev, r'') := scan_digits 10 r' 0 0 in
            if nev =? 0 then (0, r2) else (cond_Zopp sg ev, r'')
          else (0, r2)
      | EmptyString => (0, r2)
      end in
    Some (mant, ex - nfp, r3).

Definition strip_prefix (p s : string) : option string :=
  if String.prefix p s
  then Some (String.substring (String.length p) (String.length s) s)
  else None.

(** ** [parseFloat], [parseInt] and [Number] on strings *)

Definition parseFloat_string (input : string) : number :=
  let '(sg, r) := scan_sign (trim_start input) in
  match strip_prefix "Infinity" r with
  | Some _ => S754_infinity sg
  | None =>
      match scan_decimal r with
      | Some (mant, ex, _) => of_decimal sg mant ex
      | None => NaN
      end
  end.

Definition signed_integer (sg : bool) (n : Z) : number :=
  match n with
  | Zpos p => binary_round prec emax sg p 0
  | _ => S754_zero sg
  end.

(** [parseInt(input)] with no radix argument: radix 10, or 16 after a
    [0x] prefix. *)
Definition parseInt_string (input : string) : number :=
  let '(sg, r) := scan_sign (trim_start input) in
  let '(radix, r) :=
    match r with
    | String "0" (String x r') =>
        if (Ascii.eqb x "x" || Ascii.eqb x "X")%bool then (16, r') else (10, r)
    | _ => (10, r)
    end in
  let '(n, count, _) := scan_digits radix r 0 0 in
  if count =? 0 then NaN else signed_integer sg n.

(** [Number(input)]: the whole string, white space trimmed, must be a
    numeric literal; the empty string is [0]. *)
Definition Number_string (input : string) : number :=
  let s := trim input in
  let radix_literal radix r :=
    match scan_digits radix r 0 0 with
    | (n, count, EmptyString) =>
        if count =? 0 then NaN else signed_integer false n
    | _ => NaN
    end in
  match s with
  | EmptyString => zero
  | String "0" (String x r) =>
      if (Ascii.eqb x "x" || Ascii.eqb x "X")%bool then radix_literal 16 r
      else if (Ascii.eqb x "o" || Ascii.eqb x "O")%bool then radix_literal 8 r
      else if (Ascii.eqb x "b" || Ascii.eqb x "B")%bool then radix_literal 2 r
      else
        match scan_decimal s with
        | Some (mant, ex, EmptyString) => of_decimal false mant ex
        | _ => NaN
        end
  | _ =>
      let '(sg, r) := scan_sign s in
      match r with
      | "Infinity" => S754_infinity sg
      | _ =>
          match scan_decimal r with
          | Some (mant, ex, EmptyString) => of_decimal sg mant ex
          | _ => NaN
          end
      end
  end.

(** ** Numbers to strings *)

Fixpoint dec_digits (fuel : nat) (n : Z) (acc : string) : string :=
  match fuel with
  | O => acc
  | S fuel' =>
      let acc' := String (ascii_of_nat (48 + Z.to_nat (n mod 10))) acc in
      if n <? 10 then acc' else dec_digits fuel' (n / 10) acc'
  end.

(** The decimal digits of a non-negative integer. *)
Definition string_of_Z (n : Z) : string :=
  dec_digits (S (Z.to_nat (Z.log2 n))) n "".

Fixpoint zeros (k : nat) : string :=
  match k with
  | O => ""
  | S k' => String "0" (zeros k')
  end.

Definition same_number (a b : number) : bool :=
  match a, b with
  | S754_finite sa ma ea, S754_finite sb mb eb =>
      Bool.eqb sa sb && Pos.eqb ma mb && (ea =? eb)
  | S754_zero sa, S754_zero sb => Bool.eqb sa sb
  | S754_infinity sa, S754_infinity sb => Bool.eqb sa sb
  | S754_nan, S754_nan => true
  | _, _ => false
  end.

(** The positive number [m * 2^e] as a fraction of two positive
    integers. *)
Definition fraction_of (m : positive) (e : Z) : Z * Z :=
  if 0 <=? e then (Zpos m * 2 ^ e, 1) else (Zpos m, 2 ^ (- e)).

(** The fraction [nd] scaled by [10^k]. *)
Definition scale10 (nd : Z * Z) (k : Z) : Z * Z :=
  let '(n, d) := nd in
  if 0 <=? k then (n * 10 ^ k, d) else (n, d * 10 ^ (- k)).

(** The least [n], counted up from [n0], with [nd < 10^n]. *)
Fixpoint decimal_exponent (fuel : nat) (nd : Z * Z) (n0 : Z) : Z :=
  match fuel with
  | O => n0
  | S fuel' =>
      let '(a, b) := scale10 nd (- n0) in
      if a <? b then n0 else decimal_exponent fuel' nd (n0 + 1)
  end.

(** The shortest decimal that reads back as [v = m * 2^e]: with as few
    digits [k] as possible, integers [s] and [n] such that
    [10^(k-1) <= s < 10^k] and [s * 10^(n-k)] rounds to [v]; of two such
    [s] the one nearer to [v], of two equally near the even one.
    The search tries [k = k0, k0 + 1, ...]. *)
Fixpoint shortest_digits (fuel : nat) (v : number) (nd : Z * Z) (n k : Z)
  : Z * Z * Z :=
  let '(a, b) := scale10 nd (k - n) in
  let lo := a / b in
  let r := a mod b in
  let hi := lo + 1 in
  let ok_lo := same_number (of_decimal false lo (n - k)) v in
  let ok_hi := same_number (of_decimal false hi (n - k)) v in
  let pick_lo := (lo, n, k) in
  let pick_hi := if hi =? 10 ^ k then (10 ^ (k - 1), n + 1, k) else (hi, n, k) in
  match fuel with
  | O => if 2 * r <? b then pick_lo else pick_hi
  | S fuel' =>
      if ok_lo && ok_hi then
        if 2 * r <? b then pick_lo
        else if b <? 2 * r then pick_hi
        else if Z.even lo then pick_lo else pick_hi
      else if ok_lo then pick_lo
      else if ok_hi then pick_hi
      else shortest_digits fuel' v nd n (k + 1)
  end.

(** [Number::toString] in radix 10. *)
Definition NumberToString (x : number) : string :=
  match x with
  | S754_nan => "NaN"
  | S754_zero _ => "0"
  | S754_infinity s => if s then "-Infinity" else "Infinity"
  | S754_finite sg m e =>
      let nd := fraction_of m e in
      let bits := Z.log2 (fst nd) - Z.log2 (snd nd) in
      let n := decimal_exponent 8 nd (bits * 30103 / 100000 - 2) in
      let '(s, n, k) := shortest_digits 16 (S754_finite false m e) nd n 1 in
      let digits := string_of_Z s in
      let body :=
        if (k <=? n) && (n <=? 21) then
          digits ++ zeros (Z.to_nat (n - k))
        else if (0 <? n) && (n <=? 21) then
          String.substring 0 (Z.to_nat n) digits ++ "." ++
          String.substring (Z.to_nat n) (Z.to_nat (k - n)) digits
        else if (-6 <? n) && (n <=? 0) then
          "0." ++ zeros (Z.to_nat (- n)) ++ digits
        else
          let ex := (if n - 1 <? 0 then "-" else "+") ++ string_of_Z (Z.abs (n - 1)) in
          if k =? 1 then digits ++ "e" ++ ex
          else String.substring 0 1 digits ++ "." ++
               String.substring 1 (Z.to_nat (k - 1)) digits ++ "e" ++ ex in
      if sg then "-" ++ body else body
  end.

Definition c1e21 : number := Eval vm_compute in of_decimal false 1 21.

(** [x.toFixed(f)]: [n / 10^f] with the integer [n] nearest to
    [x * 10^f], the larger one on a tie. *)
Definition toFixed (x : number) (f : nat) : string :=
  match x with
  | S754_finite sg m e =>
      if lt (S754_finite false m e) c1e21 then
        let '(a, b) := scale10 (fraction_of m e) (Z.of_nat f) in
        let n := (2 * a + b) / (2 * b) in
        let digits := string_of_Z n in
        let k := String.length digits in
        let digits := if (k <=? f)%nat then zeros (S f - k) ++ digits else digits in
        let k := String.length digits in
        let body :=
          match f with
          | O => digits
          | _ => String.substring 0 (k - f) digits ++ "." ++
                 String.substring (k - f) f digits
          end in
        if sg then "-" ++ body else body
      else NumberToString x
  | S754_zero _ =>
      match f with
      | O => "0"
      | _ => "0." ++ zeros f
      end
  | _ => NumberToString x
  end.

(** ** Coercions *)

(** [ToString] and [ToNumber] of a primitive value. *)
Definition ToString (v : value) : string :=
  match v with
  | VUndefined => "undefined"
  | VNull => "null"
  | VBool b => if b then "true" else "false"
  | VNum x => NumberToString x
  | VStr s => s
  end.

Definition ToNumber (v : value) : number :=
  match v with
  | VUndefined => NaN
  | VNull => zero
  | VBool b => if b then c1 else zero
  | VNum x => x
  | VStr s => Number_string s
  end.

Definition parseFloat (v : value) : number := parseFloat_string (ToString v).
Definition parseInt (v : value) : number := parseInt_string (ToString v).

(** The global [isNaN] and [isFinite] coerce their argument. *)
Definition isNaN_value (v : value) : bool := isNaN (ToNumber v).
Definition isFinite_value (v : value) : bool := isFinite (ToNumber v).

(** [s.replace(pat, by)] for a one-character pattern: the first
    occurrence only. *)
Fixpoint replace_first (pat : ascii) (by_ : string) (s : string) : string :=
  match s with
  | String c r => if Ascii.eqb c pat then by_ ++ r else String c (replace_first pat by_ r)
  | EmptyString => s
  end.

(** [s.split(sep)] for a one-character separator. *)
Fixpoint split_on (sep : ascii) (s : string) (cur : string) : list string :=
  match s with
  | String c r =>
      if Ascii.eqb c sep then rev_onto cur "" :: split_on sep r ""
      else split_on sep r (String c cur)
  | EmptyString => [rev_onto cur ""]
  end.

End JS.

Import JS.

(* ================================================================== *)
(** * [oddsConverter.js]: the odds normaliser *)
(* ================================================================== *)

Module OddsConverter.

Local Open Scope string_scope.
Local Open Scope Z_scope.
Local Open Scope js_scope.

(** [OddsType] *)
Definition DECIMAL : string := "decimal".
Definition AMERICAN : string := "american".
Definition FRACTIONAL : string := "fractional".
Definition IMPLIED : string := "implied".

(** [type === name], as a [case] label of a [switch] tests it. *)
Definition is_type (type : value) (name : string) : bool :=
  match type with
  | VStr s => String.eqb s name
  | _ => false
  end.

(** [v === x] for a number [x]. *)
Definition strict_eq_number (v : value) (x : number) : bool :=
  match v with
  | VNum y => eq y x
  | _ => false
  end.

Definition decimalToAmerican (decimal : number) : number :=
  if ge decimal c2 then
    Math_round (mul (sub decimal c1) c100)
  else
    Math_round (div (neg c100) (sub decimal c1)).

Definition americanToDecimal (american : value) : completion number :=
  try_catch
    (let num :=
       match american with
       | VStr s => VNum (parseInt_string (replace_first "+" "" s))
       | _ => american
       end in
     let num := ToNumber num in
     if gt num c0 then
       let result := add (div num c100) c1 in
       Normal (Math_max result c1_01)
     else if lt num c0 then
       let absNum := Math_abs num in
       if lt absNum c100 then Normal c1_01
       else
         let result := add (div c100 absNum) c1 in
         Normal (Math_max result c1_01)
     else Normal c1_01)
    (fun _ => Normal c1_01).

(** [fractional.split('/')]: only a string has the method. *)
Definition split_slash (fractional : value) : completion (list string) :=
  match fractional with
  | VStr s => Normal (split_on "/" s "")
  | VUndefined | VNull =>
      Throw (JsTypeError "Cannot read properties of undefined (reading 'split')")
  | _ => Throw (JsTypeError "fractional.split is not a function")
  end.

Definition fractionalToDecimal (fractional : value) : completion number :=
  try_catch
    (parts <- split_slash fractional ;;
     let parts := List.map (fun p => VNum (Number_string p)) parts in
     let numerator := List.nth 0 parts VUndefined in
     let denominator := List.nth 1 parts VUndefined in
     if isNaN_value numerator || isNaN_value denominator
        || strict_eq_number denominator c0
     then Normal c1_01
     else
       let result := add (div (ToNumber numerator) (ToNumber denominator)) c1 in
       if negb (isFinite result) || lt result c1_01 then Normal c1_01
       else Normal result)
    (fun _ => Normal c1_01).

(** The local [gcd] of [decimalToFractional]; the recursion is
    unrolled [fuel] times. *)
Fixpoint gcd (fuel : nat) (a b : number) : completion number :=
  match fuel with
  | O => Unfinished
  | S fuel' => if eq b c0 then Normal a else gcd fuel' b (rem a b)
  end.

Definition decimalToFractional (decimal : number) : completion string :=
  let fraction := sub decimal c1 in
  let numerator := Math_round (mul fraction c100) in
  let denominator := c100 in
  divisor <- gcd 64 numerator denominator ;;
  let numerator := div numerator divisor in
  let denominator := div denominator divisor in
  Normal (NumberToString numerator ++ "/" ++ NumberToString denominator).

Definition decimalToImpliedProbability (decimal : number) : number :=
  if lt decimal c1_01 || negb (isFinite decimal) then c0
  else mul (div c1 decimal) c100.

Definition impliedProbabilityToDecimal (probability : number) : number :=
  if le probability c0 || ge probability c100 || negb (isFinite probability)
  then c1_01
  else div c100 probability.

Definition convertToDecimal (odds type : value) : completion number :=
  try_catch
    (result <-
       (if is_type type DECIMAL then Normal (parseFloat odds)
        else if is_type type AMERICAN then americanToDecimal (VNum (parseInt odds))
        else if is_type type FRACTIONAL then fractionalToDecimal odds
        else if is_type type IMPLIED then
          Normal (impliedProbabilityToDecimal (parseFloat odds))
        else Normal (parseFloat odds)) ;;
     if negb (isFinite result) || lt result c1_01 then Normal c1_01
     else Normal result)
    (fun _ => Normal c1_01).

Definition formatOdds (decimal : number) (targetType : value)
  : completion string :=
  if is_type targetType DECIMAL then Normal (toFixed decimal 2)
  else if is_type targetType AMERICAN then
    let american := decimalToAmerican decimal in
    Normal (if gt american c0 then "+" ++ NumberToString american
            else NumberToString american)
  else if is_type targetType FRACTIONAL then decimalToFractional decimal
  else if is_type targetType IMPLIED then
    Normal (toFixed (decimalToImpliedProbability decimal) 1 ++ "%")
  else Normal (toFixed decimal 2).

Record Payout : Type := {
  stake : number;
  profit : number;
  totalReturn : number;
  odds : number
}.

Definition calculatePayout (stake decimalOdds : number) : Payout :=
  let totalReturn := mul stake decimalOdds in
  let profit := sub totalReturn stake in
  {| stake := stake; profit := profit; totalReturn := totalReturn;
     odds := decimalOdds |}.

(** ** [validateOdds] *)

Module Validation.
Record t : Type := {
  isValid : bool;
  errors : list string
}.
End Validation.

(** The double quote, which a string literal here cannot hold. *)
Definition quote : string :=
  String (Ascii.Ascii false true false false false true false false) "".

(** [\d] *)
Definition is_digit (c : ascii) : bool :=
  let n := nat_of_ascii c in
  ((48 <=? n) && (n <=? 57))%nat.

(** What is left of [s] after its leading digits. *)
Fixpoint skip_digits (s : string) : string :=
  match s with
  | String c r => if is_digit c then skip_digits r else s
  | EmptyString => s
  end.

(** [/^\d+\/\d+$/.test(s)] *)
Definition fraction_format (s : string) : bool :=
  match s with
  | String c r =>
      is_digit c &&
      match skip_digits r with
      | String "/" (String c' r') =>
          is_digit c' && String.eqb (skip_digits r') ""
      | _ => false
      end
  | EmptyString => false
  end.

(** The result object: [isValid] is [errors.length === 0]. *)
Definition verdict (errors : list string) : Validation.t :=
  {| Validation.isValid := match errors with [] => true | _ => false end;
     Validation.errors := errors |}.

Definition validateOdds (odds type : value) : completion Validation.t :=
  let empty :=
    Normal {| Validation.isValid := false;
              Validation.errors := ["Odds cannot be empty"] |} in
  let no_trim := Throw (JsTypeError "odds.trim is not a function") in
  match odds with
  | VUndefined | VNull | VBool false => empty
  | VBool true => no_trim
  | VNum x => if truthy x then no_trim else empty
  | VStr s =>
      if String.eqb s "" || String.eqb (trim s) "" then empty
      else if is_type type DECIMAL then
        let decimal := parseFloat odds in
        Normal (verdict
          (if isNaN decimal || le decimal c1
           then ["Decimal odds must be greater than 1.00"] else []))
      else if is_type type AMERICAN then
        let american := parseInt odds in
        Normal (verdict
          (if isNaN american || eq american c0
              || (gt american (neg c100) && lt american c100)
           then ["American odds must be ≥ +100 or ≤ -100"] else []))
      else if is_type type FRACTIONAL then
        if negb (fraction_format s) then
          Normal (verdict
            ["Fractional odds must be in format " ++ quote ++ "3/2" ++ quote])
        else
          let parts :=
            List.map (fun p => VNum (Number_string p)) (split_on "/" s "") in
          let num := List.nth 0 parts VUndefined in
          let den := List.nth 1 parts VUndefined in
          Normal (verdict
            (if le (ToNumber num) c0 || le (ToNumber den) c0
             then ["Fractional odds must have positive numbers"] else []))
      else if is_type type IMPLIED then
        let probability := parseFloat odds in
        Normal (verdict
          (if isNaN probability || le probability c0 || ge probability c100
           then ["Implied probability must be between 0% and 100%"] else []))
      else Normal (verdict ["Invalid odds type"])
  end.

End OddsConverter.

(* ================================================================== *)
(** * [martingaleCalculator.js]: progression, statistics, simulation *)
(* ================================================================== *)

Module Calculator.

Import OddsConverter.
Local Open Scope string_scope.
Local Open Scope Z_scope.
Local Open Scope js_scope.

(** ** Data *)

(** The configuration object.  The four validated fields hold any
    value; [maxRounds] is an integer and the three optional amounts are
    numbers, [None] standing for an absent (or [null]) property. *)
Record Config : Type := {
  baseBet : value;
  bankroll : value;
  odds : value;
  oddsType : value;
  maxRounds : option Z;
  targetProfit : option number;
  betMultiplier : option number;
  maxTableLimit : option number
}.

Module Round.
Record t : Type := {
  round : Z;
  betAmount : number;
  cumulativeLoss : number;
  totalWagered : number;
  potentialWin : number;
  netProfitIfWin : number;
  totalReturnIfWin : number;
  remainingBankroll : number;
  breakeven : bool;
  targetMet : bool
}.
End Round.

Module Stats.
Record t : Type := {
  maxPossibleRounds : number;
  bustProbability : number;
  winProbabilityAtLeastOnce : number;
  expectedValue : number;
  riskOfRuin : number;
  maxDrawdown : number;
  kellyCriterion : number;
  recommendedBankroll : number;
  averageProfit : number;
  worstCaseScenario : number
}.
End Stats.

(** The configuration echoed in the result: the input's own
    properties and the three derived ones. *)
Record ConfigEcho : Type := {
  input : Config;
  decimalOdds : number;
  winProbability : number;
  lossProbability : number
}.

Module Results.
Record t : Type := {
  progression : list Round.t;
  statistics : Stats.t;
  config : ConfigEcho
}.
End Results.

(** A condition [x && ...] or [x ? ... : ...] on an optional amount. *)
Definition given (x : option number) : bool :=
  match x with
  | Some v => truthy v
  | None => false
  end.

Definition or_zero (x : option number) : number :=
  match x with
  | Some v => v
  | None => zero
  end.

(** ** The progression loop *)

(** The variables the [while] loop of [calculateMartingaleProgression]
    updates. *)
Record LoopState : Type := {
  st_progression : list Round.t;
  st_currentBet : number;
  st_totalLoss : number;
  st_totalWagered : number;
  st_round : Z;
  st_remainingBankroll : number
}.

(** One pass through the body of the loop: [inl] when a [break] (or the
    loop condition) ends the loop, [inr] when the loop goes on. *)
Definition loop_body (decimalOdds : number) (maxRounds : Z)
    (targetProfit maxTableLimit : option number) (betMultiplier : number)
    (s : LoopState) : LoopState + LoopState :=
  if negb (st_round s <=? maxRounds) then inl s
  else if gt (st_currentBet s) (st_remainingBankroll s) then inl s
  else if given maxTableLimit && gt (st_currentBet s) (or_zero maxTableLimit)
  then inl s
  else
    let currentBet := st_currentBet s in
    let payout := calculatePayout currentBet decimalOdds in
    let totalWagered := add (st_totalWagered s) currentBet in
    let totalLoss := add (st_totalLoss s) currentBet in
    let remainingBankroll := sub (st_remainingBankroll s) currentBet in
    let netProfitIfWin := sub (profit payout) (sub totalLoss currentBet) in
    let totalReturnIfWin := totalReturn payout in
    let pushed :=
      (st_progression s ++
      [ {| Round.round := st_round s;
           Round.betAmount := currentBet;
           Round.cumulativeLoss := sub totalLoss currentBet;
           Round.totalWagered := totalWagered;
           Round.potentialWin := profit payout;
           Round.netProfitIfWin := netProfitIfWin;
           Round.totalReturnIfWin := totalReturnIfWin;
           Round.remainingBankroll := remainingBankroll;
           Round.breakeven := ge netProfitIfWin c0;
           Round.targetMet :=
             if given targetProfit
             then ge netProfitIfWin (or_zero targetProfit)
             else gt netProfitIfWin c0 |} ])%list in
    if given targetProfit && ge netProfitIfWin (or_zero targetProfit) then
      inl {| st_progression := pushed;
             st_currentBet := currentBet;
             st_totalLoss := totalLoss;
             st_totalWagered := totalWagered;
             st_round := st_round s;
             st_remainingBankroll := remainingBankroll |}
    else
      inr {| st_progression := pushed;
             st_currentBet := mul currentBet betMultiplier;
             st_totalLoss := totalLoss;
             st_totalWagered := totalWagered;
             st_round := st_round s + 1;
             st_remainingBankroll := remainingBankroll |}.

(** The loop, unrolled at most [fuel] times. *)
Fixpoint progression_loop (fuel : nat) (decimalOdds : number) (maxRounds : Z)
    (targetProfit maxTableLimit : option number) (betMultiplier : number)
    (s : LoopState) : completion LoopState :=
  match fuel with
  | O => Unfinished
  | S fuel' =>
      match loop_body decimalOdds maxRounds targetProfit maxTableLimit
                      betMultiplier s with
      | inl final => Normal final
      | inr next =>
          progression_loop fuel' decimalOdds maxRounds targetProfit
                           maxTableLimit betMultiplier next
      end
  end.

(** ** Statistics *)

Section Engine.

(** [Math.pow], which the language leaves to the engine to
    approximate. *)
Variable Math_pow : number -> number -> number.

Definition calculateRiskOfRuin (bankroll unitSize winProbability : number)
  : number :=
  if le bankroll c0 || le unitSize c0 || le winProbability c0
     || ge winProbability c1
  then c1
  else
    let units := Math_floor (div bankroll unitSize) in
    let lossProbability := sub c1 winProbability in
    if eq winProbability c0_5 then c1
    else
      let q_p := div lossProbability winProbability in
      if eq q_p c1 then c1
      else if negb (isFinite q_p) || le q_p c0 then c1
      else
        let risk := Math_pow q_p units in
        Math_min (Math_max risk c0) c1.

Definition calculateKellyCriterion (decimalOdds winProbability : number)
  : number :=
  if le decimalOdds c1 || le winProbability c0 || ge winProbability c1
  then c0
  else
    let b := sub decimalOdds c1 in
    let p := winProbability in
    let q := sub c1 winProbability in
    let kelly := div (sub (mul b p) q) b in
    if negb (isFinite kelly) || isNaN kelly then c0
    else Math_max c0 (Math_min kelly c1).

(** The [for] loop of [calculateStatistics] over the rounds from
    index [i] on. *)
Fixpoint expected_wins (rounds : list Round.t) (i : Z)
    (winProbability lossProbability expectedValue : number) : number :=
  match rounds with
  | [] => expectedValue
  | roundData :: rest =>
      let expectedValue :=
        if negb (isNaN (Round.netProfitIfWin roundData)) then
          let winOnThisRound :=
            mul (Math_pow lossProbability (of_Z i)) winProbability in
          add expectedValue
              (mul winOnThisRound (Round.netProfitIfWin roundData))
        else expectedValue in
      expected_wins rest (i + 1) winProbability lossProbability expectedValue
  end.

Definition calculateStatistics (progression : list Round.t)
    (winProbability lossProbability bankroll baseBet decimalOdds : number)
  : Stats.t :=
  let lastRound := List.last (List.map Some progression) None in
  let maxPossibleRounds := of_Z (Z.of_nat (List.length progression)) in
  let bustProbability := Math_pow lossProbability maxPossibleRounds in
  let winProbabilityAtLeastOnce := sub c1 bustProbability in
  let expectedValue :=
    expected_wins progression 0 winProbability lossProbability c0 in
  let expectedValue :=
    match lastRound with
    | Some last =>
        if negb (isNaN (Round.totalWagered last)) then
          let loseAllRounds :=
            mul bustProbability (neg (Round.totalWagered last)) in
          add expectedValue loseAllRounds
        else expectedValue
    | None => expectedValue
    end in
  let expectedValue :=
    if negb (isFinite expectedValue) then c0 else expectedValue in
  let riskOfRuin := calculateRiskOfRuin bankroll baseBet winProbability in
  let maxDrawdown :=
    match lastRound with
    | Some last => Round.totalWagered last
    | None => c0
    end in
  let kellyCriterion := calculateKellyCriterion decimalOdds winProbability in
  {| Stats.maxPossibleRounds := maxPossibleRounds;
     Stats.bustProbability := mul bustProbability c100;
     Stats.winProbabilityAtLeastOnce := mul winProbabilityAtLeastOnce c100;
     Stats.expectedValue := expectedValue;
     Stats.riskOfRuin := mul riskOfRuin c100;
     Stats.maxDrawdown := maxDrawdown;
     Stats.kellyCriterion := mul kellyCriterion c100;
     Stats.recommendedBankroll := mul baseBet c20;
     Stats.averageProfit :=
       match lastRound with
       | Some last => Round.netProfitIfWin last
       | None => c0
       end;
     Stats.worstCaseScenario :=
       match lastRound with
       | Some last => neg (Round.totalWagered last)
       | None => c0
       end |}.

(** ** [calculateMartingaleProgression] *)

(** A validated amount: a number that is positive and finite. *)
Definition positive_number (v : value) : option number :=
  match v with
  | VNum x => if le x c0 || negb (isFinite x) then None else Some x
  | _ => None
  end.

Definition recognized (oddsType : value) : bool :=
  is_type oddsType DECIMAL || is_type oddsType AMERICAN
  || is_type oddsType FRACTIONAL || is_type oddsType IMPLIED.

Definition number_or_string (v : value) : bool :=
  match v with
  | VNum _ | VStr _ => true
  | _ => false
  end.

Definition initial_state (baseBet bankroll : number) : LoopState :=
  {| st_progression := [];
     st_currentBet := baseBet;
     st_totalLoss := c0;
     st_totalWagered := c0;
     st_round := 1;
     st_remainingBankroll := bankroll |}.

(** The argument is [None] when the caller passes something that is
    not an object. *)
Definition calculateMartingaleProgression (config : option Config)
  : completion Results.t :=
  match config with
  | None => Throw (JsError "Invalid configuration object")
  | Some cfg =>
      let maxRounds := match maxRounds cfg with Some n => n | None => 20 end in
      let targetProfit := targetProfit cfg in
      let betMultiplier :=
        match betMultiplier cfg with Some m => m | None => c2 end in
      let maxTableLimit := maxTableLimit cfg in
      match positive_number (baseBet cfg) with
      | None => Throw (JsError "Base bet must be a positive number")
      | Some baseBet =>
      match positive_number (bankroll cfg) with
      | None => Throw (JsError "Bankroll must be a positive number")
      | Some bankroll =>
      if negb (number_or_string (odds cfg)) then
        Throw (JsError "Odds must be a number or string")
      else if negb (recognized (oddsType cfg)) then
        Throw (JsError "Invalid odds type")
      else
        decimalOdds <- convertToDecimal (odds cfg) (oddsType cfg) ;;
        if le decimalOdds c1 then
          Throw (JsError "Invalid odds - must be greater than 1.00")
        else
          let winProbability :=
            div (decimalToImpliedProbability decimalOdds) c100 in
          let lossProbability := sub c1 winProbability in
          if negb (isFinite winProbability) || le winProbability c0
             || ge winProbability c1
          then Throw (JsError "Invalid probability calculation")
          else
            final <- progression_loop (S (Z.to_nat maxRounds)) decimalOdds
                       maxRounds targetProfit maxTableLimit betMultiplier
                       (initial_state baseBet bankroll) ;;
            let progression := st_progression final in
            let statistics :=
              calculateStatistics progression winProbability lossProbability
                                  bankroll baseBet decimalOdds in
            Normal {| Results.progression := progression;
                      Results.statistics := statistics;
                      Results.config :=
                        {| input := cfg;
                           decimalOdds := decimalOdds;
                           winProbability := mul winProbability c100;
                           lossProbability := mul lossProbability c100 |} |}
      end end
  end.

End Engine.

(** ** The session simulator *)

Module Session.
Record t : Type := {
  won : bool;
  roundsPlayed : Z;
  profit : number;
  totalWagered : number
}.
End Session.

Module Summary.
Record t : Type := {
  totalSessions : number;
  wins : number;
  losses : number;
  winRate : number;
  averageProfit : number;
  maxProfit : number;
  maxLoss : number;
  profitableSessions : number
}.
End Summary.

Record Simulation : Type := {
  results : list Session.t;
  summary : Summary.t
}.

(** What a simulation changes outside its own variables: how many
    values [Math.random] has handed out, and, as a ghost counter, how
    many times [calculateMartingaleProgression] has been called. *)
Record World : Type := {
  draws : nat;
  derivations : nat
}.

Definition count {A : Type} (f : A -> bool) (l : list A) : number :=
  of_Z (Z.of_nat (List.length (List.filter f l))).

Section Simulator.

Variable Math_pow : number -> number -> number.

(** The sequence of values the calls of [Math.random] return. *)
Variable Math_random : nat -> number.

(** A call of [calculateMartingaleProgression] from the simulator. *)
Definition derive (config : option Config) (w : World)
  : completion (Results.t * World) :=
  r <- calculateMartingaleProgression Math_pow config ;;
  Normal (r, {| draws := draws w; derivations := S (derivations w) |}).

(** The [for] loop of [simulateSingleSession] from index [i] on, over
    the rounds not yet played: [Some] is the session it returns from
    inside the loop. *)
Fixpoint play (rounds : list Round.t) (i : Z) (winProbability : number)
    (w : World) : option Session.t * World :=
  match rounds with
  | [] => (None, w)
  | r :: rest =>
      let random := Math_random (draws w) in
      let w := {| draws := S (draws w); derivations := derivations w |} in
      if lt random winProbability then
        (Some {| Session.won := true;
                 Session.roundsPlayed := i + 1;
                 Session.profit := Round.netProfitIfWin r;
                 Session.totalWagered := Round.totalWagered r |}, w)
      else play rest (i + 1) winProbability w
  end.

Definition simulateSingleSession (config : option Config)
    (winProbability : number) (w : World) : completion (Session.t * World) :=
  '(r, w) <- derive config w ;;
  let progression := Results.progression r in
  match play progression 0 winProbability w with
  | (Some session, w) => Normal (session, w)
  | (None, w) =>
      match List.last (List.map Some progression) None with
      | None =>
          Throw (JsTypeError
            "Cannot read properties of undefined (reading 'totalWagered')")
      | Some lastRound =>
          Normal ({| Session.won := false;
                     Session.roundsPlayed := Z.of_nat (List.length progression);
                     Session.profit := neg (Round.totalWagered lastRound);
                     Session.totalWagered := Round.totalWagered lastRound |}, w)
      end
  end.

(** The [for] loop of [simulateMartingaleSessions], unrolled at most
    [fuel] times. *)
Fixpoint sessions_loop (fuel : nat) (config : option Config)
    (winProbability numSessions : number) (session : Z)
    (results : list Session.t) (w : World)
  : completion (list Session.t * World) :=
  match fuel with
  | O => Unfinished
  | S fuel' =>
      if lt (of_Z session) numSessions then
        '(sessionResult, w) <- simulateSingleSession config winProbability w ;;
        sessions_loop fuel' config winProbability numSessions (session + 1)
                      (results ++ [sessionResult])%list w
      else Normal (results, w)
  end.

(** A valid number of sessions. *)
Definition session_count (numSessions : value) : option number :=
  match numSessions with
  | VNum n =>
      if le n c0 || gt n c100000 || negb (isFinite n) then None else Some n
  | _ => None
  end.

(** [numSessions] is [VUndefined] when the argument is omitted. *)
Definition simulateMartingaleSessions (config : option Config)
    (numSessions : value) (w : World) : completion (Simulation * World) :=
  let numSessions :=
    match numSessions with
    | VUndefined => VNum (of_Z 1000)
    | v => v
    end in
  match session_count numSessions with
  | None => Throw (JsError "Number of sessions must be between 1 and 100,000")
  | Some numSessions =>
      '(progressionResults, w) <- derive config w ;;
      let decimalOdds := decimalOdds (Results.config progressionResults) in
      let winProbability :=
        div (decimalToImpliedProbability decimalOdds) c100 in
      if negb (isFinite winProbability) || le winProbability c0
         || gt winProbability c1
      then Throw (JsError "Invalid win probability for simulation")
      else
        '(results, w) <-
          sessions_loop (S (Z.to_nat 100000)) config winProbability
                        numSessions 0 [] w ;;
        let profits := List.map Session.profit results in
        let wins := count Session.won results in
        let losses := count (fun r => negb (Session.won r)) results in
        Normal
          ({| results := results;
              summary :=
                {| Summary.totalSessions := numSessions;
                   Summary.wins := wins;
                   Summary.losses := losses;
                   Summary.winRate := mul (div wins numSessions) c100;
                   Summary.averageProfit :=
                     div (List.fold_left add profits c0) numSessions;
                   Summary.maxProfit :=
                     List.fold_left Math_max profits (S754_infinity true);
                   Summary.maxLoss :=
                     List.fold_left Math_min profits (S754_infinity false);
                   Summary.profitableSessions :=
                     count (fun r => gt (Session.profit r) c0) results |} |},
           w)
  end.

End Simulator.

(** ** [generateRiskWarnings] *)

Module Warning.
Record t : Type := {
  type : string;
  message : string
}.
End Warning.

Definition c10 : number := Eval vm_compute in of_Z 10.

(** [v.toFixed(digits)] for a property [v] of the configuration:
    only a number has the method. *)
Definition toFixed_of (property : string) (v : value) (digits : nat)
  : completion string :=
  match v with
  | VNum x => Normal (toFixed x digits)
  | VUndefined =>
      Throw (JsTypeError
        "Cannot read properties of undefined (reading 'toFixed')")
  | VNull =>
      Throw (JsTypeError "Cannot read properties of null (reading 'toFixed')")
  | _ => Throw (JsTypeError (property ++ ".toFixed is not a function"))
  end.

Section Reports.

Variable Math_pow : number -> number -> number.

(** The first argument is a configuration object, the second a
    statistics object as [calculateStatistics] builds it. *)
Definition generateRiskWarnings (config : Config) (statistics : Stats.t)
  : completion (list Warning.t) :=
  let warnings := [] in
  let warnings :=
    if gt (Stats.bustProbability statistics) c10 then
      (warnings ++
       [{| Warning.type := "high-risk";
           Warning.message :=
             "High risk of losing entire bankroll: "
             ++ toFixed (Stats.bustProbability statistics) 1 ++ "%" |}])%list
    else warnings in
  warnings <-
    (if lt (ToNumber (bankroll config)) (Stats.recommendedBankroll statistics)
     then
       yours <- toFixed_of "config.bankroll" (bankroll config) 2 ;;
       Normal
         (warnings ++
          [{| Warning.type := "bankroll";
              Warning.message :=
                "Recommended bankroll: $"
                ++ toFixed (Stats.recommendedBankroll statistics) 2
                ++ " (you have $" ++ yours ++ ")" |}])%list
     else Normal warnings) ;;
  let warnings :=
    if lt (Stats.expectedValue statistics) c0 then
      (warnings ++
       [{| Warning.type := "negative-ev";
           Warning.message :=
             "Negative expected value: $"
             ++ toFixed (Stats.expectedValue statistics) 2
             ++ " per session" |}])%list
    else warnings in
  let warnings :=
    if eq (Stats.kellyCriterion statistics) c0 then
      (warnings ++
       [{| Warning.type := "kelly";
           Warning.message :=
             "Kelly criterion suggests not betting - unfavorable odds" |}])%list
    else warnings in
  results <- calculateMartingaleProgression Math_pow (Some config) ;;
  let progression := Results.progression results in
  let maxBet :=
    List.fold_left Math_max (List.map Round.betAmount progression)
                   (S754_infinity true) in
  let warnings :=
    if gt maxBet (mul (ToNumber (bankroll config)) c0_5) then
      (warnings ++
       [{| Warning.type := "large-bet";
           Warning.message :=
             "Maximum bet (" ++ toFixed maxBet 2
             ++ ") exceeds 50% of bankroll" |}])%list
    else warnings in
  Normal warnings.

End Reports.

(** ** [exportToCSV] *)

(** The line feed, which a string literal here cannot hold. *)
Definition newline : string :=
  String (Ascii.Ascii false true false true false false false false) "".

(** [parts.join(sep)] on an array of strings. *)
Fixpoint join (sep : string) (parts : list string) : string :=
  match parts with
  | [] => ""
  | [p] => p
  | p :: rest => p ++ sep ++ join sep rest
  end.

Definition headers : list string :=
  ["Round"; "Bet Amount"; "Cumulative Loss"; "Total Wagered";
   "Potential Win"; "Net Profit If Win"; "Remaining Bankroll"].

(** The cells of a round; [join] turns the round number into a string
    as it does any number. *)
Definition row (round : Round.t) : list string :=
  [NumberToString (of_Z (Round.round round));
   toFixed (Round.betAmount round) 2;
   toFixed (Round.cumulativeLoss round) 2;
   toFixed (Round.totalWagered round) 2;
   toFixed (Round.potentialWin round) 2;
   toFixed (Round.netProfitIfWin round) 2;
   toFixed (Round.remainingBankroll round) 2].

Definition exportToCSV (progression : list Round.t) (statistics : Stats.t)
  : string :=
  let rows := List.map row progression in
  let csv := join "," headers ++ newline in
  let csv := csv ++ join newline (List.map (join ",") rows) in
  let csv := csv ++ newline ++ newline ++ "Statistics" ++ newline in
  let csv :=
    csv ++ "Expected Value," ++ toFixed (Stats.expectedValue statistics) 2
        ++ newline in
  let csv :=
    csv ++ "Bust Probability,"
        ++ toFixed (Stats.bustProbability statistics) 2 ++ "%" ++ newline in
  let csv :=
    csv ++ "Max Drawdown," ++ toFixed (Stats.maxDrawdown statistics) 2
        ++ newline in
  let csv :=
    csv ++ "Kelly Criterion,"
        ++ toFixed (Stats.kellyCriterion statistics) 2 ++ "%" ++ newline in
  csv.

End Calculator.

(* ================================================================== *)
(** * The order of binary64 numbers *)
(* ================================================================== *)

Module F64Order.

Lemma compare_swap (x y : number) :
  SFcompare y x = option_map CompOpp (SFcompare x y).
Proof.
  destruct x as [sx | sx | | sx mx ex], y as [sy | sy | | sy my ey];
    try (destruct sx; reflexivity); try (destruct sy; reflexivity);
    try reflexivity;
    try (destruct sx, sy; reflexivity).
  destruct sx, sy; simpl; try reflexivity;
    rewrite (Z.compare_antisym ex ey);
    change (Pos.compare_cont Eq my mx) with (Pos.compare my mx);
    rewrite (Pos.compare_antisym mx my);
    change (Pos.compare_cont Eq mx my) with (Pos.compare mx my);
    destruct (ex ?= ey); simpl; try reflexivity;
    destruct (Pos.compare mx my); reflexivity.
Qed.

Lemma compare_defined (x y : number) :
  isNaN x = false -> isNaN y = false -> exists c, SFcompare x y = Some c.
Proof.
  destruct x, y; simpl; intros; try discriminate; eauto.
Qed.

(** [!(x < y)] gives [y <= x] unless one of them is [NaN]. *)
Lemma not_lt_ge (x y : number) :
  isNaN x = false -> isNaN y = false -> lt x y = false -> ge x y = true.
Proof.
  intros Hx Hy. unfold lt, ge, SFltb, SFleb.
  rewrite (compare_swap x y).
  destruct (compare_defined x y Hx Hy) as [c ->].
  destruct c; simpl; congruence.
Qed.

Lemma finite_not_NaN (x : number) : isFinite x = true -> isNaN x = false.
Proof. destruct x; simpl; congruence. Qed.

Lemma le_lt_false (x y : number) : le x y = true -> lt y x = false.
Proof.
  unfold le, lt, SFleb, SFltb. rewrite (compare_swap x y).
  destruct (SFcompare x y) as [[ | | ] | ]; simpl; congruence.
Qed.

Lemma lt_le (x y : number) : lt x y = true -> le x y = true.
Proof.
  unfold le, lt, SFleb, SFltb.
  destruct (SFcompare x y) as [[ | | ] | ]; simpl; congruence.
Qed.

(** Case analysis on the comparisons of exponents and mantissas that
    [SFcompare] performs. *)
Ltac order_cases :=
  repeat match goal with
         | H : context [Z.compare ?a ?b] |- _ => destruct (Z.compare_spec a b)
         | |- context [Z.compare ?a ?b] => destruct (Z.compare_spec a b)
         | H : context [Pos.compare_cont Eq ?a ?b] |- _ =>
             change (Pos.compare_cont Eq a b) with (Pos.compare a b) in *;
             destruct (Pos.compare_spec a b)
         | |- context [Pos.compare_cont Eq ?a ?b] =>
             change (Pos.compare_cont Eq a b) with (Pos.compare a b) in *;
             destruct (Pos.compare_spec a b)
         end;
  subst; simpl in *; try congruence; try lia.

Ltac by_order_cases :=
  unfold le, lt, ge, gt, SFleb, SFltb;
  repeat match goal with
         | x : number |- _ => destruct x as [[]|[]| |[] ? ?]
         end;
  simpl; try congruence; intros; order_cases.

Lemma le_trans (x y z : number) :
  le x y = true -> le y z = true -> le x z = true.
Proof. revert x y z. intros x y z. by_order_cases. Qed.

Lemma lt_le_trans (x y z : number) :
  lt x y = true -> le y z = true -> lt x z = true.
Proof. revert x y z. intros x y z. by_order_cases. Qed.

Lemma le_lt_trans (x y z : number) :
  le x y = true -> lt y z = true -> lt x z = true.
Proof. revert x y z. intros x y z. by_order_cases. Qed.

(** [!(x <= y)] gives [y < x] unless one of them is [NaN]. *)
Lemma not_le_gt (x y : number) :
  isNaN x = false -> isNaN y = false -> le x y = false -> gt x y = true.
Proof. revert x y. intros x y. by_order_cases. Qed.

Lemma le_refl (x : number) : isNaN x = false -> le x x = true.
Proof.
  destruct x as [[]|[]| |[] m e]; simpl; try congruence; intros _;
    try reflexivity;
    unfold le, SFleb; simpl; rewrite Z.compare_refl;
    change (Pos.compare_cont Eq m m) with (Pos.compare m m);
    rewrite Pos.compare_refl; reflexivity.
Qed.

End F64Order.

(* ================================================================== *)
(** * Rounding in binary64 *)
(* ================================================================== *)

Module F64Round.

Import F64Order.
Local Open Scope Z_scope.

Definition fexp (e : Z) : Z := SpecFloat.fexp prec emax e.

Lemma fexp_eq (e : Z) : fexp e = Z.max (e - 53) (-1074).
Proof. reflexivity. Qed.

Lemma fexp_mono (a b : Z) : a <= b -> fexp a <= fexp b.
Proof. rewrite !fexp_eq. lia. Qed.

(** The number of binary digits of a mantissa. *)
Definition digits (m : positive) : Z := Zpos (digits2_pos m).

Lemma digits_log2 (m : positive) : digits m = Z.log2 (Zpos m) + 1.
Proof.
  unfold digits.
  assert (H : forall p, digits2_pos p = Pos.size p)
    by (induction p; simpl; congruence).
  rewrite H. destruct m; simpl; lia.
Qed.

Lemma digits_bounds (m : positive) :
  2 ^ (digits m - 1) <= Zpos m < 2 ^ digits m.
Proof.
  rewrite digits_log2.
  replace (Z.log2 (Zpos m) + 1 - 1) with (Z.log2 (Zpos m)) by lia.
  apply Z.log2_spec. lia.
Qed.

Lemma digits_pos (m : positive) : 1 <= digits m.
Proof. unfold digits. lia. Qed.

Lemma digits_unique (m : positive) (d : Z) :
  2 ^ (d - 1) <= Zpos m < 2 ^ d -> digits m = d.
Proof.
  intros H. rewrite digits_log2.
  assert (0 <= d - 1).
  { destruct (Z.le_gt_cases 0 (d - 1)); trivial.
    destruct (Z.eq_dec d 0) as [-> | ]; [simpl in H; lia | ].
    rewrite (Z.pow_neg_r 2 d) in H by lia. lia. }
  rewrite (Z.log2_unique (Zpos m) (d - 1)); try lia.
  replace (Z.succ (d - 1)) with d by lia. exact H.
Qed.

Lemma digits_le (m1 m2 : positive) :
  (m1 <= m2)%positive -> digits m1 <= digits m2.
Proof.
  intros H. rewrite !digits_log2.
  assert (Z.log2 (Zpos m1) <= Z.log2 (Zpos m2)) by (apply Z.log2_le_mono; lia).
  lia.
Qed.

Lemma Zdigits2_pos (m : positive) : Zdigits2 (Zpos m) = digits m.
Proof. reflexivity. Qed.

(** ** Shifting a mantissa to the right *)

Lemma iter_pos_succ {A : Type} (f : A -> A) (p : positive) (x : A) :
  iter_pos f (Pos.succ p) x = f (iter_pos f p x).
Proof.
  assert (H : forall q y, iter_pos f q y = Pos.iter f y q).
  { induction q as [q IH | q IH | ]; intros y; simpl.
    - rewrite !IH. rewrite <- Pos.iter_swap. rewrite <- Pos.iter_swap.
      rewrite Pos.iter_swap. reflexivity.
    - rewrite !IH. reflexivity.
    - reflexivity. }
  rewrite !H. apply Pos.iter_succ.
Qed.

Definition inexact (mrs : shr_record) : bool := shr_r mrs || shr_s mrs.

Lemma shr_1_spec (mrs : shr_record) :
  0 <= shr_m mrs ->
  shr_m (shr_1 mrs) = shr_m mrs / 2
  /\ inexact (shr_1 mrs) = inexact mrs || Z.odd (shr_m mrs).
Proof.
  destruct mrs as [m r s]. unfold inexact. cbn [shr_m]. intros Hm.
  destruct m as [ | [p | p | ] | p]; try lia;
    cbn [shr_1 shr_m shr_r shr_s];
    (split; [ | destruct r, s; reflexivity]); try reflexivity.
  - rewrite Pos2Z.inj_xI.
    rewrite Z.add_comm, Z.mul_comm, Z.div_add by lia. reflexivity.
  - rewrite Pos2Z.inj_xO. rewrite Z.mul_comm, Z.div_mul by lia. reflexivity.
Qed.

Lemma shr_iter_spec (p : positive) (mrs : shr_record) :
  0 <= shr_m mrs ->
  shr_m (iter_pos shr_1 p mrs) = shr_m mrs / 2 ^ Zpos p
  /\ inexact (iter_pos shr_1 p mrs)
     = inexact mrs || negb (shr_m mrs mod 2 ^ Zpos p =? 0).
Proof.
  intros Hm. induction p as [ | p [IHm IHi]] using Pos.peano_ind.
  - simpl iter_pos. destruct (shr_1_spec mrs Hm) as [H1 H2].
    rewrite H1, H2. split; [reflexivity | ].
    f_equal. rewrite Z.pow_1_r.
    rewrite Zodd_mod. destruct (Z.eqb_spec (shr_m mrs mod 2) 1);
      destruct (Z.eqb_spec (shr_m mrs mod 2) 0); trivial; try lia.
    assert (0 <= shr_m mrs mod 2 < 2) by (apply Z.mod_pos_bound; lia). lia.
  - rewrite iter_pos_succ.
    assert (Hpos : 0 <= shr_m (iter_pos shr_1 p mrs)).
    { rewrite IHm. apply Z.div_pos; [lia | ]. apply Z.pow_pos_nonneg; lia. }
    destruct (shr_1_spec _ Hpos) as [H1 H2].
    rewrite H1, H2, IHm, IHi.
    rewrite Pos2Z.inj_succ, Z.pow_succ_r by lia.
    assert (H2p : 0 < 2 ^ Zpos p) by (apply Z.pow_pos_nonneg; lia).
    split.
    + rewrite Z.div_div by lia. f_equal. lia.
    + rewrite <- orb_assoc. f_equal.
      set (m := shr_m mrs) in *. set (q := 2 ^ Zpos p) in *.
      rewrite Zodd_mod.
      rewrite (Z.mul_comm 2 q), Z.rem_mul_r by lia.
      assert (0 <= m mod q < q) by (apply Z.mod_pos_bound; lia).
      assert (0 <= (m / q) mod 2 < 2) by (apply Z.mod_pos_bound; lia).
      destruct (Z.eqb_spec (m mod q) 0), (Z.eqb_spec ((m / q) mod 2) 1),
        (Z.eqb_spec (m mod q + q * ((m / q) mod 2)) 0); simpl; trivial; nia.
Qed.


Definition exact (l : location) : bool :=
  match l with loc_Exact => true | _ => false end.

Lemma record_of_loc_spec (m : Z) (l : location) :
  shr_m (shr_record_of_loc m l) = m
  /\ inexact (shr_record_of_loc m l) = negb (exact l).
Proof. destruct l as [ | [ | | ]]; split; reflexivity. Qed.

Lemma loc_of_record_exact (mrs : shr_record) :
  exact (loc_of_shr_record mrs) = negb (inexact mrs).
Proof. destruct mrs as [m [ | ] [ | ]]; reflexivity. Qed.

(** [shr_fexp] divides the mantissa by the power of two that brings the
    exponent up to [fexp], and remembers whether anything was lost. *)
Lemma shr_fexp_spec (M E : Z) (l : location) :
  0 <= M ->
  let n := Z.max 0 (fexp (Zdigits2 M + E) - E) in
  exists mrs,
    shr_fexp prec emax M E l = (mrs, E + n)
    /\ shr_m mrs = M / 2 ^ n
    /\ inexact mrs = negb (exact l) || negb (M mod 2 ^ n =? 0).
Proof.
  intros HM n. unfold shr_fexp, shr. fold (fexp (Zdigits2 M + E)).
  destruct (record_of_loc_spec M l) as [Hm Hi].
  destruct (fexp (Zdigits2 M + E) - E) as [ | p | p] eqn:Hn; subst n.
  - exists (shr_record_of_loc M l). simpl Z.max. rewrite Z.add_0_r.
    rewrite Z.pow_0_r, Z.div_1_r, Z.mod_1_r, Hm, Hi. simpl.
    rewrite orb_false_r. auto.
  - destruct (shr_iter_spec p (shr_record_of_loc M l)) as [H1 H2];
      [rewrite Hm; exact HM | ].
    exists (iter_pos shr_1 p (shr_record_of_loc M l)).
    replace (Z.max 0 (Zpos p)) with (Zpos p) by lia.
    rewrite H1, H2, Hm, Hi. auto.
  - exists (shr_record_of_loc M l).
    replace (Z.max 0 (Zneg p)) with 0 by lia. rewrite Z.add_0_r.
    rewrite Z.pow_0_r, Z.div_1_r, Z.mod_1_r, Hm, Hi. simpl.
    rewrite orb_false_r. auto.
Qed.

Lemma round_nearest_even_spec (m : Z) (l : location) :
  m <= round_nearest_even m l <= m + 1
  /\ (exact l = true -> round_nearest_even m l = m).
Proof.
  destruct l as [ | [ | | ]]; simpl; try (split; [lia | congruence]).
  destruct (Z.even m); split; try lia; congruence.
Qed.

(** What [binary_round_aux] returns for a rounded mantissa [m] at the
    exponent [e]: zero, the number itself, or, when the rounding has
    carried into a 54th bit, the next power of two. *)
Definition pack (s : bool) (m e : Z) : number :=
  if m =? 0 then S754_zero s
  else if m =? 2 ^ 53 then
    if e + 1 <=? 971 then S754_finite s (2 ^ 52) (e + 1) else S754_infinity s
  else
    if e <=? 971 then S754_finite s (Z.to_pos m) e else S754_infinity s.

Lemma pow2_pos (k : Z) : 0 <= k -> 0 < 2 ^ k.
Proof. intros. apply Z.pow_pos_nonneg; lia. Qed.

Lemma pow2_le (a b : Z) : 0 <= a <= b -> 2 ^ a <= 2 ^ b.
Proof. intros. apply Z.pow_le_mono_r; lia. Qed.

Lemma pow2_lt (a b : Z) : 0 <= a < b -> 2 ^ a < 2 ^ b.
Proof. intros. apply Z.pow_lt_mono_r; lia. Qed.

Lemma pow2_split (a b : Z) : 0 <= a -> 0 <= b -> 2 ^ (a + b) = 2 ^ a * 2 ^ b.
Proof. intros. apply Z.pow_add_r; lia. Qed.

Lemma Zdigits2_nonneg (M : Z) : 0 <= Zdigits2 M.
Proof. destruct M; simpl; lia. Qed.

Lemma Zdigits2_bound (M : Z) : 0 <= M -> M < 2 ^ Zdigits2 M.
Proof.
  destruct M as [ | m | m]; intros; try lia; [reflexivity | ].
  apply (digits_bounds m).
Qed.

Lemma Zdigits2_lower (M : Z) : 0 < M -> 2 ^ (Zdigits2 M - 1) <= M.
Proof.
  destruct M as [ | m | m]; intros; try lia. apply (digits_bounds m).
Qed.

(** The anatomy of a rounding.  The input is the mantissa [M >= 0] at
    an exponent [E] not above the one binary64 allots to it, and a
    location telling whether [M] is exact or the floor of the value. *)
Lemma round_aux_spec (s : bool) (M E : Z) (l : location) :
  0 <= M ->
  E <= fexp (Zdigits2 M + E) ->
  let e1 := fexp (Zdigits2 M + E) in
  let m1 := M / 2 ^ (e1 - E) in
  exists m2,
    binary_round_aux prec emax s M E l = pack s m2 e1
    /\ m1 <= m2 <= m1 + 1
    /\ (exact l = true -> M mod 2 ^ (e1 - E) = 0 -> m2 = m1)
    /\ m1 < 2 ^ 53
    /\ (-1074 < e1 -> 2 ^ 52 <= m1)
    /\ -1074 <= e1.
Proof.
  intros HM HE e1 m1.
  assert (Hn : 0 <= e1 - E) by (subst e1; lia).
  assert (Hpow : 0 < 2 ^ (e1 - E)) by now apply pow2_pos.
  assert (Hm1 : 0 <= m1) by (apply Z.div_pos; lia).
  assert (Hlt : m1 < 2 ^ 53).
  { subst m1. apply Z.div_lt_upper_bound; [lia | ].
    pose proof (Zdigits2_bound M HM) as HdM.
    pose proof (Zdigits2_nonneg M) as Hd0.
    assert (Zdigits2 M <= e1 - E + 53) by (subst e1; rewrite fexp_eq; lia).
    assert (2 ^ Zdigits2 M <= 2 ^ (e1 - E + 53)) by (apply pow2_le; lia).
    rewrite pow2_split in * by lia. lia. }
  assert (Hnormal : -1074 < e1 -> 2 ^ 52 <= m1).
  { intros He1.
    assert (HM0 : 0 < M).
    { destruct (Z.eq_dec M 0) as [-> | ]; [ | lia].
      subst e1. simpl Zdigits2 in *. rewrite fexp_eq in *. lia. }
    subst m1.
    pose proof (Zdigits2_lower M HM0) as HdM.
    assert (Hd : e1 - E = Zdigits2 M - 53) by (subst e1; rewrite fexp_eq in *; lia).
    rewrite Hd in *.
    apply Z.div_le_lower_bound; [lia | ].
    replace (Zdigits2 M - 1) with (Zdigits2 M - 53 + 52) in HdM by lia.
    rewrite pow2_split in HdM by lia. lia. }
  unfold binary_round_aux.
  destruct (shr_fexp_spec M E l HM) as (mrs1 & Hshr1 & Hm & Hi).
  fold (fexp (Zdigits2 M + E)) in *. fold e1 in Hshr1, Hm, Hi.
  replace (Z.max 0 (e1 - E)) with (e1 - E) in * by lia.
  replace (E + (e1 - E)) with e1 in Hshr1 by lia.
  rewrite Hshr1. fold m1 in Hm.
  destruct (round_nearest_even_spec (shr_m mrs1) (loc_of_shr_record mrs1))
    as [Hrne Hexact].
  rewrite loc_of_record_exact, Hi in Hexact. rewrite Hm in *.
  set (m2 := round_nearest_even m1 (loc_of_shr_record mrs1)) in *.
  exists m2.
  assert (Hm2 : 0 <= m2) by lia.
  destruct (shr_fexp_spec m2 e1 loc_Exact Hm2) as (mrs2 & Hshr2 & Hm' & _).
  rewrite Hshr2.
  assert (He1 : -1074 <= e1) by (subst e1; rewrite fexp_eq; lia).
  split; [ | repeat split; try lia; trivial].
  - unfold pack.
    destruct (Z.eqb_spec m2 0) as [H0 | H0].
    + rewrite Hm', H0. simpl Zdigits2. rewrite Z.div_0_l; [reflexivity | ].
      apply Z.pow_nonzero; lia.
    + destruct (Z.eqb_spec m2 (2 ^ 53)) as [Hc | Hc].
      * rewrite Hm', Hc.
        change (Zdigits2 (2 ^ 53)) with 54.
        replace (Z.max 0 (fexp (54 + e1) - e1)) with 1
          by (rewrite fexp_eq; lia).
        change (2 ^ 53 / 2 ^ 1) with (Zpos (2 ^ 52)).
        reflexivity.
      * assert (Hd : Zdigits2 m2 <= 53).
        { destruct m2 as [ | p | p]; try lia. simpl.
          destruct (Z.le_gt_cases (digits p) 53) as [ | Hgt]; trivial.
          pose proof (digits_bounds p) as Hb.
          assert (2 ^ 53 <= 2 ^ (digits p - 1)) by (apply pow2_le; lia).
          lia. }
        replace (Z.max 0 (fexp (Zdigits2 m2 + e1) - e1)) with 0 in *
          by (rewrite fexp_eq; lia).
        rewrite Z.pow_0_r, Z.div_1_r in Hm'. rewrite Z.add_0_r, Hm'.
        destruct m2 as [ | p | p]; try lia. reflexivity.
  - intros Hl Hmod. apply Hexact. rewrite Hl, Hmod. reflexivity.
Qed.


(** ** Canonical numbers *)

Lemma bounded_facts (m : positive) (e : Z) :
  bounded prec emax m e = true ->
  fexp (digits m + e) = e /\ -1074 <= e <= 971 /\ digits m <= 53
  /\ Zpos m < 2 ^ 53 /\ (-1074 < e -> 2 ^ 52 <= Zpos m).
Proof.
  unfold bounded, canonical_mantissa. fold (digits m). fold (fexp (digits m + e)).
  intros H. apply andb_prop in H as [Hc He].
  apply Z.eqb_eq in Hc. apply Z.leb_le in He. change (emax - prec) with 971 in He.
  pose proof (digits_bounds m) as Hb. pose proof (digits_pos m) as Hd.
  rewrite fexp_eq in Hc.
  assert (Hd53 : digits m <= 53) by lia.
  repeat split; try lia.
  - rewrite fexp_eq. exact Hc.
  - assert (2 ^ digits m <= 2 ^ 53) by (apply pow2_le; lia). lia.
  - intros Hn. assert (Hd' : digits m = 53) by lia. rewrite Hd' in Hb.
    exact (proj1 Hb).
Qed.

Lemma le_finite (m1 : positive) (e1 : Z) (m2 : positive) (e2 : Z) :
  le (S754_finite false m1 e1) (S754_finite false m2 e2) = true
  <-> e1 < e2 \/ (e1 = e2 /\ Zpos m1 <= Zpos m2).
Proof.
  unfold le, SFleb. simpl.
  change (Pos.compare_cont Eq m1 m2) with (Pos.compare m1 m2).
  destruct (Z.compare_spec e1 e2); [ | split; auto; lia | split; [congruence | lia]].
  destruct (Pos.compare_spec m1 m2); split; auto; try lia; try congruence.
Qed.

Lemma pack_valid (s : bool) (m e : Z) :
  0 <= m <= 2 ^ 53 -> -1074 <= e -> (-1074 < e -> m <> 0 -> 2 ^ 52 <= m) ->
  valid (pack s m e) = true.
Proof.
  intros Hm He Hn. unfold pack.
  destruct (Z.eqb_spec m 0); [reflexivity | ].
  destruct (Z.eqb_spec m (2 ^ 53)).
  - destruct (Z.leb_spec (e + 1) 971); [ | reflexivity].
    unfold valid, valid_binary, bounded, canonical_mantissa.
    change (Zpos (digits2_pos (2 ^ 52))) with 53.
    fold (fexp (53 + (e + 1))). rewrite fexp_eq.
    apply andb_true_intro. split; [apply Z.eqb_eq | apply Z.leb_le]; try lia.
    change (emax - prec) with 971. lia.
  - destruct (Z.leb_spec e 971); [ | reflexivity].
    unfold valid, valid_binary, bounded, canonical_mantissa.
    destruct m as [ | p | p]; try lia. simpl Z.to_pos.
    fold (digits p). fold (fexp (digits p + e)). rewrite fexp_eq.
    pose proof (digits_bounds p) as Hb. pose proof (digits_pos p) as Hd.
    assert (Hd53 : digits p <= 53).
    { destruct (Z.le_gt_cases (digits p) 53) as [ | Hgt]; trivial.
      assert (2 ^ 53 <= 2 ^ (digits p - 1)) by (apply pow2_le; lia). lia. }
    apply andb_true_intro. split; [apply Z.eqb_eq | apply Z.leb_le];
      [ | change (emax - prec) with 971; lia].
    destruct (Z.eq_dec e (-1074)) as [-> | Hne]; [lia | ].
    assert (2 ^ 52 <= Zpos p) by (apply Hn; lia).
    assert (digits p = 53); [ | lia].
    apply digits_unique. simpl (53 - 1). lia.
Qed.

(** Every rounding yields a number of binary64. *)
Lemma round_aux_valid (s : bool) (M E : Z) (l : location) :
  0 <= M -> E <= fexp (Zdigits2 M + E) ->
  valid (binary_round_aux prec emax s M E l) = true.
Proof.
  intros HM HE.
  destruct (round_aux_spec s M E l HM HE) as (m2 & -> & Hm2 & _ & Hlt & Hn & He).
  assert (0 <= M / 2 ^ (fexp (Zdigits2 M + E) - E)).
  { apply Z.div_pos; [lia | apply pow2_pos; lia]. }
  apply pack_valid; try lia.
Qed.

(** Rounding is monotone, below: a number of binary64 that is at most
    the value rounded is at most the result. *)
Lemma round_lower (mz : positive) (ez M E : Z) (l : location) :
  bounded prec emax mz ez = true ->
  0 <= M -> E <= fexp (Zdigits2 M + E) ->
  (ez < E /\ 0 < M) \/ (E <= ez /\ Zpos mz * 2 ^ (ez - E) <= M) ->
  le (S754_finite false mz ez) (binary_round_aux prec emax false M E l) = true.
Proof.
  intros Hz HM HE Hle.
  destruct (bounded_facts mz ez Hz) as (Hcz & Hez & Hdz & Hmz & Hnz).
  destruct (round_aux_spec false M E l HM HE) as (m2 & -> & Hm2 & _ & Hlt & Hn & He).
  set (e1 := fexp (Zdigits2 M + E)) in *.
  set (m1 := M / 2 ^ (e1 - E)) in *.
  assert (Hpow : 0 < 2 ^ (e1 - E)) by (apply pow2_pos; lia).
  assert (HM0 : 0 < M).
  { destruct Hle as [[_ H] | [H1 H2]]; trivial.
    assert (0 < 2 ^ (ez - E)) by (apply pow2_pos; lia). nia. }
  assert (HA : ez <= e1).
  { destruct Hle as [[H _] | [H1 H2]]; [lia | ].
    pose proof (Zdigits2_bound M HM) as HdM.
    pose proof (digits_bounds mz) as Hbz. pose proof (digits_pos mz).
    pose proof (Zdigits2_nonneg M).
    assert (Hd : digits mz + ez <= Zdigits2 M + E).
    { destruct (Z.le_gt_cases (digits mz + ez) (Zdigits2 M + E)); trivial.
      assert (2 ^ Zdigits2 M <= 2 ^ (digits mz - 1 + (ez - E)))
        by (apply pow2_le; lia).
      rewrite pow2_split in * by lia.
      assert (0 < 2 ^ (ez - E)) by (apply pow2_pos; lia). nia. }
    apply fexp_mono in Hd. subst e1. lia. }
  assert (Hcase2 : ez = e1 -> Zpos mz <= m1).
  { intros Heq. destruct Hle as [[H _] | [H1 H2]]; [lia | ].
    subst m1. apply Z.div_le_lower_bound; [lia | ]. rewrite <- Heq. lia. }
  assert (Hm1 : 1 <= m1).
  { destruct (Z.eq_dec e1 (-1074)); [ | specialize (Hn ltac:(lia)); lia].
    assert (ez = e1) by lia. specialize (Hcase2 ltac:(lia)). lia. }
  unfold pack.
  destruct (Z.eqb_spec m2 0); [lia | ].
  destruct (Z.eqb_spec m2 (2 ^ 53)).
  - destruct (_ <=? 971); [ | reflexivity]. apply le_finite. lia.
  - destruct (_ <=? 971); [ | reflexivity]. apply le_finite.
    rewrite Z2Pos.id by lia.
    destruct (Z.eq_dec ez e1); [right | left; lia].
    specialize (Hcase2 ltac:(lia)). lia.
Qed.

(** Rounding is monotone, above: a number of binary64 that is at least
    the value rounded is at least the result. *)
Lemma round_upper (mz : positive) (ez M E : Z) (l : location) :
  bounded prec emax mz ez = true ->
  0 <= M -> E <= fexp (Zdigits2 M + E) ->
  E <= ez -> M <= Zpos mz * 2 ^ (ez - E) ->
  (exact l = false -> M < Zpos mz * 2 ^ (ez - E)) ->
  le (binary_round_aux prec emax false M E l) (S754_finite false mz ez) = true.
Proof.
  intros Hz HM HE Hez' Hle Hstrict.
  destruct (bounded_facts mz ez Hz) as (Hcz & Hez & Hdz & Hmz & Hnz).
  destruct (round_aux_spec false M E l HM HE)
    as (m2 & -> & Hm2 & Hexact & Hlt & Hn & He).
  set (e1 := fexp (Zdigits2 M + E)) in *.
  set (m1 := M / 2 ^ (e1 - E)) in *.
  assert (Hpow : 0 < 2 ^ (e1 - E)) by (apply pow2_pos; lia).
  assert (Hpz : 0 < 2 ^ (ez - E)) by (apply pow2_pos; lia).
  assert (Hm1 : 0 <= m1) by (apply Z.div_pos; lia).
  assert (HA : e1 <= ez).
  { destruct (Z.eq_dec M 0) as [HM0 | HM0].
    - subst e1. rewrite HM0 in *. simpl Zdigits2 in *. rewrite fexp_eq in *. lia.
    - pose proof (Zdigits2_lower M ltac:(lia)) as HdM.
      pose proof (digits_bounds mz) as Hbz. pose proof (digits_pos mz).
      pose proof (Zdigits2_nonneg M).
      assert (Hd : Zdigits2 M + E <= digits mz + ez).
      { destruct (Z.le_gt_cases (Zdigits2 M + E) (digits mz + ez)); trivial.
        assert (2 ^ (digits mz + (ez - E)) <= 2 ^ (Zdigits2 M - 1))
          by (apply pow2_le; lia).
        rewrite pow2_split in * by lia. nia. }
      apply fexp_mono in Hd. subst e1. lia. }
  assert (Hsame : e1 = ez -> m2 <= Zpos mz).
  { intros Heq.
    assert (Hm1z : m1 <= Zpos mz).
    { subst m1. rewrite Heq.
      apply Z.div_le_upper_bound; [lia | ]. lia. }
    destruct (Z.eq_dec m2 m1) as [-> | Hup]; trivial.
    assert (Hs : M < Zpos mz * 2 ^ (ez - E)).
    { destruct (exact l) eqn:Hl; [ | now apply Hstrict].
      destruct (Z.eq_dec (M mod 2 ^ (e1 - E)) 0) as [Hmod | Hmod];
        [now specialize (Hexact eq_refl Hmod) | ].
      destruct (Z.eq_dec M (Zpos mz * 2 ^ (ez - E))) as [HMe | ]; [ | lia].
      rewrite HMe, Heq, Z.mod_mul in Hmod by lia. lia. }
    assert (m1 < Zpos mz); [ | lia].
    subst m1. rewrite Heq. apply Z.div_lt_upper_bound; lia. }
  unfold pack.
  destruct (Z.eqb_spec m2 0); [reflexivity | ].
  destruct (Z.eqb_spec m2 (2 ^ 53)).
  - assert (e1 < ez) by (destruct (Z.eq_dec e1 ez); [specialize (Hsame ltac:(lia)) | ]; lia).
    destruct (Z.leb_spec (e1 + 1) 971); [ | lia]. apply le_finite.
    destruct (Z.eq_dec (e1 + 1) ez); [right | left; lia].
    split; trivial. change (Zpos (2 ^ 52)) with (2 ^ 52). apply Hnz. lia.
  - destruct (Z.leb_spec e1 971); [ | lia]. apply le_finite.
    rewrite Z2Pos.id by lia.
    destruct (Z.eq_dec e1 ez); [right | left; lia].
    split; trivial. now apply Hsame.
Qed.


(** ** Comparing dyadic values *)

(** [A * 2^a <= B * 2^b], on integers: both sides are put at the lower of
    the two exponents. *)
Definition dle (A a B b : Z) : Prop :=
  A * 2 ^ (a - Z.min a b) <= B * 2 ^ (b - Z.min a b).

Definition dlt (A a B b : Z) : Prop :=
  A * 2 ^ (a - Z.min a b) < B * 2 ^ (b - Z.min a b).

Lemma dle_align (A a B b k : Z) :
  k <= a -> k <= b ->
  (dle A a B b <-> A * 2 ^ (a - k) <= B * 2 ^ (b - k)).
Proof.
  intros Ha Hb. unfold dle. set (m := Z.min a b).
  assert (Hm : k <= m) by (subst m; lia).
  assert (Hp : 0 < 2 ^ (m - k)) by (apply pow2_pos; lia).
  replace (a - k) with (a - m + (m - k)) by lia.
  replace (b - k) with (b - m + (m - k)) by lia.
  rewrite !pow2_split by (subst m; lia).
  rewrite !Z.mul_assoc. split; intros H.
  - apply Z.mul_le_mono_nonneg_r; lia.
  - apply Z.mul_le_mono_pos_r in H; lia.
Qed.

Lemma dlt_align (A a B b k : Z) :
  k <= a -> k <= b ->
  (dlt A a B b <-> A * 2 ^ (a - k) < B * 2 ^ (b - k)).
Proof.
  intros Ha Hb. unfold dlt. set (m := Z.min a b).
  assert (Hm : k <= m) by (subst m; lia).
  assert (Hp : 0 < 2 ^ (m - k)) by (apply pow2_pos; lia).
  replace (a - k) with (a - m + (m - k)) by lia.
  replace (b - k) with (b - m + (m - k)) by lia.
  rewrite !pow2_split by (subst m; lia).
  rewrite !Z.mul_assoc. split; intros H.
  - apply Z.mul_lt_mono_pos_r; lia.
  - apply Z.mul_lt_mono_pos_r in H; lia.
Qed.

Lemma dle_at (k A a B b : Z) :
  k <= a -> k <= b -> A * 2 ^ (a - k) <= B * 2 ^ (b - k) -> dle A a B b.
Proof. intros Ha Hb H. now apply (dle_align A a B b k). Qed.

Lemma dle_to (k A a B b : Z) :
  k <= a -> k <= b -> dle A a B b -> A * 2 ^ (a - k) <= B * 2 ^ (b - k).
Proof. intros Ha Hb H. now apply (dle_align A a B b k). Qed.

Lemma dlt_at (k A a B b : Z) :
  k <= a -> k <= b -> A * 2 ^ (a - k) < B * 2 ^ (b - k) -> dlt A a B b.
Proof. intros Ha Hb H. now apply (dlt_align A a B b k). Qed.

Lemma dlt_to (k A a B b : Z) :
  k <= a -> k <= b -> dlt A a B b -> A * 2 ^ (a - k) < B * 2 ^ (b - k).
Proof. intros Ha Hb H. now apply (dlt_align A a B b k). Qed.

Lemma dle_trans (A a B b C c : Z) : dle A a B b -> dle B b C c -> dle A a C c.
Proof.
  intros H1 H2. set (k := Z.min a (Z.min b c)).
  apply (dle_to k) in H1; [ | subst k; lia | subst k; lia].
  apply (dle_to k) in H2; [ | subst k; lia | subst k; lia].
  apply (dle_at k); [subst k; lia | subst k; lia | lia].
Qed.

Lemma dlt_dle (A a B b : Z) : dlt A a B b -> dle A a B b.
Proof. unfold dlt, dle. lia. Qed.

(** The order of two numbers of binary64 is the order of their values. *)
Lemma le_value (mx : positive) (ex : Z) (my : positive) (ey : Z) :
  bounded prec emax mx ex = true -> bounded prec emax my ey = true ->
  (le (S754_finite false mx ex) (S754_finite false my ey) = true
   <-> dle (Zpos mx) ex (Zpos my) ey).
Proof.
  intros Hx Hy.
  destruct (bounded_facts mx ex Hx) as (_ & Hex & _ & Hmx & Hnx).
  destruct (bounded_facts my ey Hy) as (_ & Hey & _ & Hmy & Hny).
  rewrite le_finite. unfold dle.
  destruct (Z.lt_trichotomy ex ey) as [Hlt | [Heq | Hgt]].
  - replace (Z.min ex ey) with ex by lia. rewrite Z.sub_diag, Z.pow_0_r.
    split; [intros _ | auto].
    specialize (Hny ltac:(lia)).
    assert (2 ^ 1 <= 2 ^ (ey - ex)) by (apply pow2_le; lia).
    change (2 ^ 1) with 2 in *. change (2 ^ 53) with (2 * 2 ^ 52) in *. nia.
  - subst ey. rewrite Z.min_id, Z.sub_diag, Z.pow_0_r. lia.
  - replace (Z.min ex ey) with ey by lia. rewrite Z.sub_diag, Z.pow_0_r.
    split; [lia | intros H; exfalso].
    specialize (Hnx ltac:(lia)).
    assert (2 ^ 1 <= 2 ^ (ex - ey)) by (apply pow2_le; lia).
    change (2 ^ 1) with 2 in *. change (2 ^ 53) with (2 * 2 ^ 52) in *. nia.
Qed.

(** The two halves of monotonicity, on values. *)
Lemma round_below (mz : positive) (ez M E : Z) (l : location) :
  bounded prec emax mz ez = true ->
  0 < M -> E <= fexp (Zdigits2 M + E) ->
  dle (Zpos mz) ez M E ->
  le (S754_finite false mz ez) (binary_round_aux prec emax false M E l) = true.
Proof.
  intros Hz HM HE Hle. apply round_lower; trivial; try lia.
  destruct (Z.lt_ge_cases ez E) as [Hlt | Hge]; [left; lia | right].
  split; [lia | ].
  apply (dle_to E) in Hle; [ | lia | lia].
  rewrite Z.sub_diag, Z.pow_0_r in Hle. lia.
Qed.

Lemma round_above (mz : positive) (ez M E : Z) (l : location) :
  bounded prec emax mz ez = true ->
  0 <= M -> E <= fexp (Zdigits2 M + E) ->
  dle M E (Zpos mz) ez ->
  (exact l = false -> dlt M E (Zpos mz) ez) ->
  le (binary_round_aux prec emax false M E l) (S754_finite false mz ez) = true.
Proof.
  intros Hz HM HE Hle Hstrict.
  destruct (bounded_facts mz ez Hz) as (Hcz & Hez & Hdz & Hmz & Hnz).
  assert (HEz : E <= ez).
  { destruct (Z.eq_dec M 0) as [-> | HM0].
    - simpl Zdigits2 in HE. rewrite fexp_eq in HE. lia.
    - destruct (Z.le_gt_cases E ez) as [ | Hgt]; trivial. exfalso.
      apply (dle_to ez) in Hle; [ | lia | lia].
      rewrite Z.sub_diag, Z.pow_0_r in Hle.
      pose proof (Zdigits2_lower M ltac:(lia)) as HdM.
      pose proof (digits_bounds mz) as Hbz. pose proof (digits_pos mz).
      pose proof (Zdigits2_nonneg M).
      assert (Hd : Zdigits2 M + E <= digits mz + ez).
      { destruct (Z.le_gt_cases (Zdigits2 M + E) (digits mz + ez)); trivial.
        assert (Zdigits2 M <> 0) by (destruct M; simpl; lia).
        assert (2 ^ digits mz <= 2 ^ (Zdigits2 M - 1 + (E - ez)))
          by (apply pow2_le; lia).
        rewrite pow2_split in * by lia.
        assert (0 < 2 ^ (E - ez)) by (apply pow2_pos; lia). nia. }
      apply fexp_mono in Hd. lia. }
  apply round_upper; trivial.
  - apply (dle_to E) in Hle; [ | lia | lia].
    rewrite Z.sub_diag, Z.pow_0_r in Hle. lia.
  - intros Hl. specialize (Hstrict Hl).
    apply (dlt_to E) in Hstrict; [ | lia | lia].
    rewrite Z.sub_diag, Z.pow_0_r in Hstrict. lia.
Qed.


(** ** Normalising a mantissa before rounding *)

Lemma iter_xO (m d : positive) : Zpos (Pos.iter xO m d) = Zpos m * 2 ^ Zpos d.
Proof.
  induction d as [ | d IH] using Pos.peano_ind.
  - simpl. lia.
  - rewrite Pos.iter_succ, Pos2Z.inj_xO, IH, Pos2Z.inj_succ, Z.pow_succ_r; lia.
Qed.

Lemma shl_align_spec (m : positive) (e e' : Z) :
  snd (shl_align m e e') = Z.min e e'
  /\ Zpos (fst (shl_align m e e')) = Zpos m * 2 ^ (e - Z.min e e').
Proof.
  unfold shl_align. destruct (e' - e) as [ | d | d] eqn:Hd; cbn [fst snd].
  - replace (Z.min e e') with e by lia. rewrite Z.sub_diag, Z.pow_0_r. lia.
  - replace (Z.min e e') with e by lia. rewrite Z.sub_diag, Z.pow_0_r. lia.
  - replace (Z.min e e') with e' by lia. split; trivial.
    rewrite iter_xO. rewrite <- Pos2Z.opp_pos in Hd. f_equal. f_equal. lia.
Qed.

Lemma digits_shift (m m' : positive) (k : Z) :
  0 <= k -> Zpos m' = Zpos m * 2 ^ k -> digits m' = digits m + k.
Proof.
  intros Hk Hm. apply digits_unique. rewrite Hm.
  pose proof (digits_bounds m) as Hb. pose proof (digits_pos m).
  replace (digits m + k - 1) with (digits m - 1 + k) by lia.
  rewrite !pow2_split by lia.
  assert (0 < 2 ^ k) by now apply pow2_pos. nia.
Qed.

(** [binary_round] is a rounding of the same value, the mantissa first
    brought down to the exponent binary64 allots to it. *)
Lemma binary_round_eq (s : bool) (m : positive) (e : Z) :
  exists (m' : positive) (e' : Z),
    binary_round prec emax s m e
    = binary_round_aux prec emax s (Zpos m') e' loc_Exact
    /\ e' <= e /\ Zpos m' = Zpos m * 2 ^ (e - e')
    /\ e' <= fexp (Zdigits2 (Zpos m') + e').
Proof.
  unfold binary_round. fold (digits m). fold (fexp (digits m + e)).
  destruct (shl_align_spec m e (fexp (digits m + e))) as [He Hm].
  destruct (shl_align m e (fexp (digits m + e))) as [m' e'].
  cbn [fst snd] in He, Hm. exists m', e'. rewrite <- He in Hm.
  split; [reflexivity | ]. split; [lia | ]. split; [exact Hm | ].
  rewrite Zdigits2_pos, (digits_shift m m' (e - e')) by (trivial; lia).
  replace (digits m + (e - e') + e') with (digits m + e) by lia. lia.
Qed.

Lemma binary_round_valid (s : bool) (m : positive) (e : Z) :
  valid (binary_round prec emax s m e) = true.
Proof.
  destruct (binary_round_eq s m e) as (m' & e' & -> & _ & _ & HP).
  apply round_aux_valid; [lia | exact HP].
Qed.

Lemma dle_same_value (A a B b B' b' : Z) :
  b' <= b -> B' = B * 2 ^ (b - b') -> (dle A a B' b' <-> dle A a B b).
Proof.
  intros Hb ->. set (k := Z.min a b').
  rewrite (dle_align A a (B * 2 ^ (b - b')) b' k) by (subst k; lia).
  rewrite (dle_align A a B b k) by (subst k; lia).
  rewrite <- Z.mul_assoc, <- pow2_split by (subst k; lia).
  replace (b - b' + (b' - k)) with (b - k) by lia. reflexivity.
Qed.

Lemma dle_same_value_l (A a A' a' B b : Z) :
  a' <= a -> A' = A * 2 ^ (a - a') -> (dle A' a' B b <-> dle A a B b).
Proof.
  intros Ha ->. set (k := Z.min a' b).
  rewrite (dle_align (A * 2 ^ (a - a')) a' B b k) by (subst k; lia).
  rewrite (dle_align A a B b k) by (subst k; lia).
  rewrite <- Z.mul_assoc, <- pow2_split by (subst k; lia).
  replace (a - a' + (a' - k)) with (a - k) by lia. reflexivity.
Qed.

Lemma binary_round_below (mz : positive) (ez : Z) (m : positive) (e : Z) :
  bounded prec emax mz ez = true ->
  dle (Zpos mz) ez (Zpos m) e ->
  le (S754_finite false mz ez) (binary_round prec emax false m e) = true.
Proof.
  intros Hz Hle.
  destruct (binary_round_eq false m e) as (m' & e' & -> & He & Hm & HP).
  apply round_below; trivial; [lia | ].
  now apply (dle_same_value _ _ (Zpos m) e).
Qed.

Lemma binary_round_above (mz : positive) (ez : Z) (m : positive) (e : Z) :
  bounded prec emax mz ez = true ->
  dle (Zpos m) e (Zpos mz) ez ->
  le (binary_round prec emax false m e) (S754_finite false mz ez) = true.
Proof.
  intros Hz Hle.
  destruct (binary_round_eq false m e) as (m' & e' & -> & He & Hm & HP).
  apply round_above; trivial; [lia | | discriminate].
  now apply (dle_same_value_l (Zpos m) e).
Qed.

(** The sign of a rounding is the one asked for. *)
Definition signed (s : bool) (x : number) : Prop :=
  match x with
  | S754_zero s' | S754_infinity s' | S754_finite s' _ _ => s' = s
  | S754_nan => False
  end.

Lemma round_aux_signed (s : bool) (M E : Z) (l : location) :
  0 <= M -> E <= fexp (Zdigits2 M + E) ->
  signed s (binary_round_aux prec emax s M E l).
Proof.
  intros HM HE.
  destruct (round_aux_spec s M E l HM HE) as (m2 & -> & _).
  unfold pack.
  repeat match goal with |- context [if ?c then _ else _] => destruct c end;
    reflexivity.
Qed.

Lemma binary_round_signed (s : bool) (m : positive) (e : Z) :
  signed s (binary_round prec emax s m e).
Proof.
  destruct (binary_round_eq s m e) as (m' & e' & -> & _ & _ & HP).
  apply round_aux_signed; [lia | exact HP].
Qed.

End F64Round.

(* ================================================================== *)
(** * Products, sums and differences in binary64 *)
(* ================================================================== *)

Module F64Ops.

Import F64Order F64Round.
Local Open Scope Z_scope.

(** A positive finite number of binary64. *)
Definition positive_finite (x : number) : Prop :=
  exists m e, x = S754_finite false m e /\ bounded prec emax m e = true.

(** A positive number of binary64, [+Infinity] included. *)
Definition positive_or_infinite (x : number) : Prop :=
  positive_finite x \/ x = S754_infinity false.

(** Zero, or a positive number. *)
Definition nonnegative (x : number) : Prop :=
  x = S754_zero false \/ positive_or_infinite x.

Lemma positive_of_le (x y : number) :
  positive_finite x -> valid y = true -> le x y = true -> positive_or_infinite y.
Proof.
  intros (m & e & -> & Hb) Hy Hle.
  destruct y as [s | [ | ] | | [ | ] my ey]; try discriminate.
  - right. reflexivity.
  - left. exists my, ey. auto.
Qed.

Lemma mul_digits (a b : positive) : digits a + digits b - 1 <= digits (a * b).
Proof.
  pose proof (digits_bounds a) as Ha. pose proof (digits_bounds b) as Hb.
  pose proof (digits_bounds (a * b)) as Hab.
  pose proof (digits_pos a). pose proof (digits_pos b). pose proof (digits_pos (a * b)).
  destruct (Z.le_gt_cases (digits a + digits b - 1) (digits (a * b))); trivial.
  assert (2 ^ digits (a * b) <= 2 ^ (digits a - 1 + (digits b - 1)))
    by (apply pow2_le; lia).
  rewrite pow2_split in * by lia. rewrite Pos2Z.inj_mul in Hab. nia.
Qed.

Lemma mul_exponent (mx : positive) (ex : Z) (my : positive) (ey : Z) :
  bounded prec emax mx ex = true -> bounded prec emax my ey = true ->
  ex + ey <= fexp (Zdigits2 (Zpos (mx * my)) + (ex + ey)).
Proof.
  intros Hx Hy.
  destruct (bounded_facts mx ex Hx) as (Hcx & _).
  destruct (bounded_facts my ey Hy) as (Hcy & _).
  pose proof (mul_digits mx my). pose proof (digits_pos mx). pose proof (digits_pos my).
  rewrite Zdigits2_pos. rewrite fexp_eq in *. lia.
Qed.

Lemma mul_valid (x y : number) :
  valid x = true -> valid y = true -> valid (mul x y) = true.
Proof.
  destruct x as [sx | sx | | sx mx ex], y as [sy | sy | | sy my ey];
    try reflexivity.
  intros Hx Hy.
  apply round_aux_valid; [apply Pos2Z.is_nonneg | now apply mul_exponent].
Qed.

(** Multiplying a positive number by one that is at least 1 does not
    make it smaller. *)
Lemma mul_ge_self (x m : number) :
  positive_or_infinite x -> valid m = true -> ge m c1 = true ->
  le x (mul x m) = true /\ positive_or_infinite (mul x m).
Proof.
  intros Hx Hm Hge.
  assert (Hmpos : positive_or_infinite m).
  { apply (positive_of_le c1 m); trivial. exists (2 ^ 52)%positive, (-52). auto. }
  destruct Hx as [(mx & ex & -> & Hbx) | ->].
  - assert (Hle : le (S754_finite false mx ex) (mul (S754_finite false mx ex) m) = true).
    { destruct Hmpos as [(mm & em & -> & Hbm) | ->]; [ | reflexivity].
      destruct (bounded_facts mx ex Hbx) as (_ & Hex & _).
      destruct (bounded_facts mm em Hbm) as (_ & Hem & _ & _ & Hnm).
      apply round_below; trivial;
        [apply Pos2Z.is_pos | now apply mul_exponent | ].
      apply le_finite in Hge.
      rewrite Pos2Z.inj_mul.
      destruct (Z.le_gt_cases 0 em) as [Hpos | Hneg].
      - apply (dle_at ex); [lia | lia | ].
        rewrite Z.sub_diag, Z.pow_0_r.
        replace (ex + em - ex) with em by lia.
        assert (0 < 2 ^ em) by now apply pow2_pos.
        rewrite <- Z.mul_assoc. apply Z.mul_le_mono_nonneg_l; nia.
      - apply (dle_at (ex + em)); [lia | lia | ].
        rewrite Z.sub_diag, Z.pow_0_r.
        replace (ex - (ex + em)) with (- em) by lia.
        assert (2 ^ (- em) <= Zpos mm);
          [ | rewrite Z.mul_1_r; apply Z.mul_le_mono_nonneg_l; lia].
        destruct Hge as [Hgt | [Heq Hmm]]; [ | subst em; exact Hmm].
        specialize (Hnm ltac:(lia)).
        assert (2 ^ (- em) <= 2 ^ 52) by (apply pow2_le; lia). lia. }
    split; [exact Hle | ].
    apply (positive_of_le (S754_finite false mx ex));
      [exists mx, ex; auto | apply mul_valid; trivial | exact Hle].
  - destruct Hmpos as [(mm & em & -> & Hbm) | ->]; simpl; split;
      try reflexivity; right; reflexivity.
Qed.

(** ** Sums and differences *)


Lemma aligned (m : positive) (e k : Z) :
  k <= e -> Zpos (fst (shl_align m e k)) = Zpos m * 2 ^ (e - k).
Proof.
  intros Hk. destruct (shl_align_spec m e k) as [_ ->].
  replace (Z.min e k) with k by lia. reflexivity.
Qed.


Lemma sub_finite (mx : positive) (ex : Z) (my : positive) (ey : Z) :
  sub (S754_finite false mx ex) (S754_finite false my ey)
  = binary_normalize prec emax
      (Zpos (fst (shl_align mx ex (Z.min ex ey)))
       - Zpos (fst (shl_align my ey (Z.min ex ey))))
      (Z.min ex ey) false.
Proof. reflexivity. Qed.

(** Taking away a positive number that is not larger leaves a number
    that is zero or positive, finite, and not larger than before. *)
Lemma sub_le_left (x y : number) :
  positive_finite x -> positive_finite y -> le y x = true ->
  le (sub x y) x = true /\ isFinite (sub x y) = true
  /\ valid (sub x y) = true /\ nonnegative (sub x y).
Proof.
  intros (mx & ex & -> & Hbx) (my & ey & -> & Hby) Hle.
  apply le_value in Hle; trivial.
  apply (dle_to (Z.min ex ey)) in Hle; [ | lia | lia].
  rewrite sub_finite.
  rewrite <- !aligned in Hle by lia.
  set (a := fst (shl_align mx ex (Z.min ex ey))) in *.
  set (b := fst (shl_align my ey (Z.min ex ey))) in *.
  destruct (Zpos a - Zpos b) as [ | d | d] eqn:Hd; try lia.
  - simpl. repeat split; trivial. left. reflexivity.
  - simpl binary_normalize.
    assert (Hup : le (binary_round prec emax false d (Z.min ex ey))
                     (S754_finite false mx ex) = true).
    { apply binary_round_above; trivial.
      apply (dle_at (Z.min ex ey)); [lia | lia | ].
      rewrite Z.sub_diag, Z.pow_0_r. rewrite <- aligned by lia. fold a. lia. }
    pose proof (binary_round_valid false d (Z.min ex ey)) as Hv.
    pose proof (binary_round_signed false d (Z.min ex ey)) as Hs.
    destruct (binary_round prec emax false d (Z.min ex ey))
      as [s | s | | s m e]; simpl in Hs; try contradiction; subst s;
      try discriminate Hup.
    + repeat split; trivial. left. reflexivity.
    + repeat split; trivial. right. left. exists m, e. auto.
Qed.

End F64Ops.

(* ================================================================== *)
(** * Quotients in binary64 *)
(* ================================================================== *)

Module F64Div.

Import F64Order F64Round F64Ops.
Local Open Scope Z_scope.

(** ** Quotients *)

Lemma new_location_exact (n r : Z) : exact (new_location n r) = (r =? 0).
Proof.
  unfold new_location, new_location_even, new_location_odd.
  destruct (Z.even n), (r =? 0); reflexivity.
Qed.

Lemma Zdigits2_ge (q D : Z) : 0 <= D - 1 -> 2 ^ (D - 1) <= q -> D <= Zdigits2 q.
Proof.
  intros HD Hq.
  assert (0 < 2 ^ (D - 1)) by now apply pow2_pos.
  pose proof (Zdigits2_bound q ltac:(lia)) as Hb.
  pose proof (Zdigits2_nonneg q).
  destruct (Z.le_gt_cases D (Zdigits2 q)); trivial.
  assert (2 ^ Zdigits2 q <= 2 ^ (D - 1)) by (apply pow2_le; lia). lia.
Qed.

(** The quotient [SFdiv] hands to the rounding: the floor of
    [mx * 2^s / my] at the exponent [e'], exact when nothing remains. *)
Lemma div_core_spec (mx : positive) (ex : Z) (my : positive) (ey : Z) :
  exists q e' l,
    SFdiv_core_binary prec emax (Zpos mx) ex (Zpos my) ey = (q, e', l)
    /\ e' <= ex - ey
    /\ q = Zpos mx * 2 ^ (ex - ey - e') / Zpos my
    /\ exact l = (Zpos mx * 2 ^ (ex - ey - e') mod Zpos my =? 0)
    /\ 0 <= q
    /\ e' <= fexp (Zdigits2 q + e').
Proof.
  unfold SFdiv_core_binary. rewrite !Zdigits2_pos.
  fold (fexp (digits mx + ex - (digits my + ey))).
  set (g := digits mx + ex - (digits my + ey)).
  set (e' := Z.min (fexp g) (ex - ey)).
  set (s := ex - ey - e').
  assert (Hs : 0 <= s) by (subst s e'; lia).
  set (m' := match s with Zpos _ => Z.shiftl (Zpos mx) s | 0 => Zpos mx | Zneg _ => 0 end).
  assert (Hm' : m' = Zpos mx * 2 ^ s).
  { subst m'. destruct s as [ | p | p]; try lia.
    - now rewrite Z.shiftl_mul_pow2 by lia. }
  assert (Hdiv : Z.div_eucl m' (Zpos my) = (m' / Zpos my, m' mod Zpos my)).
  { unfold Z.div, Z.modulo. destruct (Z.div_eucl m' (Zpos my)). reflexivity. }
  rewrite Hdiv. exists (m' / Zpos my), e', (new_location (Zpos my) (m' mod Zpos my)).
  rewrite new_location_exact, Hm'. fold s.
  assert (Hps : 0 < 2 ^ s) by now apply pow2_pos.
  assert (Hq : 0 <= Zpos mx * 2 ^ s / Zpos my) by (apply Z.div_pos; nia).
  repeat split; trivial; [subst e'; lia | ].
  set (q := Zpos mx * 2 ^ s / Zpos my) in *.
  pose proof (digits_bounds mx) as Hbx. pose proof (digits_bounds my) as Hby.
  pose proof (digits_pos mx). pose proof (digits_pos my).
  destruct (Z.eq_dec q 0) as [Hq0 | Hq0].
  - rewrite Hq0. simpl Zdigits2.
    assert (Hlt : Zpos mx * 2 ^ s < Zpos my).
    { subst q. apply Z.div_small_iff in Hq0; lia. }
    assert (Hd : digits mx - 1 + s < digits my).
    { destruct (Z.lt_ge_cases (digits mx - 1 + s) (digits my)); trivial.
      assert (2 ^ digits my <= 2 ^ (digits mx - 1 + s)) by (apply pow2_le; lia).
      rewrite pow2_split in * by lia. nia. }
    assert (g <= e') by (subst g s; lia).
    subst e'. rewrite !fexp_eq in *. lia.
  - assert (Hg : g - e' <= Zdigits2 q).
    { destruct (Z.le_gt_cases (g - e') 1) as [ | Hgt].
      - destruct q; simpl; try lia.
      - apply Zdigits2_ge; [lia | ].
        subst q. apply Z.div_le_lower_bound; [lia | ].
        replace (g - e' - 1) with (digits mx - 1 + s - digits my)
          by (subst g s; lia).
        assert (Hsplit : 2 ^ (digits mx - 1 + s)
                         = 2 ^ digits my * 2 ^ (digits mx - 1 + s - digits my)).
        { rewrite <- pow2_split by (subst g s; lia). f_equal. lia. }
        rewrite pow2_split in Hsplit by lia.
        assert (0 < 2 ^ (digits mx - 1 + s - digits my))
          by (apply pow2_pos; subst g s; lia).
        nia. }
    assert (fexp g <= fexp (Zdigits2 q + e')) by (apply fexp_mono; lia).
    subst e'. lia.
Qed.

Lemma div_finite (mx : positive) (ex : Z) (my : positive) (ey : Z) :
  exists q e' l,
    div (S754_finite false mx ex) (S754_finite false my ey)
    = binary_round_aux prec emax false q e' l
    /\ e' <= ex - ey
    /\ q = Zpos mx * 2 ^ (ex - ey - e') / Zpos my
    /\ exact l = (Zpos mx * 2 ^ (ex - ey - e') mod Zpos my =? 0)
    /\ 0 <= q
    /\ e' <= fexp (Zdigits2 q + e').
Proof.
  destruct (div_core_spec mx ex my ey) as (q & e' & l & Hcore & H).
  exists q, e', l. split; [ | exact H].
  unfold div, SFdiv. rewrite Hcore. reflexivity.
Qed.

Lemma div_valid (mx : positive) (ex : Z) (my : positive) (ey : Z) :
  valid (div (S754_finite false mx ex) (S754_finite false my ey)) = true.
Proof.
  destruct (div_finite mx ex my ey) as (q & e' & l & -> & _ & _ & _ & Hq & HP).
  now apply round_aux_valid.
Qed.

(** [z * y <= x] gives [z <= x / y]. *)
Lemma div_below (mz : positive) (ez : Z) (mx : positive) (ex : Z)
    (my : positive) (ey : Z) :
  bounded prec emax mz ez = true ->
  dle (Zpos mz * Zpos my) (ez + ey) (Zpos mx) ex ->
  le (S754_finite false mz ez)
     (div (S754_finite false mx ex) (S754_finite false my ey)) = true.
Proof.
  intros Hz Hle.
  destruct (bounded_facts mz ez Hz) as (_ & Hez & _).
  destruct (div_finite mx ex my ey) as (q & e' & l & -> & He' & Hq & _ & Hq0 & HP).
  apply round_lower; trivial.
  destruct (Z.lt_ge_cases ez e') as [Hlt | Hge].
  - left. split; trivial.
    destruct (Z.eq_dec q 0) as [Hz0 | ]; [ | lia].
    rewrite Hz0 in HP. simpl Zdigits2 in HP. rewrite fexp_eq in HP. lia.
  - right. split; trivial.
    apply (dle_to (e' + ey)) in Hle; [ | lia | lia].
    replace (ez + ey - (e' + ey)) with (ez - e') in Hle by lia.
    replace (ex - (e' + ey)) with (ex - ey - e') in Hle by lia.
    rewrite Hq. apply Z.div_le_lower_bound; lia.
Qed.

(** [x <= z * y] gives [x / y <= z]. *)
Lemma div_above (mz : positive) (ez : Z) (mx : positive) (ex : Z)
    (my : positive) (ey : Z) :
  bounded prec emax mz ez = true ->
  dle (Zpos mx) ex (Zpos mz * Zpos my) (ez + ey) ->
  le (div (S754_finite false mx ex) (S754_finite false my ey))
     (S754_finite false mz ez) = true.
Proof.
  intros Hz Hle.
  destruct (div_finite mx ex my ey) as (q & e' & l & -> & He' & Hq & Hl & Hq0 & HP).
  set (k := Z.min e' ez).
  apply (dle_to (k + ey)) in Hle; [ | subst k; lia | subst k; lia].
  replace (ex - (k + ey)) with (ex - ey - e' + (e' - k)) in Hle by lia.
  replace (ez + ey - (k + ey)) with (ez - k) in Hle by lia.
  rewrite pow2_split, Z.mul_assoc in Hle by (subst k; lia).
  set (n := Zpos mx * 2 ^ (ex - ey - e')) in *.
  assert (Hn : n = Zpos my * q + n mod Zpos my)
    by (rewrite Hq; apply Z.div_mod; lia).
  assert (Hr : 0 <= n mod Zpos my < Zpos my) by (apply Z.mod_pos_bound; lia).
  assert (Hpk : 0 < 2 ^ (e' - k)) by (apply pow2_pos; subst k; lia).
  assert (Hpz : 0 < 2 ^ (ez - k)) by (apply pow2_pos; subst k; lia).
  apply round_above; trivial.
  - apply (dle_at k); [subst k; lia | subst k; lia | ].
    apply (Z.mul_le_mono_pos_l _ _ (Zpos my)); [lia | ].
    nia.
  - intros Hex. rewrite Hex in Hl. symmetry in Hl. apply Z.eqb_neq in Hl.
    apply (dlt_at k); [subst k; lia | subst k; lia | ].
    apply (Z.mul_lt_mono_pos_l (Zpos my)); [lia | ].
    nia.
Qed.

End F64Div.

(* ================================================================== *)
(** * The odds normaliser is total and floored at 1.01 *)
(* ================================================================== *)

Module OddsFacts.

Import OddsConverter F64Order.

(** A completion that is a value. *)
Definition returns {A : Type} (c : completion A) : Prop :=
  exists a, c = Normal a.

(** A completion that is a value or an exception: the code ran to its
    end. *)
Definition finishes {A : Type} (c : completion A) : Prop :=
  c <> Unfinished.

Lemma americanToDecimal_returns (american : value) :
  returns (americanToDecimal american).
Proof.
  unfold americanToDecimal, returns.
  destruct (gt _ c0); [simpl; eauto | ].
  destruct (lt _ c0); [ | simpl; eauto].
  destruct (lt _ c100); simpl; eauto.
Qed.

Lemma fractionalToDecimal_returns (fractional : value) :
  returns (fractionalToDecimal fractional).
Proof.
  unfold fractionalToDecimal, returns, split_slash.
  destruct fractional; simpl; eauto.
  destruct (_ || _ || _); simpl; eauto.
  destruct (_ || _); simpl; eauto.
Qed.

(** The final guard of [convertToDecimal]. *)
Definition floor_guard (result : number) : completion number :=
  if negb (isFinite result) || lt result c1_01 then Normal c1_01
  else Normal result.

Lemma floor_guard_spec (result : number) :
  exists d, floor_guard result = Normal d
            /\ isFinite d = true /\ ge d c1_01 = true.
Proof.
  unfold floor_guard.
  destruct (isFinite result) eqn:Hfin; simpl.
  - destruct (lt result c1_01) eqn:Hlt.
    + exists c1_01. repeat split.
    + exists result. repeat split; trivial.
      apply not_lt_ge; auto using finite_not_NaN.
  - exists c1_01. repeat split.
Qed.

(** What [convertToDecimal] returns once its guard has run; the lemma
    the later sections build on. *)
Lemma convertToDecimal_floored (odds type : value) :
  exists d, convertToDecimal odds type = Normal d
            /\ isFinite d = true /\ ge d c1_01 = true.
Proof.
  unfold convertToDecimal.
  fold floor_guard.
  set (conv := if is_type type DECIMAL then _ else _).
  assert (Hconv : returns conv).
  { subst conv.
    destruct (is_type type DECIMAL); [eexists; reflexivity | ].
    destruct (is_type type AMERICAN); [apply americanToDecimal_returns | ].
    destruct (is_type type FRACTIONAL); [apply fractionalToDecimal_returns | ].
    destruct (is_type type IMPLIED); eexists; reflexivity. }
  destruct Hconv as [result ->]. simpl.
  destruct (floor_guard_spec result) as (d & -> & Hfin & Hge).
  exists d. simpl. auto.
Qed.

(** C1.  For every odds value and every odds type (the four recognised
    ones and any other), [convertToDecimal] raises nothing and returns a
    finite number that is at least 1.01. *)
Theorem convertToDecimal_total (odds type : value) :
  exists d, convertToDecimal odds type = Normal d
            /\ isFinite d = true /\ ge d c1_01 = true.
Proof.
  unfold convertToDecimal.
  fold floor_guard.
  set (conv := if is_type type DECIMAL then _ else _).
  assert (Hconv : returns conv).
  { subst conv.
    destruct (is_type type DECIMAL); [eexists; reflexivity | ].
    destruct (is_type type AMERICAN); [apply americanToDecimal_returns | ].
    destruct (is_type type FRACTIONAL); [apply fractionalToDecimal_returns | ].
    destruct (is_type type IMPLIED); eexists; reflexivity. }
  destruct Hconv as [result ->]. simpl.
  destruct (floor_guard_spec result) as (d & -> & Hfin & Hge).
  exists d. simpl. auto.
Qed.

End OddsFacts.

(* ================================================================== *)
(** * Formatting after normalising: the round trip *)
(* ================================================================== *)

Module RoundTripFacts.

Import OddsConverter.

Local Open Scope string_scope.
Local Open Scope Z_scope.
Local Open Scope js_scope.












(** ** Deciding closeness *)








(** ** Checking a range of integers *)

Fixpoint range_all (count : nat) (lo : Z) (f : Z -> bool) : bool :=
  match count with
  | O => true
  | S count' => f lo && range_all count' (lo + 1) f
  end.

Definition all_between (lo hi : Z) (f : Z -> bool) : bool :=
  range_all (Z.to_nat (hi - lo + 1)) lo f.

Lemma range_all_spec (count : nat) (f : Z -> bool) :
  forall lo, range_all count lo f = true ->
  forall n, lo <= n < lo + Z.of_nat count -> f n = true.
Proof.
  induction count as [ | count IH]; intros lo H n Hn.
  - simpl in Hn. lia.
  - cbn [range_all] in H. apply andb_true_iff in H. destruct H as [Hlo H].
    destruct (Z.eq_dec n lo) as [-> | Hne]; [exact Hlo | ].
    apply (IH (lo + 1) H). lia.
Qed.

Lemma all_between_spec (lo hi : Z) (f : Z -> bool) :
  all_between lo hi f = true -> forall n, lo <= n <= hi -> f n = true.
Proof.
  unfold all_between. intros H n Hn.
  apply (range_all_spec _ _ _ H). lia.
Qed.











End RoundTripFacts.

(* ================================================================== *)
(** * The progression engine *)
(* ================================================================== *)

Module ProgressionFacts.

Import OddsConverter Calculator F64Order OddsFacts.
Local Open Scope string_scope.
Local Open Scope Z_scope.

(** ** The odds rejection can never fire *)

Lemma floored_above_one (d : number) : ge d c1_01 = true -> le d c1 = false.
Proof.
  intros Hge. destruct (le d c1) eqn:Hle; trivial.
  assert (H : le c1_01 c1 = true) by (eapply le_trans; eassumption).
  discriminate H.
Qed.

Lemma progression_loop_no_throw (fuel : nat) (decimalOdds : number)
    (maxRounds : Z) (targetProfit maxTableLimit : option number)
    (betMultiplier : number) (s : LoopState) (e : exn) :
  progression_loop fuel decimalOdds maxRounds targetProfit maxTableLimit
                   betMultiplier s <> Throw e.
Proof.
  revert s. induction fuel as [ | fuel IH]; intros s; simpl; [discriminate | ].
  destruct (loop_body _ _ _ _ _ s); [discriminate | apply IH].
Qed.

(** C9.  Whatever the odds value and the odds type, and whatever the
    rest of the configuration, [calculateMartingaleProgression] does not
    raise its "Invalid odds" error: the normaliser has already floored
    the odds at 1.01, so the test [decimalOdds <= 1.00] is false. *)
Theorem invalid_odds_unreachable
    (Math_pow : number -> number -> number) (config : option Config) :
  calculateMartingaleProgression Math_pow config
  <> Throw (JsError "Invalid odds - must be greater than 1.00").
Proof.
  unfold calculateMartingaleProgression.
  destruct config as [cfg | ]; [ | discriminate].
  destruct (positive_number (baseBet cfg)); [ | discriminate].
  destruct (positive_number (bankroll cfg)); [ | discriminate].
  destruct (negb (number_or_string (odds cfg))); [discriminate | ].
  destruct (negb (recognized (oddsType cfg))); [discriminate | ].
  destruct (convertToDecimal_floored (odds cfg) (oddsType cfg))
    as (d & -> & _ & Hge).
  cbn [bind]. rewrite (floored_above_one d Hge).
  destruct (_ || _ || _); [discriminate | ].
  match goal with
  | |- context [progression_loop ?f ?d ?n ?t ?l ?m ?s] =>
      pose proof (progression_loop_no_throw f d n t l m s) as Hloop;
      destruct (progression_loop f d n t l m s)
  end; cbn [bind]; try discriminate.
  intros [= ->]. now apply (Hloop (JsError "Invalid odds - must be greater than 1.00")).
Qed.

Lemma same_number_eq (a b : number) : same_number a b = true -> a = b.
Proof.
  destruct a as [sa | sa | | sa ma ea], b as [sb | sb | | sb mb eb];
    simpl; try discriminate; trivial.
  - intros H. apply Bool.eqb_prop in H. now subst.
  - intros H. apply Bool.eqb_prop in H. now subst.
  - intros H. apply andb_prop in H as [H He]. apply andb_prop in H as [Hs Hm].
    apply Bool.eqb_prop in Hs. apply Pos.eqb_eq in Hm. apply Z.eqb_eq in He.
    now subst.
Qed.

(** ** Termination and the length of the progression *)

Section Loop.

Variables (decimalOdds : number) (maxRounds : Z).
Variables (targetProfit maxTableLimit : option number).
Variable betMultiplier : number.

Let body := loop_body decimalOdds maxRounds targetProfit maxTableLimit
                      betMultiplier.
Let loop fuel := progression_loop fuel decimalOdds maxRounds targetProfit
                                  maxTableLimit betMultiplier.

(** The passes the loop condition still allows from state [s]. *)
Definition remaining (s : LoopState) : nat :=
  Z.to_nat (maxRounds + 1 - st_round s).

Lemma body_break (s final : LoopState) :
  body s = inl final ->
  (List.length (st_progression final)
   <= List.length (st_progression s) + remaining s)%nat.
Proof.
  unfold body, loop_body, remaining.
  destruct (Z.leb_spec (st_round s) maxRounds) as [Hle | Hgt]; simpl.
  - destruct (gt _ _); [intros [= <-]; lia | ].
    destruct (_ && _); [intros [= <-]; lia | ].
    destruct (_ && _); [ | discriminate].
    intros [= <-]. simpl. rewrite List.length_app. simpl. lia.
  - intros [= <-]. lia.
Qed.

Lemma body_continue (s next : LoopState) :
  body s = inr next ->
  S (remaining next) = remaining s
  /\ List.length (st_progression next) = S (List.length (st_progression s)).
Proof.
  unfold body, loop_body, remaining.
  destruct (Z.leb_spec (st_round s) maxRounds) as [Hle | Hgt]; simpl;
    [ | discriminate].
  destruct (gt _ _); [discriminate | ].
  destruct (_ && _); [discriminate | ].
  destruct (_ && _); [discriminate | ].
  intros [= <-]. simpl. rewrite List.length_app. simpl. split; lia.
Qed.

(** With more fuel than passes remain, the loop ends, and it has
    pushed at most one round per pass. *)
Lemma loop_ends (fuel : nat) :
  forall s, (remaining s < fuel)%nat ->
  exists final,
    loop fuel s = Normal final
    /\ (List.length (st_progression final)
        <= List.length (st_progression s) + remaining s)%nat.
Proof.
  induction fuel as [ | fuel IH]; intros s Hfuel; [lia | ].
  unfold loop. simpl. fold body.
  destruct (body s) as [final | next] eqn:Hbody.
  - exists final. split; [reflexivity | ]. now apply body_break.
  - destruct (body_continue s next Hbody) as [Hrem Hlen].
    destruct (IH next) as (final & Hfinal & Hbound); [lia | ].
    exists final. split; [exact Hfinal | ]. lia.
Qed.

End Loop.

(** The win probability the engine derives from a configuration, and
    its validation. *)
Definition normalized_odds (cfg : Config) : number :=
  match convertToDecimal (odds cfg) (oddsType cfg) with
  | Normal d => d
  | _ => c1_01
  end.

Definition win_probability (cfg : Config) : number :=
  div (decimalToImpliedProbability (normalized_odds cfg)) c100.

Definition valid_probability (p : number) : bool :=
  isFinite p && gt p c0 && lt p c1.

Lemma valid_probability_accepted (p : number) :
  valid_probability p = true ->
  negb (isFinite p) || le p c0 || ge p c1 = false.
Proof.
  unfold valid_probability. intros H.
  apply andb_prop in H as [H Hlt1]. apply andb_prop in H as [Hfin Hgt0].
  rewrite Hfin. simpl.
  replace (le p c0) with false
    by (symmetry; destruct (le p c0) eqn:E; trivial;
        apply le_lt_false in E; unfold gt, lt in *; congruence).
  replace (ge p c1) with false
    by (symmetry; destruct (ge p c1) eqn:E; trivial;
        apply le_lt_false in E; unfold lt in *; congruence).
  reflexivity.
Qed.

(** The preconditions of the progression engine: a base bet and a
    bankroll that are positive finite numbers, odds given as a number
    or a string in one of the four recognised formats, and a win
    probability strictly between 0 and 1. *)
Record valid_config (cfg : Config) (b k : number) : Prop := {
  valid_baseBet : positive_number (baseBet cfg) = Some b;
  valid_bankroll : positive_number (bankroll cfg) = Some k;
  valid_odds : number_or_string (odds cfg) = true;
  valid_oddsType : recognized (oddsType cfg) = true;
  valid_win : valid_probability (win_probability cfg) = true
}.

(** What the engine computes for a valid configuration, with the loop
    still to run. *)
Lemma progression_of_valid
    (Math_pow : number -> number -> number) (cfg : Config) (b k : number) :
  valid_config cfg b k ->
  calculateMartingaleProgression Math_pow (Some cfg)
  = bind (progression_loop
            (S (Z.to_nat (match maxRounds cfg with Some n => n | None => 20 end)))
            (normalized_odds cfg)
            (match maxRounds cfg with Some n => n | None => 20 end)
            (targetProfit cfg) (maxTableLimit cfg)
            (match betMultiplier cfg with Some m => m | None => c2 end)
            (initial_state b k))
      (fun final =>
         Normal
           {| Results.progression := st_progression final;
              Results.statistics :=
                calculateStatistics Math_pow (st_progression final)
                  (win_probability cfg) (sub c1 (win_probability cfg))
                  k b (normalized_odds cfg);
              Results.config :=
                {| input := cfg;
                   decimalOdds := normalized_odds cfg;
                   winProbability := mul (win_probability cfg) c100;
                   lossProbability :=
                     mul (sub c1 (win_probability cfg)) c100 |} |}).
Proof.
  intros [Hb Hk Ho Ht Hw].
  unfold calculateMartingaleProgression.
  rewrite Hb, Hk, Ho, Ht. simpl negb. cbv iota.
  unfold win_probability, normalized_odds in *.
  destruct (convertToDecimal_floored (odds cfg) (oddsType cfg))
    as (d & Hd & _ & Hge).
  rewrite Hd in *. simpl bind at 1.
  rewrite (floored_above_one d Hge).
  rewrite (valid_probability_accepted _ Hw).
  reflexivity.
Qed.


(** ** Configurations used as examples *)

(** An engine to run examples with: powers by repeated multiplication
    for the non-negative integral exponents the calculator uses. *)
Definition integral_exponent (y : number) : option N :=
  match y with
  | S754_zero _ => Some 0%N
  | S754_finite false m e =>
      if 0 <=? e then Some (Z.to_N (Zpos m * 2 ^ e))
      else if Zpos m mod 2 ^ (- e) =? 0 then Some (Z.to_N (Zpos m / 2 ^ (- e)))
      else None
  | _ => None
  end.

Definition power_by_multiplication (x y : number) : number :=
  match integral_exponent y with
  | Some n => N.iter n (mul x) c1
  | None => NaN
  end.

Definition decimal_config (baseBet bankroll : Z) (odds : value)
    (maxRounds : Z) (betMultiplier : number) : Config :=
  {| baseBet := VNum (of_Z baseBet);
     bankroll := VNum (of_Z bankroll);
     odds := odds;
     oddsType := VStr DECIMAL;
     maxRounds := Some maxRounds;
     targetProfit := None;
     betMultiplier := Some betMultiplier;
     maxTableLimit := None |}.

(** Scenario 1 of the specification. *)
Definition scenario1 : Config := decimal_config 10 1000 (VStr "2.00") 10 c2.

Lemma scenario1_valid : valid_config scenario1 (of_Z 10) (of_Z 1000).
Proof. constructor; vm_compute; reflexivity. Defined.


(** The state in which the loop ends on a configuration, once the
    validations have passed ([None] if it has not ended). *)
Definition final_state (cfg : Config) (b k : number) : option LoopState :=
  let n := match maxRounds cfg with Some n => n | None => 20 end in
  match progression_loop (S (Z.to_nat n)) (normalized_odds cfg) n
          (targetProfit cfg) (maxTableLimit cfg)
          (match betMultiplier cfg with Some m => m | None => c2 end)
          (initial_state b k) with
  | Normal final => Some final
  | _ => None
  end.

(** The progression of a valid configuration is the one the loop
    leaves behind. *)
Lemma progression_of_final
    (Math_pow : number -> number -> number) (cfg : Config) (b k : number)
    (final : LoopState) :
  valid_config cfg b k ->
  final_state cfg b k = Some final ->
  exists r,
    calculateMartingaleProgression Math_pow (Some cfg) = Normal r
    /\ Results.progression r = st_progression final
    /\ decimalOdds (Results.config r) = normalized_odds cfg.
Proof.
  intros Hvalid Hfinal.
  rewrite (progression_of_valid Math_pow cfg b k Hvalid).
  unfold final_state in Hfinal.
  match goal with
  | |- context [progression_loop ?f ?d ?n ?t ?l ?m ?s] =>
      destruct (progression_loop f d n t l m s); try discriminate
  end.
  injection Hfinal as ->. cbn [bind]. eexists. repeat split.
Qed.

(** C5.  Base bet 10, bankroll 1000, decimal odds 2.00 (typed as text
    or given as a number), at most 10 rounds, multiplier 2: the bets are
    10, 20, 40, ... doubling from round to round (six rounds fit the
    bankroll), and every round nets a profit of 10 if it wins. *)
Theorem scenario1_progression
    (Math_pow : number -> number -> number) (odds : value) :
  In odds [VStr "2.00"; VNum c2] ->
  exists r,
    calculateMartingaleProgression Math_pow
      (Some (decimal_config 10 1000 odds 10 c2)) = Normal r
    /\ List.map Round.round (Results.progression r) = [1; 2; 3; 4; 5; 6]
    /\ List.map Round.betAmount (Results.progression r)
       = List.map of_Z [10; 20; 40; 80; 160; 320]
    /\ Forall (fun round => Round.netProfitIfWin round = of_Z 10)
              (Results.progression r).
Proof.
  intros Hodds.
  assert (Hrun : exists final,
             valid_config (decimal_config 10 1000 odds 10 c2)
                          (of_Z 10) (of_Z 1000)
             /\ final_state (decimal_config 10 1000 odds 10 c2)
                            (of_Z 10) (of_Z 1000) = Some final
             /\ List.map Round.round (st_progression final)
                = [1; 2; 3; 4; 5; 6]
             /\ List.map Round.betAmount (st_progression final)
                = List.map of_Z [10; 20; 40; 80; 160; 320]
             /\ forallb (fun round =>
                           same_number (Round.netProfitIfWin round) (of_Z 10))
                        (st_progression final) = true).
  { destruct Hodds as [<- | [<- | []]]; eexists;
      (split; [constructor; vm_compute; reflexivity | ]);
      (split; [vm_compute; reflexivity | ]);
      repeat split; vm_compute; reflexivity. }
  destruct Hrun as (final & Hvalid & Hfinal & Hrounds & Hbets & Hnet).
  destruct (progression_of_final Math_pow _ _ _ final Hvalid Hfinal)
    as (r & Hr & Hprog & _).
  exists r. rewrite Hprog. repeat split; trivial.
  apply Forall_forall. intros round Hin.
  rewrite forallb_forall in Hnet. apply same_number_eq, Hnet, Hin.
Qed.

Lemma scenario1_progression_witness :
  exists r,
    calculateMartingaleProgression power_by_multiplication
      (Some (decimal_config 10 1000 (VStr "2.00") 10 c2)) = Normal r
    /\ List.map Round.round (Results.progression r) = [1; 2; 3; 4; 5; 6]
    /\ List.map Round.betAmount (Results.progression r)
       = List.map of_Z [10; 20; 40; 80; 160; 320]
    /\ Forall (fun round => Round.netProfitIfWin round = of_Z 10)
              (Results.progression r).
Proof.
  apply (scenario1_progression power_by_multiplication (VStr "2.00")).
  left. reflexivity.
Defined.

End ProgressionFacts.

(* ================================================================== *)
(** * Monotonicity of the progression *)
(* ================================================================== *)

Module MonotoneFacts.

Import OddsConverter Calculator F64Order OddsFacts ProgressionFacts F64Round F64Ops.
Local Open Scope Z_scope.



Definition last_round (rounds : list Round.t) : option Round.t :=
  List.last (List.map Some rounds) None.

Lemma last_round_push (rounds : list Round.t) (r : Round.t) :
  last_round (rounds ++ [r]) = Some r.
Proof. unfold last_round. rewrite List.map_app. apply List.last_last. Qed.



(** A bet that passes the bankroll test is finite, and so is the
    bankroll it is taken from. *)
Lemma affordable (bet bankroll : number) :
  positive_or_infinite bet -> isFinite bankroll = true -> valid bankroll = true ->
  gt bet bankroll = false ->
  positive_finite bet /\ positive_finite bankroll /\ le bet bankroll = true.
Proof.
  intros Hbet Hfin Hvalid Hgt.
  assert (Hle : le bet bankroll = true).
  { apply (not_lt_ge bankroll bet); trivial.
    - now apply finite_not_NaN.
    - destruct Hbet as [(m & e & -> & _) | ->]; reflexivity. }
  destruct Hbet as [(m & e & -> & Hb) | ->].
  - repeat split; trivial; [exists m, e; auto | ].
    destruct bankroll as [s | s | | [ | ] mk ek]; try discriminate.
    exists mk, ek. auto.
  - destruct bankroll as [s | s | | s mk ek]; discriminate.
Qed.

Section Loop.

Variables (decimalOdds : number) (maxRounds : Z).
Variables (targetProfit maxTableLimit : option number).
Variable betMultiplier : number.
Hypothesis multiplier_valid : valid betMultiplier = true.
Hypothesis multiplier_ge_1 : ge betMultiplier c1 = true.

Let body := loop_body decimalOdds maxRounds targetProfit maxTableLimit
                      betMultiplier.



End Loop.

Definition multiplier (cfg : Config) : number :=
  match betMultiplier cfg with
  | Some m => m
  | None => c2
  end.

Lemma positive_number_finite (v : value) (x : number) :
  Calculator.positive_number v = Some x -> valid x = true -> positive_finite x.
Proof.
  unfold Calculator.positive_number. destruct v as [ | | | y | ]; try discriminate.
  destruct (le y c0) eqn:Hle; [discriminate | ].
  destruct (isFinite y) eqn:Hfin; [ | discriminate].
  intros [= <-] Hv.
  destruct y as [s | s | | [ | ] m e]; try discriminate.
  exists m, e. auto.
Qed.


(** *** Examples *)





End MonotoneFacts.

(* ================================================================== *)
(** * The risk of ruin *)
(* ================================================================== *)

Module RuinFacts.

Import OddsConverter Calculator F64Order F64Round F64Ops F64Div ProgressionFacts.
Local Open Scope Z_scope.

Lemma lt_le_false (x y : number) : lt x y = true -> le y x = false.
Proof.
  unfold le, lt, SFleb, SFltb. rewrite (compare_swap x y).
  destruct (SFcompare x y) as [[ | | ] | ]; simpl; congruence.
Qed.

Lemma eq_le (x y : number) : eq x y = true -> le x y = true /\ le y x = true.
Proof.
  unfold eq, le, SFeqb, SFleb. rewrite (compare_swap x y).
  destruct (SFcompare x y) as [[ | | ] | ]; simpl; try discriminate. auto.
Qed.

(** The neighbours of 1/2 and of 1 in binary64. *)
Definition below_half : number := S754_finite false (2 ^ 53 - 2) (-54).
Definition above_half : number := S754_finite false (2 ^ 52 + 1) (-53).
Definition below_one : number := S754_finite false (2 ^ 53 - 1) (-53).
Definition above_one : number := S754_finite false (2 ^ 52 + 1) (-52).

(** The ratio of the loss probability to a win probability other than
    1/2 is never 1: below 1/2 it is at least the number after 1, above
    1/2 it is at most the number before 1. *)
Lemma ratio_not_one (p : number) :
  valid p = true -> gt p c0 = true -> lt p c1 = true -> eq p c0_5 = false ->
  eq (div (sub c1 p) p) c1 = false.
Proof.
  intros Hv Hpos Hlt1 Hne.
  destruct p as [s | [ | ] | | [ | ] mp ep];
    try discriminate Hpos; try discriminate Hlt1.
  assert (Hb : bounded prec emax mp ep = true) by exact Hv.
  destruct (bounded_facts mp ep Hb) as (_ & Hep & _ & Hmp & Hnp).
  assert (Hp : positive_finite (S754_finite false mp ep)) by (exists mp, ep; auto).
  assert (H1 : positive_finite c1) by (exists (2 ^ 52)%positive, (-52); auto).
  destruct (sub_le_left c1 _ H1 Hp (lt_le _ _ Hlt1)) as (Hl1 & Hlfin & Hlv & Hlnn).
  assert (Hep53 : ep <= -53).
  { pose proof (lt_le _ _ Hlt1) as Hle1. apply le_finite in Hle1.
    destruct Hle1 as [ | [Heq Hm]]; [lia | ].
    subst ep. specialize (Hnp ltac:(lia)).
    change (Zpos 4503599627370496) with (2 ^ 52) in Hm.
    assert (Heq : mp = (2 ^ 52)%positive) by lia.
    subst mp. discriminate Hlt1. }
  destruct (Z.eq_dec ep (-53)) as [-> | Hep54].
  - (* above 1/2 *)
    specialize (Hnp ltac:(lia)).
    assert (Hmp1 : 2 ^ 52 + 1 <= Zpos mp).
    { destruct (Z.eq_dec (Zpos mp) (2 ^ 52)) as [Heq | ]; [ | lia].
      assert (mp = (2 ^ 52)%positive) by lia. subst mp. discriminate Hne. }
    assert (Hl : le (sub c1 (S754_finite false mp (-53))) below_half = true).
    { unfold c1. rewrite sub_finite.
      change (Z.min (-52) (-53)) with (-53).
      rewrite !aligned by lia.
      change (Zpos 4503599627370496 * 2 ^ (-52 - -53)) with (2 ^ 53).
      rewrite Z.sub_diag, Z.pow_0_r, Z.mul_1_r.
      destruct (2 ^ 53 - Zpos mp) as [ | d | d] eqn:Hd; try lia.
      simpl binary_normalize. apply binary_round_above; [reflexivity | ].
      apply (dle_at (-54)); [lia | lia | ].
      change (2 ^ (-53 - -54)) with 2. change (Zpos (2 ^ 53 - 2)) with (2 ^ 53 - 2).
      rewrite Z.sub_diag, Z.pow_0_r. lia. }
    set (l := sub c1 (S754_finite false mp (-53))) in *.
    assert (Hq : le (div l (S754_finite false mp (-53))) below_one = true).
    { destruct Hlnn as [-> | [(ml & el & Hleq & Hbl) | Hinf]].
      - reflexivity.
      - rewrite Hleq in *. apply div_above; [reflexivity | ].
        apply le_value in Hl; trivial.
        eapply dle_trans; [exact Hl | ].
        apply (dle_at (-106)); [lia | lia | ].
        change (-53 + -53 - -106) with 0. rewrite Z.pow_0_r.
        change (2 ^ (-54 - -106)) with (2 ^ 52).
        change (Zpos (2 ^ 53 - 2)) with (2 ^ 53 - 2).
        change (Zpos (2 ^ 53 - 1)) with (2 ^ 53 - 1). nia.
      - rewrite Hinf in Hlfin. discriminate. }
    destruct (eq (div l (S754_finite false mp (-53))) c1) eqn:Heq; trivial.
    apply eq_le in Heq as [_ Hge].
    pose proof (le_trans _ _ _ Hge Hq) as Habs. discriminate Habs.
  - (* below 1/2 *)
    destruct (Pos.eq_dec mp (2 ^ 53 - 1)) as [-> | Hmpne].
    + destruct (Z.eq_dec ep (-54)) as [-> | Hep55]; [reflexivity | ].
      assert (Hhalf : le above_half (sub c1 (S754_finite false (2 ^ 53 - 1) ep)) = true).
      { unfold c1. rewrite sub_finite.
        replace (Z.min (-52) ep) with ep by lia.
        rewrite !aligned by lia.
        rewrite Z.sub_diag, Z.pow_0_r, Z.mul_1_r.
        assert (Hpw : 2 ^ (-52 - ep) = 2 ^ 3 * 2 ^ (-55 - ep))
          by (rewrite <- pow2_split by lia; f_equal; lia).
        assert (0 < 2 ^ (-55 - ep)) by (apply pow2_pos; lia).
        destruct (Zpos 4503599627370496 * 2 ^ (-52 - ep) - Zpos (2 ^ 53 - 1))
          as [ | d | d] eqn:Hd;
          change (Zpos 4503599627370496) with (2 ^ 52) in Hd;
          change (Zpos (2 ^ 53 - 1)) with (2 ^ 53 - 1) in Hd; try nia.
        simpl binary_normalize. apply binary_round_below; [reflexivity | ].
        apply (dle_at ep); [lia | lia | ].
        rewrite Z.sub_diag, Z.pow_0_r, <- Hd.
        replace (-53 - ep) with (2 + (-55 - ep)) by lia.
        rewrite pow2_split by lia.
        change (Zpos (2 ^ 52 + 1)) with (2 ^ 52 + 1). nia. }
      set (l := sub c1 (S754_finite false (2 ^ 53 - 1) ep)) in *.
      assert (Hq : le above_one (div l (S754_finite false (2 ^ 53 - 1) ep)) = true).
      { destruct Hlnn as [Hz | [(ml & el & Hleq & Hbl) | Hinf]].
        - rewrite Hz in Hhalf. discriminate.
        - rewrite Hleq in *. apply div_below; [reflexivity | ].
          apply le_value in Hhalf; trivial.
          eapply dle_trans; [ | exact Hhalf].
          apply (dle_at (-52 + ep)); [lia | lia | ].
          rewrite Z.sub_diag, Z.pow_0_r.
          replace (-53 - (-52 + ep)) with (-1 - ep) by lia.
          assert (2 ^ 53 <= 2 ^ (-1 - ep)) by (apply pow2_le; lia).
          change (Zpos (2 ^ 52 + 1)) with (2 ^ 52 + 1).
          change (Zpos (2 ^ 53 - 1)) with (2 ^ 53 - 1). nia.
        - rewrite Hinf in Hlfin. discriminate. }
      destruct (eq (div l (S754_finite false (2 ^ 53 - 1) ep)) c1) eqn:Heq; trivial.
      apply eq_le in Heq as [Hle' _].
      pose proof (le_trans _ _ _ Hq Hle') as Habs. discriminate Habs.
    + assert (Hmp2 : ep < -54 \/ Zpos mp <= 2 ^ 53 - 2).
      { destruct (Z.eq_dec ep (-54)); [right | left; lia].
        assert (Zpos mp <> 2 ^ 53 - 1) by (intros Habs; apply Hmpne; lia). lia. }
      assert (Hhalf : le above_half (sub c1 (S754_finite false mp ep)) = true).
      { unfold c1. rewrite sub_finite.
        replace (Z.min (-52) ep) with ep by lia.
        rewrite !aligned by lia.
        rewrite Z.sub_diag, Z.pow_0_r, Z.mul_1_r.
        assert (Hpw : 2 ^ (-52 - ep) = 2 ^ 2 * 2 ^ (-54 - ep))
          by (rewrite <- pow2_split by lia; f_equal; lia).
        assert (0 < 2 ^ (-54 - ep)) by (apply pow2_pos; lia).
        assert (Hcase : ep < -54 -> 2 <= 2 ^ (-54 - ep)).
        { intros. change 2 with (2 ^ 1) at 1. apply pow2_le. lia. }
        assert (Hcase' : ep = -54 -> 2 ^ (-54 - ep) = 1) by (intros ->; reflexivity).
        destruct (Zpos 4503599627370496 * 2 ^ (-52 - ep) - Zpos mp)
          as [ | d | d] eqn:Hd;
          change (Zpos 4503599627370496) with (2 ^ 52) in Hd; try nia.
        simpl binary_normalize. apply binary_round_below; [reflexivity | ].
        apply (dle_at ep); [lia | lia | ].
        rewrite Z.sub_diag, Z.pow_0_r, <- Hd.
        replace (-53 - ep) with (1 + (-54 - ep)) by lia.
        rewrite pow2_split by lia.
        change (Zpos (2 ^ 52 + 1)) with (2 ^ 52 + 1). nia. }
      set (l := sub c1 (S754_finite false mp ep)) in *.
      assert (Hq : le above_one (div l (S754_finite false mp ep)) = true).
      { destruct Hlnn as [Hz | [(ml & el & Hleq & Hbl) | Hinf]].
        - rewrite Hz in Hhalf. discriminate.
        - rewrite Hleq in *. apply div_below; [reflexivity | ].
          apply le_value in Hhalf; trivial.
          eapply dle_trans; [ | exact Hhalf].
          apply (dle_at (-52 + ep)); [lia | lia | ].
          rewrite Z.sub_diag, Z.pow_0_r.
          replace (-53 - (-52 + ep)) with (-1 - ep) by lia.
          assert (2 ^ 53 <= 2 ^ (-1 - ep)) by (apply pow2_le; lia).
          change (Zpos (2 ^ 52 + 1)) with (2 ^ 52 + 1). nia.
        - rewrite Hinf in Hlfin. discriminate. }
      destruct (eq (div l (S754_finite false mp ep)) c1) eqn:Heq; trivial.
      apply eq_le in Heq as [Hle' _].
      pose proof (le_trans _ _ _ Hq Hle') as Habs. discriminate Habs.
Qed.

(** The risk of ruin as [calculateStatistics] reports it, and the ratio
    of the loss probability to the win probability. *)
Definition reported_risk (Math_pow : number -> number -> number)
    (progression : list Round.t)
    (winProbability lossProbability bankroll baseBet decimalOdds : number)
  : number :=
  Stats.riskOfRuin
    (calculateStatistics Math_pow progression winProbability lossProbability
                         bankroll baseBet decimalOdds).

Definition ratio (p : number) : number := div (sub c1 p) p.

(** [Math.min(Math.max(x, 0), 1)] *)
Definition clamp (x : number) : number := Math_min (Math_max x c0) c1.

Lemma reported_risk_eq (Math_pow : number -> number -> number)
    (progression : list Round.t) (p lossProbability bankroll baseBet d : number) :
  reported_risk Math_pow progression p lossProbability bankroll baseBet d
  = mul (calculateRiskOfRuin Math_pow bankroll baseBet p) c100.
Proof. reflexivity. Qed.

(** C7.  For a win probability [p] that is a number of binary64,
    [calculateStatistics] reports as risk of ruin, in per cent:
    100 times [((1-p)/p) ^ floor(bankroll/baseBet)] clamped to [0, 1],
    when the bankroll and the base bet are not [<= 0], [0 < p < 1],
    [p] is not 0.5 and the ratio [(1-p)/p] is finite and positive;
    and 100 when [p] is 0.5, when the ratio is not finite, when the
    bankroll or the base bet is [<= 0], or when [p <= 0] or [p >= 1]. *)
Theorem risk_of_ruin_reported (Math_pow : number -> number -> number)
    (progression : list Round.t) (p lossProbability bankroll baseBet d : number) :
  valid p = true ->
  (le bankroll c0 = false -> le baseBet c0 = false ->
   gt p c0 = true -> lt p c1 = true -> eq p c0_5 = false ->
   isFinite (ratio p) = true -> gt (ratio p) c0 = true ->
   reported_risk Math_pow progression p lossProbability bankroll baseBet d
   = mul (clamp (Math_pow (ratio p) (Math_floor (div bankroll baseBet)))) c100)
  /\ (eq p c0_5 = true \/ isFinite (ratio p) = false
      \/ le bankroll c0 = true \/ le baseBet c0 = true
      \/ le p c0 = true \/ ge p c1 = true ->
      reported_risk Math_pow progression p lossProbability bankroll baseBet d
      = c100).
Proof.
  intros Hv. rewrite reported_risk_eq. unfold calculateRiskOfRuin.
  fold (ratio p). split.
  - intros Hk Hb Hp0 Hp1 Hhalf Hfin Hpos.
    rewrite Hk, Hb, Hhalf, Hfin.
    rewrite (lt_le_false _ _ Hp0).
    replace (ge p c1) with false by (symmetry; apply (lt_le_false _ _ Hp1)).
    unfold ratio in *.
    rewrite (ratio_not_one p Hv Hp0 Hp1 Hhalf).
    rewrite (lt_le_false _ _ Hpos). reflexivity.
  - intros Hcase.
    destruct (le bankroll c0 || le baseBet c0 || le p c0 || ge p c1) eqn:Hguard;
      [reflexivity | ].
    apply orb_false_elim in Hguard as [Hguard Hge].
    apply orb_false_elim in Hguard as [Hguard Hle].
    apply orb_false_elim in Hguard as [Hk Hb].
    destruct (eq p c0_5) eqn:Hhalf; [reflexivity | ].
    destruct (eq (ratio p) c1); [reflexivity | ].
    destruct (isFinite (ratio p)) eqn:Hfin; [ | reflexivity].
    destruct Hcase as [H | [H | [H | [H | [H | H]]]]]; congruence.
Qed.

(** An even-money bankroll of 100 units at a win probability of 1/4. *)
Lemma risk_of_ruin_reported_witness :
  reported_risk power_by_multiplication [] (of_decimal false 25 (-2))
                (of_decimal false 75 (-2)) (of_Z 1000) (of_Z 10) (of_Z 4)
  = mul (clamp (power_by_multiplication (ratio (of_decimal false 25 (-2)))
                  (Math_floor (div (of_Z 1000) (of_Z 10))))) c100.
Proof.
  apply (proj1 (risk_of_ruin_reported power_by_multiplication []
                  (of_decimal false 25 (-2)) (of_decimal false 75 (-2))
                  (of_Z 1000) (of_Z 10) (of_Z 4) eq_refl));
    vm_compute; reflexivity.
Defined.

End RuinFacts.

(* ================================================================== *)
(** * The session simulator *)
(* ================================================================== *)

Module SimulatorFacts.

Import OddsConverter Calculator F64Order OddsFacts ProgressionFacts.
Local Open Scope string_scope.
Local Open Scope Z_scope.

Definition undefined_totalWagered : exn :=
  JsTypeError "Cannot read properties of undefined (reading 'totalWagered')".

(** The number of sessions after the default of the parameter has been
    applied. *)
Definition defaulted (numSessions : value) : value :=
  match numSessions with
  | VUndefined => VNum (of_Z 1000)
  | v => v
  end.

(** The validation of the win probability in
    [simulateMartingaleSessions]. *)
Definition simulation_probability (r : Results.t) : number :=
  div (decimalToImpliedProbability (decimalOdds (Results.config r))) c100.

Definition rejected_probability (p : number) : bool :=
  negb (isFinite p) || le p c0 || gt p c1.

Lemma session_count_positive (v : value) (n : number) :
  session_count v = Some n -> lt (of_Z 0) n = true.
Proof.
  unfold session_count. destruct v as [ | | | x | ]; try discriminate.
  destruct (le x c0) eqn:Hle; [discriminate | ].
  destruct (gt x c100000); [discriminate | ].
  destruct (isFinite x) eqn:Hfin; [ | discriminate].
  intros [= <-]. apply (not_le_gt x c0); auto using finite_not_NaN.
Qed.

Section Runs.

Variable Math_pow : number -> number -> number.
Variable Math_random : nat -> number.

Let simulate := simulateMartingaleSessions Math_pow Math_random.
Let single := simulateSingleSession Math_pow Math_random.
Let sessions := sessions_loop Math_pow Math_random.

(** *** A configuration whose progression is empty *)

Lemma single_session_of_empty (config : option Config) (r : Results.t)
    (p : number) (w : World) :
  calculateMartingaleProgression Math_pow config = Normal r ->
  Results.progression r = [] ->
  single config p w = Throw undefined_totalWagered.
Proof.
  intros Hr Hempty. unfold single, simulateSingleSession, derive.
  rewrite Hr. cbn [bind]. rewrite Hempty. reflexivity.
Qed.

Lemma simulation_of_empty (config : option Config) (r : Results.t)
    (numSessions : value) (n : number) (w : World) :
  calculateMartingaleProgression Math_pow config = Normal r ->
  Results.progression r = [] ->
  rejected_probability (simulation_probability r) = false ->
  session_count (defaulted numSessions) = Some n ->
  simulate config numSessions w = Throw undefined_totalWagered.
Proof.
  intros Hr Hempty Hp Hn.
  unfold simulate, simulateMartingaleSessions.
  fold (defaulted numSessions). rewrite Hn.
  unfold derive at 1. rewrite Hr. cbn [bind].
  fold (simulation_probability r).
  unfold rejected_probability in Hp. rewrite Hp.
  cbn [sessions_loop].
  rewrite (session_count_positive _ _ Hn).
  fold single. rewrite (single_session_of_empty config r _ _ Hr Hempty).
  reflexivity.
Qed.

(** *** Every session is read off the table of the progression *)

(** A session a table of rounds can produce: won at one of its
    rounds, or lost after its last. *)
Definition drawn_from (table : list Round.t) (s : Session.t) : Prop :=
  if Session.won s then
    exists r,
      List.nth_error table (Z.to_nat (Session.roundsPlayed s - 1)) = Some r
      /\ 1 <= Session.roundsPlayed s
      /\ Session.profit s = Round.netProfitIfWin r
      /\ Session.totalWagered s = Round.totalWagered r
  else
    exists r,
      List.last (List.map Some table) None = Some r
      /\ Session.roundsPlayed s = Z.of_nat (List.length table)
      /\ Session.profit s = neg (Round.totalWagered r)
      /\ Session.totalWagered s = Round.totalWagered r.

Lemma play_won (rounds : list Round.t) (p : number) :
  forall i w s w',
    0 <= i ->
    play Math_random rounds i p w = (Some s, w') ->
    derivations w' = derivations w
    /\ Session.won s = true
    /\ i + 1 <= Session.roundsPlayed s
    /\ exists r,
         List.nth_error rounds (Z.to_nat (Session.roundsPlayed s - 1 - i))
         = Some r
         /\ Session.profit s = Round.netProfitIfWin r
         /\ Session.totalWagered s = Round.totalWagered r.
Proof.
  induction rounds as [ | r rest IH]; intros i w s w' Hi; simpl;
    [discriminate | ].
  destruct (lt (Math_random (draws w)) p).
  - intros [= <- <-]. simpl.
    replace (i + 1 - 1 - i) with 0 by lia.
    repeat split; try lia. exists r. auto.
  - intros Hplay. apply IH in Hplay as (Hd & Hwon & Hrp & r' & Hnth & Hpr);
      [ | lia].
    simpl in Hd. repeat split; trivial; try lia.
    exists r'. split; [ | exact Hpr].
    replace (Z.to_nat (Session.roundsPlayed s - 1 - i))
      with (S (Z.to_nat (Session.roundsPlayed s - 1 - (i + 1)))) by lia.
    exact Hnth.
Qed.

Lemma play_lost (rounds : list Round.t) (p : number) :
  forall i w w',
    play Math_random rounds i p w = (None, w') ->
    derivations w' = derivations w.
Proof.
  induction rounds as [ | r rest IH]; intros i w w'; simpl.
  - now intros [= <-].
  - destruct (lt (Math_random (draws w)) p); [discriminate | ].
    intros Hplay. apply IH in Hplay. exact Hplay.
Qed.

Lemma single_session_drawn (config : option Config) (r : Results.t)
    (p : number) (w w' : World) (s : Session.t) :
  calculateMartingaleProgression Math_pow config = Normal r ->
  single config p w = Normal (s, w') ->
  drawn_from (Results.progression r) s
  /\ derivations w' = S (derivations w).
Proof.
  intros Hr. unfold single, simulateSingleSession, derive.
  rewrite Hr. cbn [bind].
  destruct (play _ _ _ _ _) as [[won | ] w1] eqn:Hplay.
  - intros [= <- <-].
    apply play_won in Hplay as (Hd & Hwon & Hrp & r' & Hnth & Hpr & Htw);
      [ | lia].
    split; [ | exact Hd].
    unfold drawn_from. rewrite Hwon. exists r'.
    replace (Session.roundsPlayed won - 1)
      with (Session.roundsPlayed won - 1 - 0) by lia.
    repeat split; trivial; lia.
  - apply play_lost in Hplay.
    destruct (List.last _ None) as [lastRound | ] eqn:Hlast; [ | discriminate].
    intros [= <- <-]. split; [ | exact Hplay].
    unfold drawn_from. simpl. exists lastRound. auto.
Qed.

Lemma sessions_drawn (config : option Config) (r : Results.t)
    (p n : number) (fuel : nat) :
  calculateMartingaleProgression Math_pow config = Normal r ->
  forall session acc w all w',
    Forall (drawn_from (Results.progression r)) acc ->
    sessions fuel config p n session acc w = Normal (all, w') ->
    Forall (drawn_from (Results.progression r)) all
    /\ (derivations w' + List.length acc
        = derivations w + List.length all)%nat.
Proof.
  intros Hr. induction fuel as [ | fuel IH]; intros session acc w all w' Hacc;
    unfold sessions; simpl; [discriminate | ].
  destruct (lt (of_Z session) n).
  - fold single.
    destruct (single config p w) as [[s w1] | | ] eqn:Hs; cbn [bind];
      try discriminate.
    apply (single_session_drawn config r) in Hs as [Hdrawn Hd]; trivial.
    intros Hrest. apply IH in Hrest as [Hall Hcount].
    + split; [exact Hall | ]. rewrite List.length_app in Hcount.
      simpl in Hcount. lia.
    + apply Forall_app. split; [exact Hacc | ]. repeat constructor.
      exact Hdrawn.
  - intros [= <- <-]. split; [exact Hacc | lia].
Qed.

(** C3, as the code has it.  Whenever a simulation returns, there is
    one table, equal to the progression
    [calculateMartingaleProgression] returns for the configuration,
    from which every session is read off: only the round at which a
    session stops differs between sessions.  The table is not built
    once, though: the progression is derived once up front and once
    more for every session. *)
Theorem sessions_share_the_table (config : option Config)
    (numSessions : value) (w w' : World) (sim : Simulation) :
  simulate config numSessions w = Normal (sim, w') ->
  exists r,
    calculateMartingaleProgression Math_pow config = Normal r
    /\ Forall (drawn_from (Results.progression r)) (results sim)
    /\ (derivations w'
        = derivations w + 1 + List.length (results sim))%nat.
Proof.
  unfold simulate, simulateMartingaleSessions.
  destruct (session_count _) as [n | ]; [ | discriminate].
  unfold derive at 1.
  destruct (calculateMartingaleProgression Math_pow config) as [r | | ] eqn:Hr;
    cbn [bind]; try discriminate.
  destruct (_ || _ || _); [discriminate | ].
  fold sessions.
  destruct (sessions _ _ _ _ _ _ _) as [[all w1] | | ] eqn:Hloop;
    cbn [bind]; try discriminate.
  intros [= <- <-]. exists r. split; [reflexivity | ].
  apply (sessions_drawn config r) in Hloop as [Hall Hcount];
    [ | exact Hr | constructor].
  simpl in *. split; [exact Hall | lia].
Qed.

End Runs.

(** *** Examples *)

(** A base bet of 20 against a bankroll of 10: the first bet is
    unaffordable. *)
Definition unaffordable : Config := decimal_config 20 10 (VStr "2.00") 10 c2.

Definition fresh : World := {| draws := 0; derivations := 0 |}.

Lemma unaffordable_progression (Math_pow : number -> number -> number) :
  exists r,
    calculateMartingaleProgression Math_pow (Some unaffordable) = Normal r
    /\ Results.progression r = []
    /\ rejected_probability (simulation_probability r) = false.
Proof.
  destruct (progression_of_final Math_pow unaffordable (of_Z 20) (of_Z 10)
              (initial_state (of_Z 20) (of_Z 10)))
    as (r & Hr & Hprog & Hodds).
  - constructor; vm_compute; reflexivity.
  - vm_compute. reflexivity.
  - exists r. split; [exact Hr | ]. split; [exact Hprog | ].
    unfold simulation_probability. rewrite Hodds. vm_compute. reflexivity.
Qed.

(** C10.  There is a configuration the progression engine accepts,
    with a positive finite base bet above a positive finite bankroll,
    whose progression is empty and on which the simulator, for every
    number of sessions it accepts, fails with the [TypeError] of reading
    [totalWagered] of an undefined last round. *)
Theorem empty_progression_breaks_simulation :
  exists cfg b k,
    positive_number (baseBet cfg) = Some b
    /\ positive_number (bankroll cfg) = Some k
    /\ gt b k = true
    /\ forall Math_pow : number -> number -> number,
         (exists r,
            calculateMartingaleProgression Math_pow (Some cfg) = Normal r
            /\ Results.progression r = [])
         /\ forall (Math_random : nat -> number) (numSessions : value)
                   (n : number) (w : World),
              session_count (defaulted numSessions) = Some n ->
              simulateMartingaleSessions Math_pow Math_random (Some cfg)
                                         numSessions w
              = Throw undefined_totalWagered.
Proof.
  exists unaffordable, (of_Z 20), (of_Z 10).
  repeat split; try reflexivity;
    destruct (unaffordable_progression Math_pow) as (r & Hr & Hempty & Hp).
  - exists r. auto.
  - intros Math_random numSessions n w Hn.
    now apply (simulation_of_empty Math_pow Math_random _ r numSessions n).
Qed.

(** C2, at an input where it fails.  The configuration [unaffordable]
    is accepted by the progression engine and 1000 is a valid number of
    sessions, yet the simulation neither returns nor raises a validation
    error: it fails with a [TypeError]. *)
Theorem simulation_raises_TypeError
    (Math_pow : number -> number -> number) (Math_random : nat -> number)
    (w : World) :
  (exists r,
     calculateMartingaleProgression Math_pow (Some unaffordable) = Normal r)
  /\ session_count (VNum (of_Z 1000)) = Some (of_Z 1000)
  /\ simulateMartingaleSessions Math_pow Math_random (Some unaffordable)
                                (VNum (of_Z 1000)) w
     = Throw undefined_totalWagered.
Proof.
  destruct (unaffordable_progression Math_pow) as (r & Hr & Hempty & Hp).
  split; [exists r; exact Hr | ]. split; [reflexivity | ].
  now apply (simulation_of_empty Math_pow Math_random _ r _ (of_Z 1000)).
Qed.

(** The parts of C2 the code does honour: a number of sessions that is
    not accepted is rejected with the validation error, and a failure of
    the progression engine is passed on. *)
Lemma simulation_rejects_count
    (Math_pow : number -> number -> number) (Math_random : nat -> number)
    (config : option Config) (numSessions : value) (w : World) :
  session_count (defaulted numSessions) = None ->
  simulateMartingaleSessions Math_pow Math_random config numSessions w
  = Throw (JsError "Number of sessions must be between 1 and 100,000").
Proof.
  intros Hn. unfold simulateMartingaleSessions.
  fold (defaulted numSessions). now rewrite Hn.
Qed.

Lemma simulation_passes_failure_on
    (Math_pow : number -> number -> number) (Math_random : nat -> number)
    (config : option Config) (numSessions : value) (n : number) (w : World)
    (e : exn) :
  session_count (defaulted numSessions) = Some n ->
  calculateMartingaleProgression Math_pow config = Throw e ->
  simulateMartingaleSessions Math_pow Math_random config numSessions w
  = Throw e.
Proof.
  intros Hn He. unfold simulateMartingaleSessions.
  fold (defaulted numSessions). rewrite Hn. unfold derive. now rewrite He.
Qed.

(** A simulation of two sessions of scenario 1: the first loses round 1
    and wins round 2, the second loses all six rounds. *)
Definition scripted_random (i : nat) : number :=
  List.nth i [of_decimal false 75 (-2); of_decimal false 25 (-2)]
           (of_decimal false 75 (-2)).

Definition no_simulation : Simulation :=
  {| results := [];
     summary :=
       {| Summary.totalSessions := NaN; Summary.wins := NaN;
          Summary.losses := NaN; Summary.winRate := NaN;
          Summary.averageProfit := NaN; Summary.maxProfit := NaN;
          Summary.maxLoss := NaN; Summary.profitableSessions := NaN |} |}.

Definition two_sessions : Simulation * World :=
  Eval vm_compute in
    match simulateMartingaleSessions power_by_multiplication scripted_random
            (Some scenario1) (VNum c2) fresh with
    | Normal run => run
    | _ => (no_simulation, fresh)
    end.

(** C3, where it fails.  Two sessions of scenario 1 derive the
    progression three times, not once. *)
Lemma progression_derived_per_session :
  simulateMartingaleSessions power_by_multiplication scripted_random
    (Some scenario1) (VNum c2) fresh = Normal two_sessions
  /\ List.map Session.roundsPlayed (results (fst two_sessions)) = [2; 6]
  /\ derivations (snd two_sessions) = 3%nat.
Proof. repeat split; vm_compute; reflexivity. Qed.

Lemma sessions_share_the_table_witness :
  exists r,
    calculateMartingaleProgression power_by_multiplication (Some scenario1)
    = Normal r
    /\ Forall (drawn_from (Results.progression r)) (results (fst two_sessions))
    /\ (derivations (snd two_sessions)
        = derivations fresh + 1 + List.length (results (fst two_sessions)))%nat.
Proof.
  apply (sessions_share_the_table power_by_multiplication scripted_random
           (Some scenario1) (VNum c2) fresh (snd two_sessions)
           (fst two_sessions)).
  vm_compute. reflexivity.
Defined.

End SimulatorFacts.

(* ================================================================== *)
(** * More on binary64: closure, bounds, integers *)
(* ================================================================== *)


Module NumberFacts.

Import F64Order F64Round F64Ops F64Div.
Local Open Scope Z_scope.

(** ** The operations return canonical numbers *)

Lemma div_valid_any (x y : number) : valid (div x y) = true.
Proof.
  destruct x as [sx | sx | | sx mx ex], y as [sy | sy | | sy my ey];
    try reflexivity.
  unfold div, SFdiv.
  destruct (div_core_spec mx ex my ey) as (q & e' & l & -> & _ & _ & _ & Hq & He).
  apply round_aux_valid; assumption.
Qed.

Lemma normalize_valid (m e : Z) (s : bool) :
  valid (binary_normalize prec emax m e s) = true.
Proof.
  destruct m as [ | p | p]; simpl; [reflexivity | | ]; apply binary_round_valid.
Qed.

Lemma add_valid (x y : number) :
  valid x = true -> valid y = true -> valid (add x y) = true.
Proof.
  intros Hx Hy.
  destruct x as [sx | sx | | sx mx ex], y as [sy | sy | | sy my ey];
    try reflexivity; try assumption;
    try (unfold add, SFadd; destruct sx, sy; reflexivity).
  unfold add, SFadd. apply normalize_valid.
Qed.

Lemma sub_valid (x y : number) :
  valid x = true -> valid y = true -> valid (sub x y) = true.
Proof.
  intros Hx Hy.
  destruct x as [sx | sx | | sx mx ex], y as [sy | sy | | sy my ey];
    try reflexivity; try assumption;
    try (unfold sub, SFsub; destruct sx, sy; reflexivity).
  unfold sub, SFsub. apply normalize_valid.
Qed.

Lemma of_Z_valid (n : Z) : valid (of_Z n) = true.
Proof. apply normalize_valid. Qed.

Lemma of_decimal_valid (s : bool) (digits exp10 : Z) :
  valid (of_decimal s digits exp10) = true.
Proof.
  unfold of_decimal. destruct digits as [ | d | d]; try reflexivity.
  destruct (0 <=? exp10).
  - apply binary_round_valid.
  - apply div_valid_any.
Qed.

Lemma max_valid (x y : number) :
  valid x = true -> valid y = true -> valid (Math_max x y) = true.
Proof.
  intros Hx Hy. unfold Math_max.
  destruct (isNaN x || isNaN y); [reflexivity | ].
  destruct (lt x y); [assumption | ].
  destruct (lt y x); [assumption | ].
  destruct x as [[] | | | ]; assumption.
Qed.

Lemma min_valid (x y : number) :
  valid x = true -> valid y = true -> valid (Math_min x y) = true.
Proof.
  intros Hx Hy. unfold Math_min.
  destruct (isNaN x || isNaN y); [reflexivity | ].
  destruct (lt x y); [assumption | ].
  destruct (lt y x); [assumption | ].
  destruct x as [[] | | | ]; assumption.
Qed.

(** ** Products between bounds *)

Lemma dle_scale (A a B b C c : Z) :
  0 <= C -> dle A a B b -> dle (A * C) (a + c) (B * C) (b + c).
Proof.
  intros HC H.
  apply (dle_to (Z.min a b)) in H; [ | lia | lia].
  apply (dle_at (Z.min a b + c)); [lia | lia | ].
  replace (a + c - (Z.min a b + c)) with (a - Z.min a b) by lia.
  replace (b + c - (Z.min a b + c)) with (b - Z.min a b) by lia.
  rewrite <- !(Z.mul_comm C), <- !Z.mul_assoc.
  apply Z.mul_le_mono_nonneg_l; assumption.
Qed.

Lemma mul_finite (mx : positive) (ex : Z) (my : positive) (ey : Z) :
  mul (S754_finite false mx ex) (S754_finite false my ey)
  = binary_round_aux prec emax false (Zpos (mx * my)) (ex + ey) loc_Exact.
Proof. reflexivity. Qed.

Lemma mul_above (mz : positive) (ez : Z) (mx : positive) (ex : Z)
    (my : positive) (ey : Z) :
  bounded prec emax mz ez = true ->
  bounded prec emax mx ex = true -> bounded prec emax my ey = true ->
  dle (Zpos mx * Zpos my) (ex + ey) (Zpos mz) ez ->
  le (mul (S754_finite false mx ex) (S754_finite false my ey))
     (S754_finite false mz ez) = true.
Proof.
  intros Hz Hx Hy H. rewrite mul_finite.
  apply round_above; trivial; try apply Pos2Z.is_nonneg;
    try (now apply mul_exponent); now rewrite Pos2Z.inj_mul.
Qed.

Lemma mul_below (mz : positive) (ez : Z) (mx : positive) (ex : Z)
    (my : positive) (ey : Z) :
  bounded prec emax mz ez = true ->
  bounded prec emax mx ex = true -> bounded prec emax my ey = true ->
  dle (Zpos mz) ez (Zpos mx * Zpos my) (ex + ey) ->
  le (S754_finite false mz ez)
     (mul (S754_finite false mx ex) (S754_finite false my ey)) = true.
Proof.
  intros Hz Hx Hy H. rewrite mul_finite.
  apply round_below; trivial; try apply Pos2Z.is_pos;
    try (now apply mul_exponent); now rewrite Pos2Z.inj_mul.
Qed.

(** A canonical number between two positive finite ones is positive
    and finite. *)
Lemma between (lo hi y : number) :
  positive_finite lo -> positive_finite hi -> valid y = true ->
  le lo y = true -> le y hi = true -> positive_finite y.
Proof.
  intros Hlo (mh & eh & -> & _) Hy Hle Hhi.
  destruct (positive_of_le lo y Hlo Hy Hle) as [H | ->]; [exact H | ].
  discriminate Hhi.
Qed.

Lemma positive_finite_gt_0 (x : number) : positive_finite x -> gt x c0 = true.
Proof. intros (m & e & -> & _). reflexivity. Qed.

Lemma positive_finite_valid (x : number) : positive_finite x -> valid x = true.
Proof. intros (m & e & -> & H). exact H. Qed.

Lemma positive_finite_isFinite (x : number) :
  positive_finite x -> isFinite x = true.
Proof. intros (m & e & -> & _). reflexivity. Qed.

Lemma positive_finite_of (x : number) :
  valid x = true -> isFinite x = true -> gt x c0 = true -> positive_finite x.
Proof.
  destruct x as [s | s | | [] m e]; try discriminate.
  intros Hv _ _. exists m, e. auto.
Qed.

Lemma nonnegative_ge_0 (x : number) : nonnegative x -> ge x c0 = true.
Proof.
  intros [-> | [(m & e & -> & _) | ->]]; reflexivity.
Qed.

(** ** Clamping to the unit interval *)

Lemma min_le (x : number) :
  isNaN x = false ->
  isNaN (Math_min x c1) = false /\ le (Math_min x c1) c1 = true
  /\ (Math_min x c1 = x \/ Math_min x c1 = c1).
Proof.
  intros Hx. unfold Math_min. rewrite Hx. cbn [isNaN c1 orb].
  destruct (lt x c1) eqn:H1.
  { split; [exact Hx | ]. split; [now apply lt_le | now left]. }
  destruct (lt c1 x) eqn:H2; [repeat split; auto | ].
  assert (Hle : le x c1 = true).
  { apply (not_lt_ge c1 x); trivial. }
  destruct x as [[] | [] | | [] m e]; try discriminate Hx; auto.
Qed.

Lemma max_ge (x : number) :
  isNaN x = false -> le x c1 = true ->
  le c0 (Math_max c0 x) = true /\ le (Math_max c0 x) c1 = true
  /\ (Math_max c0 x = x \/ Math_max c0 x = c0).
Proof.
  intros Hx Hle. unfold Math_max. rewrite Hx. cbn [isNaN c0 zero orb].
  destruct (lt c0 x) eqn:H1.
  - split; [now apply lt_le | ]. split; [exact Hle | now left].
  - destruct (lt x c0) eqn:H2;
      (split; [reflexivity | ]); (split; [reflexivity | now right]).
Qed.

Lemma clamp_range (x : number) :
  valid x = true -> isNaN x = false ->
  valid (Math_min (Math_max x c0) c1) = true
  /\ le c0 (Math_min (Math_max x c0) c1) = true
  /\ le (Math_min (Math_max x c0) c1) c1 = true.
Proof.
  intros Hv Hx.
  assert (Hmax : isNaN (Math_max x c0) = false
                 /\ le c0 (Math_max x c0) = true
                 /\ valid (Math_max x c0) = true).
  { split; [ | split; [ | apply max_valid; trivial]].
    - unfold Math_max. rewrite Hx. cbn [isNaN c0 zero orb].
      destruct (lt x c0); [reflexivity | ].
      destruct (lt c0 x); [exact Hx | ].
      destruct x as [[] | | | ]; trivial.
    - unfold Math_max. rewrite Hx. cbn [isNaN c0 zero orb].
      destruct (lt x c0) eqn:H1; [reflexivity | ].
      destruct (lt c0 x) eqn:H2; [now apply lt_le | ].
      destruct x as [[] | [] | | [] m e]; try discriminate; reflexivity. }
  destruct Hmax as (Hnan & H0 & Hvm).
  destruct (min_le _ Hnan) as (_ & Hle & Hmin).
  split; [apply min_valid; trivial | ].
  split; [ | exact Hle].
  destruct Hmin as [-> | ->]; [exact H0 | reflexivity].
Qed.

(** ** Percentages *)

(** A fraction between 0 and 1 is a percentage between 0 and 100. *)
Lemma percentage (x : number) :
  valid x = true -> le c0 x = true -> le x c1 = true ->
  le c0 (mul x c100) = true /\ le (mul x c100) c100 = true.
Proof.
  intros Hv H0 H1.
  destruct x as [s | s | | s m e]; try discriminate.
  - destruct s; split; reflexivity.
  - destruct s; discriminate.
  - destruct s; try discriminate.
    assert (Hb : bounded prec emax m e = true) by exact Hv.
    split.
    + pose proof (round_aux_signed false (Zpos (m * 7036874417766400)) (e + -46)
                    loc_Exact (Pos2Z.is_nonneg _)
                    (mul_exponent m e 7036874417766400 (-46) Hb eq_refl)) as Hs.
      change c100 with (S754_finite false 7036874417766400 (-46)).
      rewrite mul_finite.
      destruct (binary_round_aux _ _ _ _ _ _) as [[] | [] | | [] m' e'];
        simpl in Hs; try discriminate; try contradiction; reflexivity.
    + apply (mul_above 7036874417766400 (-46)); trivial; try reflexivity.
      apply le_value in H1; [ | exact Hb | reflexivity].
      apply (dle_trans _ _ (4503599627370496 * 7036874417766400) (-52 + -46));
        [ | unfold dle; vm_compute; discriminate].
      apply dle_scale; [lia | exact H1].
Qed.

(** ** Integers as numbers *)

(** The canonical mantissa and exponent of a positive integer below
    [2^53]. *)
Definition canon (p : positive) : number :=
  S754_finite false (Z.to_pos (Zpos p * 2 ^ (53 - digits p))) (digits p - 53).

Lemma canon_spec (p : positive) :
  Zpos p < 2 ^ 53 ->
  Zpos (Z.to_pos (Zpos p * 2 ^ (53 - digits p))) = Zpos p * 2 ^ (53 - digits p)
  /\ bounded prec emax (Z.to_pos (Zpos p * 2 ^ (53 - digits p))) (digits p - 53)
     = true.
Proof.
  intros Hp.
  pose proof (digits_pos p) as Hd1.
  assert (Hd : digits p <= 53).
  { destruct (Z.le_gt_cases (digits p) 53) as [H | H]; trivial.
    pose proof (digits_bounds p) as [Hlo _].
    assert (2 ^ 53 <= 2 ^ (digits p - 1)) by (apply pow2_le; lia). lia. }
  assert (Hpow : 0 < 2 ^ (53 - digits p)) by (apply pow2_pos; lia).
  assert (Hm : Zpos (Z.to_pos (Zpos p * 2 ^ (53 - digits p)))
               = Zpos p * 2 ^ (53 - digits p)).
  { apply Z2Pos.id. apply Z.mul_pos_pos; [apply Pos2Z.is_pos | exact Hpow]. }
  split; [exact Hm | ].
  unfold bounded, canonical_mantissa.
  fold (digits (Z.to_pos (Zpos p * 2 ^ (53 - digits p)))).
  rewrite (digits_shift p _ (53 - digits p)) by (lia || exact Hm).
  apply andb_true_intro. split.
  - apply Z.eqb_eq.
    pose proof (fexp_eq (digits p + (53 - digits p) + (digits p - 53))) as Hf.
    unfold fexp in Hf. rewrite Hf. lia.
  - apply Z.leb_le. unfold emax, prec. lia.
Qed.

Lemma of_Z_canon (p : positive) :
  Zpos p < 2 ^ 53 ->
  le (of_Z (Zpos p)) (canon p) = true /\ le (canon p) (of_Z (Zpos p)) = true.
Proof.
  intros Hp. destruct (canon_spec p Hp) as (Hm & Hb).
  pose proof (digits_pos p) as Hd1.
  assert (Hd : digits p <= 53).
  { destruct (Z.le_gt_cases (digits p) 53) as [H | H]; trivial.
    pose proof (digits_bounds p) as [Hlo _].
    assert (2 ^ 53 <= 2 ^ (digits p - 1)) by (apply pow2_le; lia). lia. }
  change (of_Z (Zpos p)) with (binary_round prec emax false p 0).
  unfold canon. split.
  - apply binary_round_above; [exact Hb | ].
    apply (dle_at (digits p - 53)); [lia | lia | ].
    rewrite Hm, Z.sub_diag, Z.pow_0_r.
    replace (0 - (digits p - 53)) with (53 - digits p) by lia. lia.
  - apply binary_round_below; [exact Hb | ].
    apply (dle_at (digits p - 53)); [lia | lia | ].
    rewrite Hm, Z.sub_diag, Z.pow_0_r.
    replace (0 - (digits p - 53)) with (53 - digits p) by lia. lia.
Qed.

Lemma canon_le (p q : positive) :
  Zpos p < 2 ^ 53 -> Zpos q < 2 ^ 53 ->
  (le (canon p) (canon q) = true <-> Zpos p <= Zpos q).
Proof.
  intros Hp Hq.
  destruct (canon_spec p Hp) as (Hmp & Hbp).
  destruct (canon_spec q Hq) as (Hmq & Hbq).
  unfold canon. rewrite (le_value _ _ _ _ Hbp Hbq).
  rewrite Hmp, Hmq.
  pose proof (digits_pos p). pose proof (digits_pos q).
  assert (digits p <= 53 /\ digits q <= 53) as [Hdp Hdq].
  { split.
    - destruct (Z.le_gt_cases (digits p) 53) as [H' | H']; trivial.
      pose proof (digits_bounds p) as [Hlo _].
      assert (2 ^ 53 <= 2 ^ (digits p - 1)) by (apply pow2_le; lia). lia.
    - destruct (Z.le_gt_cases (digits q) 53) as [H' | H']; trivial.
      pose proof (digits_bounds q) as [Hlo _].
      assert (2 ^ 53 <= 2 ^ (digits q - 1)) by (apply pow2_le; lia). lia. }
  rewrite (dle_align _ _ _ _ (-53)) by lia.
  replace (digits p - 53 - -53) with (digits p) by lia.
  replace (digits q - 53 - -53) with (digits q) by lia.
  rewrite <- !Z.mul_assoc, <- !pow2_split by lia.
  replace (53 - digits p + digits p) with 53 by lia.
  replace (53 - digits q + digits q) with 53 by lia.
  assert (0 < 2 ^ 53) by (apply pow2_pos; lia).
  split; intros H'; [ | apply Z.mul_le_mono_nonneg_r; lia].
  apply Z.mul_le_mono_pos_r in H'; lia.
Qed.

(** Integers up to [2^53] are ordered as numbers the way they are as
    integers. *)
Lemma of_Z_le (a b : Z) :
  0 <= a < 2 ^ 53 -> 0 <= b < 2 ^ 53 ->
  (le (of_Z a) (of_Z b) = true <-> a <= b).
Proof.
  intros Ha Hb.
  destruct a as [ | p | p]; try lia; destruct b as [ | q | q]; try lia.
  - split; [lia | reflexivity].
  - split; [lia | intros _].
    destruct (of_Z_canon q) as [_ Hq]; [lia | ].
    apply (le_trans _ (canon q)); [reflexivity | exact Hq].
  - split; [ | lia]. intros H. exfalso.
    destruct (of_Z_canon p) as [_ Hp]; [lia | ].
    assert (H' : le (canon p) (S754_zero false) = true)
      by (eapply le_trans; eassumption).
    discriminate H'.
  - destruct (of_Z_canon p) as [Hp1 Hp2]; [lia | ].
    destruct (of_Z_canon q) as [Hq1 Hq2]; [lia | ].
    rewrite <- (canon_le p q) by lia.
    split; intros H.
    + apply (le_trans _ (of_Z (Zpos p))); [exact Hp2 | ].
      apply (le_trans _ (of_Z (Zpos q))); [exact H | exact Hq1].
    + apply (le_trans _ (canon p)); [exact Hp1 | ].
      apply (le_trans _ (canon q)); [exact H | exact Hq2].
Qed.

Lemma of_Z_not_NaN (a : Z) : isNaN (of_Z a) = false.
Proof.
  destruct a as [ | p | p]; [reflexivity | | ].
  - pose proof (binary_round_signed false p 0) as H.
    change (of_Z (Zpos p)) with (binary_round prec emax false p 0).
    destruct (binary_round prec emax false p 0); simpl in *; tauto.
  - pose proof (binary_round_signed true p 0) as H.
    change (of_Z (Zneg p)) with (binary_round prec emax true p 0).
    destruct (binary_round prec emax true p 0); simpl in *; tauto.
Qed.

Lemma of_Z_lt (a b : Z) :
  0 <= a < 2 ^ 53 -> 0 <= b < 2 ^ 53 ->
  (lt (of_Z a) (of_Z b) = true <-> a < b).
Proof.
  intros Ha Hb. split.
  - intros H. destruct (Z.lt_ge_cases a b) as [Hlt | Hge]; trivial.
    apply (of_Z_le b a) in Hge; trivial.
    apply le_lt_false in Hge. congruence.
  - intros Hlt.
    destruct (le (of_Z b) (of_Z a)) eqn:Hle.
    + apply (of_Z_le b a) in Hle; trivial. lia.
    + apply (not_le_gt (of_Z b) (of_Z a)); trivial; apply of_Z_not_NaN.
Qed.

(** ** Opposites *)

Lemma round_aux_neg (M E : Z) (l : location) :
  binary_round_aux prec emax true M E l
  = neg (binary_round_aux prec emax false M E l).
Proof.
  unfold binary_round_aux.
  destruct (shr_fexp prec emax M E l) as [mrs' e'].
  destruct (shr_fexp prec emax _ e' loc_Exact) as [mrs'' e''].
  destruct (shr_m mrs''); try reflexivity.
  destruct (e'' <=? emax - prec); reflexivity.
Qed.

Lemma binary_round_neg (m : positive) (e : Z) :
  binary_round prec emax true m e = neg (binary_round prec emax false m e).
Proof.
  unfold binary_round. destruct (shl_align m e _) as [mz ez].
  apply round_aux_neg.
Qed.

Lemma compare_neg (x y : number) : SFcompare (neg x) (neg y) = SFcompare y x.
Proof.
  rewrite (compare_swap x y).
  destruct x as [[] | [] | | [] mx ex], y as [[] | [] | | [] my ey];
    try reflexivity; simpl;
    destruct (ex ?= ey); try reflexivity;
    destruct (Pos.compare_cont Eq mx my); reflexivity.
Qed.



Lemma integer_positive (p : positive) :
  lt c0 (binary_round prec emax false p 0) = true
  /\ isNaN (binary_round prec emax false p 0) = false.
Proof.
  assert (H : le c1 (binary_round prec emax false p 0) = true).
  { apply binary_round_below; [reflexivity | ].
    apply (dle_at (-52)); [lia | lia | ].
    change (-52 - -52) with 0. change (0 - -52) with 52.
    change (Zpos 4503599627370496) with (1 * 2 ^ 52).
    rewrite Z.pow_0_r, Z.mul_1_r.
    apply Z.mul_le_mono_nonneg_r; [apply Z.pow_nonneg; lia | lia]. }
  split.
  - apply (lt_le_trans _ c1); [reflexivity | exact H].
  - destruct (binary_round prec emax false p 0); try discriminate H; reflexivity.
Qed.

Lemma le_neg (x y : number) : le (neg x) (neg y) = le y x.
Proof. unfold le, SFleb. now rewrite compare_neg. Qed.

Lemma div_neg (x y : number) :
  div (neg x) y = neg (div x y).
Proof.
  destruct x as [sx | sx | | sx mx ex], y as [sy | sy | | sy my ey];
    try reflexivity; try (destruct sx, sy; reflexivity).
  unfold div, SFdiv. cbn [neg SFopp].
  destruct (SFdiv_core_binary prec emax (Zpos mx) ex (Zpos my) ey) as [[q e'] l].
  destruct sx, sy; cbn [xorb negb];
    rewrite ?round_aux_neg; try reflexivity;
    destruct (binary_round_aux prec emax false q e' l) as [[] | [] | | [] ? ?];
    reflexivity.
Qed.

End NumberFacts.

(* ================================================================== *)
(** * The odds normaliser returns canonical numbers *)
(* ================================================================== *)


Module ParseFacts.

Import OddsConverter F64Order F64Round OddsFacts NumberFacts.
Local Open Scope Z_scope.

Lemma parseFloat_string_valid (input : string) :
  valid (parseFloat_string input) = true.
Proof.
  unfold parseFloat_string.
  destruct (scan_sign _) as [sg r].
  destruct (strip_prefix _ _); [reflexivity | ].
  destruct (scan_decimal r) as [[[mant ex] rest] | ]; [ | reflexivity].
  apply of_decimal_valid.
Qed.

Lemma signed_integer_valid (sg : bool) (n : Z) : valid (signed_integer sg n) = true.
Proof.
  destruct n; simpl; try reflexivity. apply binary_round_valid.
Qed.

Lemma parseInt_string_valid (input : string) :
  valid (parseInt_string input) = true.
Proof.
  unfold parseInt_string.
  destruct (scan_sign _) as [sg r].
  match goal with |- context [let '(_, _) := ?p in _] => destruct p as [radix r'] end.
  destruct (scan_digits radix r' 0 0) as [[n count] rest].
  destruct (count =? 0); [reflexivity | apply signed_integer_valid].
Qed.

Lemma Number_string_valid (input : string) :
  valid (Number_string input) = true.
Proof.
  unfold Number_string.
  assert (Hlit : forall radix r,
             valid (match scan_digits radix r 0 0 with
                    | (n, count, EmptyString) =>
                        if count =? 0 then NaN else signed_integer false n
                    | _ => NaN
                    end) = true).
  { intros radix r. destruct (scan_digits radix r 0 0) as [[n count] [ | c rest]];
      [ | reflexivity].
    destruct (count =? 0); [reflexivity | apply signed_integer_valid]. }
  assert (Hdec : forall sg s,
             valid (match scan_decimal s with
                    | Some (mant, ex, EmptyString) => of_decimal sg mant ex
                    | _ => NaN
                    end) = true).
  { intros sg s. destruct (scan_decimal s) as [[[mant ex] [ | c rest]] | ];
      try reflexivity. apply of_decimal_valid. }
  assert (Hsigned : forall s,
             valid (let '(sg, r) := scan_sign s in
                    match r with
                    | "Infinity"%string => S754_infinity sg
                    | _ =>
                        match scan_decimal r with
                        | Some (mant, ex, EmptyString) => of_decimal sg mant ex
                        | _ => NaN
                        end
                    end) = true).
  { intros s. destruct (scan_sign s) as [sg r].
    repeat match goal with
           | |- valid (match scan_decimal _ with _ => _ end) = true => apply Hdec
           | |- valid (S754_infinity _) = true => reflexivity
           | |- context [match ?x with EmptyString => _ | String _ _ => _ end] =>
               is_var x; destruct x
           | |- context [match ?x with Ascii _ _ _ _ _ _ _ _ => _ end] =>
               is_var x; destruct x
           | |- context [if ?b then _ else _] => is_var b; destruct b
           end. }
  destruct (trim input) as [ | c s]; [reflexivity | ].
  destruct c as [b0 b1 b2 b3 b4 b5 b6 b7].
  repeat match goal with
         | |- valid (let '(_, _) := scan_sign _ in _) = true => apply Hsigned
         | |- context [if ?b then _ else _] => is_var b; destruct b
         end.
  destruct s as [ | x r]; [apply Hsigned | ].
  repeat match goal with
         | |- context [if ?b then _ else _] => destruct b; [apply Hlit | ]
         end.
  apply Hdec.
Qed.

(** A completion that is a canonical binary64 number. *)
Definition returns_valid (c : completion number) : Prop :=
  exists d, c = Normal d /\ valid d = true.

Lemma c1_01_valid : returns_valid (Normal c1_01).
Proof. exists c1_01. split; reflexivity. Qed.

Lemma americanToDecimal_valid (x : number) :
  valid x = true -> returns_valid (americanToDecimal (VNum x)).
Proof.
  intros Hx. unfold americanToDecimal, returns_valid. cbn [ToNumber].
  assert (Hmax : forall y, valid y = true ->
            valid (Math_max (add (div y c100) c1) c1_01) = true).
  { intros y Hy. apply max_valid; [ | reflexivity].
    apply add_valid; [apply div_valid_any | reflexivity]. }
  assert (Hmax' : forall y,
            valid (Math_max (add (div c100 y) c1) c1_01) = true).
  { intros y. apply max_valid; [ | reflexivity].
    apply add_valid; [apply div_valid_any | reflexivity]. }
  destruct (gt x c0); [simpl; eauto | ].
  destruct (lt x c0); [ | simpl; eauto].
  destruct (lt _ c100); simpl; eauto.
Qed.

Lemma nth_number_valid (parts : list string) (i : nat) :
  valid (ToNumber (List.nth i (List.map (fun p => VNum (Number_string p)) parts)
                            VUndefined)) = true.
Proof.
  revert i. induction parts as [ | p parts IH]; intros [ | i]; simpl;
    try reflexivity.
  - apply Number_string_valid.
  - apply IH.
Qed.

Lemma fractionalToDecimal_valid (fractional : value) :
  returns_valid (fractionalToDecimal fractional).
Proof.
  unfold fractionalToDecimal, returns_valid, split_slash.
  destruct fractional; simpl; eauto.
  destruct (_ || _ || _); simpl; eauto.
  destruct (_ || _); simpl; eauto.
  eexists; split; [reflexivity | ].
  apply add_valid; [apply div_valid_any | reflexivity].
Qed.

Lemma impliedProbabilityToDecimal_valid (p : number) :
  valid (impliedProbabilityToDecimal p) = true.
Proof.
  unfold impliedProbabilityToDecimal.
  destruct (_ || _ || _); [reflexivity | apply div_valid_any].
Qed.

Lemma parseFloat_valid (v : value) : valid (parseFloat v) = true.
Proof. apply parseFloat_string_valid. Qed.

Lemma parseInt_valid (v : value) : valid (parseInt v) = true.
Proof. apply parseInt_string_valid. Qed.

(** Whatever it is given, [convertToDecimal] returns a canonical
    binary64 number, finite and at least 1.01. *)
Lemma convertToDecimal_valid (odds type : value) :
  exists d, convertToDecimal odds type = Normal d
            /\ valid d = true /\ isFinite d = true /\ ge d c1_01 = true.
Proof.
  destruct (convertToDecimal_floored odds type) as (d & Hd & Hfin & Hge).
  exists d. repeat split; trivial.
  revert Hd. unfold convertToDecimal.
  set (conv := if is_type type DECIMAL then _ else _).
  assert (Hconv : returns_valid conv).
  { subst conv.
    destruct (is_type type DECIMAL);
      [eexists; split; [reflexivity | apply parseFloat_valid] | ].
    destruct (is_type type AMERICAN);
      [apply americanToDecimal_valid, parseInt_valid | ].
    destruct (is_type type FRACTIONAL); [apply fractionalToDecimal_valid | ].
    destruct (is_type type IMPLIED);
      eexists; (split; [reflexivity | ]);
      [apply impliedProbabilityToDecimal_valid | apply parseFloat_valid]. }
  destruct Hconv as (result & -> & Hvalid). simpl.
  destruct (negb (isFinite result) || lt result c1_01); simpl;
    intros [= <-]; [reflexivity | assumption].
Qed.

End ParseFacts.

(* ================================================================== *)
(** * The chance of a win *)
(* ================================================================== *)


Module ProbabilityFacts.

Import OddsConverter Calculator F64Order F64Round F64Ops F64Div.
Import ProgressionFacts NumberFacts.
Local Open Scope Z_scope.

Definition tiny : number := S754_finite false 1 (-1074).
Definition tiny_100 : number := S754_finite false 100 (-1074).
Definition c127_128 : number := S754_finite false 8936830510563328 (-53).
Definition c12700_128 : number := S754_finite false 6981898836377600 (-46).

Ltac closed_dle := unfold dle; vm_compute; discriminate.

(** For decimal odds [d >= 1.01], [1/d] lies between the smallest
    positive number and 127/128. *)
Lemma reciprocal_bounds (d : number) :
  valid d = true -> isFinite d = true -> ge d c1_01 = true ->
  positive_finite d
  /\ le tiny (div c1 d) = true /\ le (div c1 d) c127_128 = true.
Proof.
  intros Hv Hfin Hge.
  assert (Hd : positive_finite d).
  { destruct (positive_of_le c1_01 d) as [H | ->]; trivial; [ | discriminate].
    eexists _, _. split; reflexivity. }
  split; [exact Hd | ].
  destruct Hd as (md & ed & -> & Hb).
  destruct (bounded_facts md ed Hb) as (_ & Hed & _ & Hmd & _).
  apply le_value in Hge; [ | reflexivity | exact Hb].
  split.
  - apply div_below; [reflexivity | ].
    apply (dle_at (-2148)); [lia | lia | ].
    replace (-1074 + ed - -2148) with (ed + 1074) by lia.
    replace (-52 - -2148) with (52 + 2044) by lia.
    assert (2 ^ (ed + 1074) <= 2 ^ 2045) by (apply pow2_le; lia).
    assert (0 < 2 ^ (ed + 1074)) by (apply pow2_pos; lia).
    change (Zpos 4503599627370496) with (2 ^ 52).
    rewrite Z.mul_1_l.
    apply (Z.le_trans _ (2 ^ 53 * 2 ^ 2045)).
    + apply Z.mul_le_mono_nonneg; lia.
    + rewrite <- !pow2_split by lia. apply pow2_le. lia.
  - apply div_above; [reflexivity | ].
    apply (dle_trans _ _ (8936830510563328 * 4548635623644201) (-53 + -52));
      [closed_dle | ].
    rewrite !(Z.mul_comm 8936830510563328), !(Z.add_comm (-53)).
    apply dle_scale; [lia | exact Hge].
Qed.

Lemma tiny_positive : positive_finite tiny.
Proof. eexists _, _. split; reflexivity. Qed.

Lemma c127_128_positive : positive_finite c127_128.
Proof. eexists _, _. split; reflexivity. Qed.

Lemma tiny_100_positive : positive_finite tiny_100.
Proof. eexists _, _. split; reflexivity. Qed.

Lemma c12700_128_positive : positive_finite c12700_128.
Proof. eexists _, _. split; reflexivity. Qed.

(** For decimal odds [d >= 1.01] the implied probability [(1/d) * 100]
    is a positive number not above 99.21875. *)
Lemma implied_bounds (d : number) :
  valid d = true -> isFinite d = true -> ge d c1_01 = true ->
  decimalToImpliedProbability d = mul (div c1 d) c100
  /\ positive_finite (decimalToImpliedProbability d)
  /\ le tiny_100 (decimalToImpliedProbability d) = true
  /\ le (decimalToImpliedProbability d) c12700_128 = true.
Proof.
  intros Hv Hfin Hge.
  destruct (reciprocal_bounds d Hv Hfin Hge) as (Hd & Hlo & Hhi).
  assert (Heq : decimalToImpliedProbability d = mul (div c1 d) c100).
  { unfold decimalToImpliedProbability.
    rewrite (le_lt_false c1_01 d Hge), Hfin. reflexivity. }
  rewrite Heq. split; [reflexivity | ].
  assert (Hq : positive_finite (div c1 d)).
  { apply (between tiny c127_128); trivial;
      [apply tiny_positive | apply c127_128_positive | apply div_valid_any]. }
  destruct Hq as (mq & eq & Hq & Hb). rewrite Hq in *.
  apply le_value in Hlo; [ | reflexivity | exact Hb].
  apply le_value in Hhi; [ | exact Hb | reflexivity].
  assert (Hup : le (mul (S754_finite false mq eq) c100) c12700_128 = true).
  { apply mul_above; trivial; try reflexivity.
    apply (dle_trans _ _ (8936830510563328 * 7036874417766400) (-53 + -46));
      [ | closed_dle].
    apply dle_scale; [lia | exact Hhi]. }
  assert (Hdown : le tiny_100 (mul (S754_finite false mq eq) c100) = true).
  { apply mul_below; trivial; try reflexivity.
    apply (dle_trans _ _ (1 * 7036874417766400) (-1074 + -46));
      [closed_dle | ].
    apply dle_scale; [lia | exact Hlo]. }
  repeat split; trivial.
  apply (between tiny_100 c12700_128); trivial;
    [apply tiny_100_positive | apply c12700_128_positive | ].
  apply mul_valid; [exact Hb | reflexivity].
Qed.

(** The chance of a win the calculator derives from decimal odds
    [d >= 1.01] is a number above 0 and below 1. *)
Lemma win_probability_bounds (d : number) :
  valid d = true -> isFinite d = true -> ge d c1_01 = true ->
  positive_finite (div (decimalToImpliedProbability d) c100)
  /\ le (div (decimalToImpliedProbability d) c100) c127_128 = true.
Proof.
  intros Hv Hfin Hge.
  destruct (implied_bounds d Hv Hfin Hge) as (_ & Hp & Hlo & Hhi).
  destruct Hp as (mp & ep & Hp & Hb). rewrite Hp in *.
  apply le_value in Hlo; [ | reflexivity | exact Hb].
  apply le_value in Hhi; [ | exact Hb | reflexivity].
  assert (Hup : le (div (S754_finite false mp ep) c100) c127_128 = true).
  { apply div_above; [reflexivity | ].
    apply (dle_trans _ _ 6981898836377600 (-46)); [exact Hhi | closed_dle]. }
  assert (Hdown : le tiny (div (S754_finite false mp ep) c100) = true).
  { apply div_below; [reflexivity | ].
    apply (dle_trans _ _ 100 (-1074)); [closed_dle | exact Hlo]. }
  split; [ | exact Hup].
  apply (between tiny c127_128); trivial;
    [apply tiny_positive | apply c127_128_positive | apply div_valid_any].
Qed.

Lemma win_probability_valid (d : number) :
  valid d = true -> isFinite d = true -> ge d c1_01 = true ->
  valid_probability (div (decimalToImpliedProbability d) c100) = true.
Proof.
  intros Hv Hfin Hge.
  destruct (win_probability_bounds d Hv Hfin Hge) as (Hp & Hup).
  unfold valid_probability.
  rewrite (positive_finite_isFinite _ Hp), (positive_finite_gt_0 _ Hp).
  simpl. apply (le_lt_trans _ c127_128); [exact Hup | reflexivity].
Qed.

(** X1.  For canonical decimal odds that are finite and at least 1.01,
    [decimalToImpliedProbability] returns a finite percentage strictly
    between 0 and 100; for odds below 1.01 or not finite it returns 0. *)
Theorem implied_probability_range (d : number) :
  valid d = true ->
  (isFinite d = true -> ge d c1_01 = true ->
   isFinite (decimalToImpliedProbability d) = true
   /\ gt (decimalToImpliedProbability d) c0 = true
   /\ lt (decimalToImpliedProbability d) c100 = true)
  /\ (isFinite d = false \/ lt d c1_01 = true ->
      decimalToImpliedProbability d = c0).
Proof.
  intros Hv. split.
  - intros Hfin Hge.
    destruct (implied_bounds d Hv Hfin Hge) as (_ & Hp & _ & Hup).
    split; [now apply positive_finite_isFinite | ].
    split; [now apply positive_finite_gt_0 | ].
    apply (le_lt_trans _ c12700_128); [exact Hup | reflexivity].
  - unfold decimalToImpliedProbability.
    intros [Hinf | Hlt]; [rewrite Hinf | rewrite Hlt]; simpl;
      [destruct (lt d c1_01) | ]; reflexivity.
Qed.

Lemma implied_probability_range_witness :
  valid c2 = true
  /\ isFinite (decimalToImpliedProbability c2) = true
  /\ gt (decimalToImpliedProbability c2) c0 = true
  /\ lt (decimalToImpliedProbability c2) c100 = true.
Proof.
  split; [reflexivity | ].
  apply (proj1 (implied_probability_range c2 eq_refl)); reflexivity.
Defined.

End ProbabilityFacts.

(* ================================================================== *)
(** * What the progression engine accepts and rejects *)
(* ================================================================== *)


Module EngineFacts.

Import OddsConverter Calculator F64Order OddsFacts ProgressionFacts.
Import NumberFacts ParseFacts ProbabilityFacts.
Local Open Scope string_scope.
Local Open Scope Z_scope.

(** The message of the first validation of
    [calculateMartingaleProgression] that a configuration object
    fails. *)
Definition rejection (cfg : Config) : option string :=
  match positive_number (baseBet cfg) with
  | None => Some "Base bet must be a positive number"
  | Some _ =>
      match positive_number (bankroll cfg) with
      | None => Some "Bankroll must be a positive number"
      | Some _ =>
          if negb (number_or_string (odds cfg)) then
            Some "Odds must be a number or string"
          else if negb (recognized (oddsType cfg)) then
            Some "Invalid odds type"
          else None
      end
  end.

Definition rounds_limit (cfg : Config) : Z :=
  match maxRounds cfg with
  | Some n => n
  | None => 20
  end.

Lemma normalized_odds_spec (cfg : Config) :
  convertToDecimal (odds cfg) (oddsType cfg) = Normal (normalized_odds cfg)
  /\ valid (normalized_odds cfg) = true
  /\ isFinite (normalized_odds cfg) = true
  /\ ge (normalized_odds cfg) c1_01 = true.
Proof.
  unfold normalized_odds.
  destruct (convertToDecimal_valid (odds cfg) (oddsType cfg))
    as (d & -> & Hv & Hfin & Hge).
  auto.
Qed.

Lemma win_probability_of_config (cfg : Config) :
  valid_probability (win_probability cfg) = true.
Proof.
  destruct (normalized_odds_spec cfg) as (_ & Hv & Hfin & Hge).
  now apply win_probability_valid.
Qed.

Lemma accepted_config (cfg : Config) :
  rejection cfg = None ->
  exists b k, valid_config cfg b k.
Proof.
  unfold rejection.
  destruct (positive_number (baseBet cfg)) as [b | ] eqn:Hb; [ | discriminate].
  destruct (positive_number (bankroll cfg)) as [k | ] eqn:Hk; [ | discriminate].
  destruct (number_or_string (odds cfg)) eqn:Ho; [ | discriminate].
  destruct (recognized (oddsType cfg)) eqn:Ht; [ | discriminate].
  intros _. exists b, k.
  split; trivial. apply win_probability_of_config.
Qed.

Lemma progression_of_accepted
    (Math_pow : number -> number -> number) (cfg : Config) :
  rejection cfg = None ->
  exists r,
    calculateMartingaleProgression Math_pow (Some cfg) = Normal r
    /\ Z.of_nat (List.length (Results.progression r)) <= Z.max 0 (rounds_limit cfg)
    /\ decimalOdds (Results.config r) = normalized_odds cfg.
Proof.
  intros Hacc. destruct (accepted_config cfg Hacc) as (b & k & Hvalid).
  rewrite (progression_of_valid Math_pow cfg b k Hvalid).
  fold (rounds_limit cfg).
  destruct (loop_ends (normalized_odds cfg) (rounds_limit cfg) (targetProfit cfg)
              (maxTableLimit cfg)
              (match betMultiplier cfg with Some m => m | None => c2 end)
              (S (Z.to_nat (rounds_limit cfg))) (initial_state b k))
    as (final & Hfinal & Hlen).
  { unfold remaining. simpl. lia. }
  rewrite Hfinal. cbn [bind].
  eexists. split; [reflexivity | ].
  cbn [Results.progression Results.config decimalOdds].
  split; [ | reflexivity].
  unfold remaining in Hlen. simpl in Hlen. lia.
Qed.

Lemma progression_of_rejected
    (Math_pow : number -> number -> number) (cfg : Config) (message : string) :
  rejection cfg = Some message ->
  calculateMartingaleProgression Math_pow (Some cfg) = Throw (JsError message).
Proof.
  unfold rejection, calculateMartingaleProgression.
  destruct (positive_number (baseBet cfg)); [ | now intros [= <-]].
  destruct (positive_number (bankroll cfg)); [ | now intros [= <-]].
  destruct (negb (number_or_string (odds cfg))); [now intros [= <-] | ].
  destruct (negb (recognized (oddsType cfg))); [now intros [= <-] | ].
  discriminate.
Qed.

(** X2.  Whatever the configuration, [calculateMartingaleProgression]
    does not raise its "Invalid probability calculation" error: the odds
    have been floored at 1.01, which keeps the chance of a win
    strictly between 0 and 1. *)
Theorem invalid_probability_unreachable
    (Math_pow : number -> number -> number) (config : option Config) :
  calculateMartingaleProgression Math_pow config
  <> Throw (JsError "Invalid probability calculation").
Proof.
  destruct config as [cfg | ]; [ | discriminate].
  destruct (rejection cfg) as [message | ] eqn:Hrej.
  - rewrite (progression_of_rejected Math_pow cfg message Hrej).
    unfold rejection in Hrej.
    destruct (positive_number (baseBet cfg)); [ | injection Hrej as <-; discriminate].
    destruct (positive_number (bankroll cfg)); [ | injection Hrej as <-; discriminate].
    destruct (negb (number_or_string (odds cfg))); [injection Hrej as <-; discriminate | ].
    destruct (negb (recognized (oddsType cfg))); [injection Hrej as <-; discriminate | ].
    discriminate Hrej.
  - destruct (progression_of_accepted Math_pow cfg Hrej) as (r & -> & _).
    discriminate.
Qed.


End EngineFacts.

(* ================================================================== *)
(** * The ledger of a progression *)
(* ================================================================== *)


Module LedgerFacts.

Import OddsConverter Calculator F64Order OddsFacts ProgressionFacts.
Import MonotoneFacts SimulatorFacts EngineFacts.
Local Open Scope string_scope.
Local Open Scope Z_scope.

Section Rounds.

Variables (decimalOdds : number) (maxRounds : Z).
Variables (targetProfit maxTableLimit : option number).
Variable betMultiplier : number.

Let body := loop_body decimalOdds maxRounds targetProfit maxTableLimit
                      betMultiplier.
Let loop fuel := progression_loop fuel decimalOdds maxRounds targetProfit
                                  maxTableLimit betMultiplier.

(** The three tests that end the loop before a round is recorded. *)
Definition stops (s : LoopState) : bool :=
  negb (st_round s <=? maxRounds)
  || gt (st_currentBet s) (st_remainingBankroll s)
  || (given maxTableLimit && gt (st_currentBet s) (or_zero maxTableLimit)).

(** The round a pass through the loop records. *)
Definition round_of (s : LoopState) : Round.t :=
  let currentBet := st_currentBet s in
  let payout := calculatePayout currentBet decimalOdds in
  let totalLoss := add (st_totalLoss s) currentBet in
  let netProfitIfWin := sub (profit payout) (sub totalLoss currentBet) in
  {| Round.round := st_round s;
     Round.betAmount := currentBet;
     Round.cumulativeLoss := sub totalLoss currentBet;
     Round.totalWagered := add (st_totalWagered s) currentBet;
     Round.potentialWin := profit payout;
     Round.netProfitIfWin := netProfitIfWin;
     Round.totalReturnIfWin := totalReturn payout;
     Round.remainingBankroll := sub (st_remainingBankroll s) currentBet;
     Round.breakeven := ge netProfitIfWin c0;
     Round.targetMet :=
       if given targetProfit
       then ge netProfitIfWin (or_zero targetProfit)
       else gt netProfitIfWin c0 |}.

(** The variables after that pass, with the next bet and round
    number. *)
Definition pushed (s : LoopState) (bet : number) (round : Z) : LoopState :=
  {| st_progression := st_progression s ++ [round_of s];
     st_currentBet := bet;
     st_totalLoss := add (st_totalLoss s) (st_currentBet s);
     st_totalWagered := add (st_totalWagered s) (st_currentBet s);
     st_round := round;
     st_remainingBankroll := sub (st_remainingBankroll s) (st_currentBet s) |}.

Definition target_reached (s : LoopState) : bool :=
  given targetProfit
  && ge (Round.netProfitIfWin (round_of s)) (or_zero targetProfit).

Lemma body_eq (s : LoopState) :
  body s =
  if stops s then inl s
  else if target_reached s then inl (pushed s (st_currentBet s) (st_round s))
  else inr (pushed s (mul (st_currentBet s) betMultiplier) (st_round s + 1)).
Proof.
  unfold body, loop_body, stops, target_reached.
  destruct (negb (st_round s <=? maxRounds)); [reflexivity | ].
  destruct (gt (st_currentBet s) (st_remainingBankroll s)); [reflexivity | ].
  destruct (given maxTableLimit && gt (st_currentBet s) (or_zero maxTableLimit));
    reflexivity.
Qed.

(** An invariant of the loop holds of its final state. *)
Lemma loop_rule (I P : LoopState -> Prop) :
  (forall s, I s -> stops s = true -> P s) ->
  (forall s, I s -> stops s = false -> target_reached s = true ->
             P (pushed s (st_currentBet s) (st_round s))) ->
  (forall s, I s -> stops s = false -> target_reached s = false ->
             I (pushed s (mul (st_currentBet s) betMultiplier) (st_round s + 1))) ->
  forall fuel s final, I s -> loop fuel s = Normal final -> P final.
Proof.
  intros Hstop Hreach Hnext.
  induction fuel as [ | fuel IH]; intros s final Hs; [discriminate | ].
  cbn [loop progression_loop]. fold body. rewrite body_eq.
  destruct (stops s) eqn:Hst.
  - intros [= <-]. now apply Hstop.
  - destruct (target_reached s) eqn:Htr.
    + intros [= <-]. now apply Hreach.
    + apply IH. now apply Hnext.
Qed.

(** ** The ledger the loop writes *)

(** A relation between each round and the next. *)
Fixpoint adjacent (R : Round.t -> Round.t -> Prop) (rounds : list Round.t)
  : Prop :=
  match rounds with
  | r1 :: rest =>
      match rest with
      | r2 :: _ => R r1 r2
      | [] => True
      end /\ adjacent R rest
  | [] => True
  end.

Lemma adjacent_push (R : Round.t -> Round.t -> Prop) (rounds : list Round.t)
    (r : Round.t) :
  adjacent R rounds ->
  (forall p, last_round rounds = Some p -> R p r) ->
  adjacent R (rounds ++ [r]).
Proof.
  induction rounds as [ | r1 rest IH]; intros Hadj Hlast; simpl.
  - auto.
  - destruct Hadj as [Hhead Htail]. split.
    + destruct rest as [ | r2 rest']; simpl; [ | exact Hhead].
      apply Hlast. reflexivity.
    + apply IH; [exact Htail | ].
      intros p Hp. apply Hlast.
      destruct rest; [discriminate Hp | exact Hp].
Qed.

Lemma last_round_nil : last_round [] = None.
Proof. reflexivity. Qed.

Lemma last_round_none (rounds : list Round.t) :
  last_round rounds = None -> rounds = [].
Proof.
  destruct rounds as [ | r rest] using rev_ind; [reflexivity | ].
  rewrite last_round_push. discriminate.
Qed.

(** The first round stakes the base bet out of the whole bankroll. *)
Definition opening (b k : number) (r : Round.t) : Prop :=
  Round.betAmount r = b
  /\ Round.totalWagered r = add c0 b
  /\ Round.remainingBankroll r = sub k b.

(** Each later round multiplies the bet and carries the totals on. *)
Definition follows (r1 r2 : Round.t) : Prop :=
  Round.betAmount r2 = mul (Round.betAmount r1) betMultiplier
  /\ Round.totalWagered r2 = add (Round.totalWagered r1) (Round.betAmount r2)
  /\ Round.remainingBankroll r2
     = sub (Round.remainingBankroll r1) (Round.betAmount r2).

(** The columns of a round that are computed from its other columns. *)
Definition settled (r : Round.t) : Prop :=
  Round.cumulativeLoss r = sub (Round.totalWagered r) (Round.betAmount r)
  /\ Round.totalReturnIfWin r = mul (Round.betAmount r) decimalOdds
  /\ Round.potentialWin r
     = sub (Round.totalReturnIfWin r) (Round.betAmount r)
  /\ Round.netProfitIfWin r
     = sub (Round.potentialWin r) (Round.cumulativeLoss r)
  /\ Round.breakeven r = ge (Round.netProfitIfWin r) c0
  /\ Round.targetMet r
     = if given targetProfit
       then ge (Round.netProfitIfWin r) (or_zero targetProfit)
       else gt (Round.netProfitIfWin r) c0.

(** A bet the loop let through: not above what was left of the
    bankroll, nor above the table limit when there is one. *)
Definition within_limit (r : Round.t) : Prop :=
  given maxTableLimit = true ->
  gt (Round.betAmount r) (or_zero maxTableLimit) = false.

Definition numbers (n : nat) : list Z := List.map Z.of_nat (List.seq 1 n).

Record ledger (b k : number) (rounds : list Round.t) : Prop := {
  ledger_numbers :
    List.map Round.round rounds = numbers (List.length rounds);
  ledger_length : Z.of_nat (List.length rounds) <= Z.max 0 maxRounds;
  ledger_opening : forall r rest, rounds = r :: rest -> opening b k r;
  ledger_follows : adjacent follows rounds;
  ledger_settled : Forall settled rounds;
  ledger_afforded_first :
    forall r rest, rounds = r :: rest -> gt (Round.betAmount r) k = false;
  ledger_afforded :
    adjacent (fun r1 r2 =>
                gt (Round.betAmount r2) (Round.remainingBankroll r1) = false)
             rounds;
  ledger_limit : Forall within_limit rounds;
  ledger_target :
    Forall (fun r => given targetProfit
                     && ge (Round.netProfitIfWin r) (or_zero targetProfit)
                     = false)
           (List.removelast rounds)
}.

(** What the loop keeps true of its variables. *)
Record history (b k : number) (s : LoopState) : Prop := {
  history_loss : st_totalLoss s = st_totalWagered s;
  history_round : st_round s = Z.of_nat (List.length (st_progression s)) + 1;
  history_last :
    match last_round (st_progression s) with
    | None =>
        st_currentBet s = b /\ st_totalWagered s = c0
        /\ st_remainingBankroll s = k
    | Some p =>
        st_currentBet s = mul (Round.betAmount p) betMultiplier
        /\ st_totalWagered s = Round.totalWagered p
        /\ st_remainingBankroll s = Round.remainingBankroll p
    end;
  history_ledger : ledger b k (st_progression s);
  history_target :
    Forall (fun r => given targetProfit
                     && ge (Round.netProfitIfWin r) (or_zero targetProfit)
                     = false)
           (st_progression s)
}.

Lemma numbers_push (n : nat) : numbers (S n) = (numbers n ++ [Z.of_nat n + 1])%list.
Proof.
  unfold numbers. rewrite seq_S, map_app. simpl. f_equal. f_equal. lia.
Qed.

Lemma initial_history (b k : number) : history b k (initial_state b k).
Proof.
  split; simpl; auto.
  split; simpl; try constructor; try discriminate; try lia.
Qed.

Lemma forall_removelast {A : Type} (Q : A -> Prop) (l : list A) :
  Forall Q l -> Forall Q (List.removelast l).
Proof.
  induction 1 as [ | x l Hx Hl IH]; simpl; [constructor | ].
  destruct l; [constructor | ]. constructor; assumption.
Qed.

(** Recording a round keeps the ledger a ledger. *)
Lemma ledger_push (b k : number) (s : LoopState) :
  history b k s -> stops s = false ->
  ledger b k (st_progression s ++ [round_of s]).
Proof.
  intros [Hloss Hround Hlast [Hnum Hlen Hopen Hfol Hset Haff1 Haff Hlim Htar] Hall]
         Hstop.
  unfold stops in Hstop.
  apply orb_false_iff in Hstop. destruct Hstop as [Hstop Htable].
  apply orb_false_iff in Hstop. destruct Hstop as [Hmax Hbet].
  apply negb_false_iff, Z.leb_le in Hmax.
  split.
  - rewrite map_app, length_app, Nat.add_comm. simpl List.length.
    rewrite numbers_push, Hnum. simpl. now rewrite Hround.
  - rewrite length_app. simpl. lia.
  - intros r rest Heq.
    destruct (st_progression s) as [ | r0 rest0] eqn:Hp.
    + injection Heq as <- <-. simpl in Hlast.
      destruct Hlast as (Hb & Hw & Hk).
      unfold opening, round_of; simpl. rewrite Hb, Hw, Hk. auto.
    + injection Heq as <- _. now apply (Hopen r0 rest0).
  - apply adjacent_push; [exact Hfol | ].
    intros p Hp. rewrite Hp in Hlast. destruct Hlast as (Hb & Hw & Hk).
    unfold follows, round_of; simpl. rewrite Hw, Hk. auto.
  - apply Forall_app. split; [exact Hset | ].
    constructor; [ | constructor].
    unfold settled, round_of, calculatePayout; simpl.
    rewrite Hloss. repeat split.
  - intros r rest Heq.
    destruct (st_progression s) as [ | r0 rest0] eqn:Hp.
    + injection Heq as <- <-. simpl in Hlast.
      destruct Hlast as (Hb & Hw & Hk).
      unfold round_of; simpl. now rewrite <- Hk.
    + injection Heq as <- _. now apply (Haff1 r0 rest0).
  - apply adjacent_push; [exact Haff | ].
    intros p Hp. rewrite Hp in Hlast. destruct Hlast as (Hb & Hw & Hk).
    unfold round_of; simpl. now rewrite <- Hk.
  - apply Forall_app. split; [exact Hlim | ].
    constructor; [ | constructor].
    intros Hgiven. rewrite Hgiven in Htable. exact Htable.
  - rewrite removelast_last. exact Hall.
Qed.

Lemma loop_ledger (b k : number) (fuel : nat) (s final : LoopState) :
  history b k s -> loop fuel s = Normal final ->
  ledger b k (st_progression final).
Proof.
  revert fuel s final.
  apply (loop_rule (history b k) (fun final => ledger b k (st_progression final))).
  - intros s Hs _. apply (history_ledger _ _ _ Hs).
  - intros s Hs Hstop _. simpl. now apply ledger_push.
  - intros s Hs Hstop Hreach.
    pose proof (ledger_push b k s Hs Hstop) as Hledger.
    destruct Hs as [Hloss Hround Hlast _ Hall].
    split; simpl.
    + now rewrite Hloss.
    + rewrite length_app. simpl. lia.
    + rewrite last_round_push. unfold round_of; simpl. auto.
    + exact Hledger.
    + apply Forall_app. split; [exact Hall | ].
      constructor; [exact Hreach | constructor].
Qed.

End Rounds.

(** ** The ledger of a result *)

Definition ledger_of (cfg : Config) (b k : number) (rounds : list Round.t)
  : Prop :=
  ledger (normalized_odds cfg) (rounds_limit cfg) (targetProfit cfg)
         (maxTableLimit cfg) (multiplier cfg) b k rounds.

Lemma ledger_of_valid
    (Math_pow : number -> number -> number) (cfg : Config) (b k : number) :
  valid_config cfg b k ->
  exists r,
    calculateMartingaleProgression Math_pow (Some cfg) = Normal r
    /\ ledger_of cfg b k (Results.progression r)
    /\ (Results.progression r = []
        <-> stops (rounds_limit cfg) (maxTableLimit cfg) (initial_state b k)
            = true).
Proof.
  intros Hvalid.
  rewrite (progression_of_valid Math_pow cfg b k Hvalid).
  fold (rounds_limit cfg). fold (multiplier cfg).
  destruct (loop_ends (normalized_odds cfg) (rounds_limit cfg) (targetProfit cfg)
              (maxTableLimit cfg) (multiplier cfg)
              (S (Z.to_nat (rounds_limit cfg))) (initial_state b k))
    as (final & Hfinal & _).
  { unfold remaining. simpl. lia. }
  rewrite Hfinal. cbn [bind].
  eexists. split; [reflexivity | ]. cbn [Results.progression].
  split.
  - apply (loop_ledger _ _ _ _ _ b k _ _ _ (initial_history _ _ _ _ _ b k) Hfinal).
  - cbn [progression_loop] in Hfinal. rewrite body_eq in Hfinal.
    destruct (stops _ _ (initial_state b k)) eqn:Hstop.
    + injection Hfinal as <-. split; reflexivity.
    + split; [ | discriminate]. intros Hnil. exfalso.
      assert (Hgrow : forall fuel s final',
                 (1 <= List.length (st_progression s))%nat ->
                 progression_loop fuel (normalized_odds cfg) (rounds_limit cfg)
                   (targetProfit cfg) (maxTableLimit cfg) (multiplier cfg) s
                 = Normal final' ->
                 (1 <= List.length (st_progression final'))%nat).
      { apply (loop_rule _ _ _ _ _
                 (fun s => (1 <= List.length (st_progression s))%nat)
                 (fun s => (1 <= List.length (st_progression s))%nat));
          intros s Hs; intros; simpl; try rewrite length_app; simpl; lia. }
      destruct (target_reached _ _ (initial_state b k)).
      * injection Hfinal as <-. simpl in Hnil. discriminate Hnil.
      * apply Hgrow in Hfinal; [ | simpl; lia].
        rewrite Hnil in Hfinal. simpl in Hfinal. lia.
Qed.

Lemma adjacent_weaken (R R' : Round.t -> Round.t -> Prop) (rounds : list Round.t) :
  (forall r1 r2, R r1 r2 -> R' r1 r2) -> adjacent R rounds -> adjacent R' rounds.
Proof.
  intros Himp. induction rounds as [ | r1 rest IH]; simpl; [trivial | ].
  intros [Hhead Htail]. split; [ | now apply IH].
  destruct rest; [trivial | now apply Himp].
Qed.

(** X4.  The rounds of a progression are numbered 1, 2, 3, ... in
    order; the first bet is the base bet and every later bet is the bet
    before it times the multiplier (as binary64 products). *)
Theorem bets_multiply
    (Math_pow : number -> number -> number) (cfg : Config) (b k : number) :
  valid_config cfg b k ->
  exists r,
    calculateMartingaleProgression Math_pow (Some cfg) = Normal r
    /\ List.map Round.round (Results.progression r)
       = numbers (List.length (Results.progression r))
    /\ (forall first rest,
          Results.progression r = first :: rest -> Round.betAmount first = b)
    /\ adjacent (fun r1 r2 =>
                   Round.betAmount r2
                   = mul (Round.betAmount r1) (multiplier cfg))
                (Results.progression r).
Proof.
  intros Hvalid.
  destruct (ledger_of_valid Math_pow cfg b k Hvalid) as (r & Hr & Hledger & _).
  exists r. split; [exact Hr | ].
  destruct Hledger as [Hnum _ Hopen Hfol _ _ _ _ _].
  split; [exact Hnum | ]. split.
  - intros first rest Heq. apply (Hopen first rest Heq).
  - revert Hfol. apply adjacent_weaken. intros r1 r2 H. apply H.
Qed.

Lemma bets_multiply_witness :
  exists r,
    calculateMartingaleProgression power_by_multiplication (Some scenario1)
    = Normal r
    /\ List.map Round.round (Results.progression r)
       = numbers (List.length (Results.progression r))
    /\ (forall first rest,
          Results.progression r = first :: rest
          -> Round.betAmount first = of_Z 10)
    /\ adjacent (fun r1 r2 =>
                   Round.betAmount r2
                   = mul (Round.betAmount r1) (multiplier scenario1))
                (Results.progression r).
Proof.
  apply (bets_multiply power_by_multiplication scenario1 (of_Z 10) (of_Z 1000)).
  exact scenario1_valid.
Defined.

(** The totals a round carries on from the round before it. *)
Definition carried (r1 r2 : Round.t) : Prop :=
  Round.totalWagered r2 = add (Round.totalWagered r1) (Round.betAmount r2)
  /\ Round.remainingBankroll r2
     = sub (Round.remainingBankroll r1) (Round.betAmount r2).

(** X5.  The totals of a progression accumulate: the first round
    wagers the base bet out of the bankroll, every later round adds its
    bet to the total wagered and takes it from the remaining bankroll;
    and in every round the cumulative loss is the total wagered less
    the bet, the potential win is the total return less the bet, the
    net profit is the potential win less the cumulative loss, and the
    two flags are the comparisons of the net profit the code makes. *)
Theorem totals_accumulate
    (Math_pow : number -> number -> number) (cfg : Config) (b k : number) :
  valid_config cfg b k ->
  exists r,
    calculateMartingaleProgression Math_pow (Some cfg) = Normal r
    /\ (forall first rest,
          Results.progression r = first :: rest ->
          Round.totalWagered first = add c0 b
          /\ Round.remainingBankroll first = sub k b)
    /\ adjacent carried (Results.progression r)
    /\ Forall (settled (normalized_odds cfg) (targetProfit cfg))
              (Results.progression r).
Proof.
  intros Hvalid.
  destruct (ledger_of_valid Math_pow cfg b k Hvalid) as (r & Hr & Hledger & _).
  exists r. split; [exact Hr | ].
  destruct Hledger as [_ _ Hopen Hfol Hset _ _ _ _].
  split; [ | split; [ | exact Hset]].
  - intros first rest Heq. apply (Hopen first rest Heq).
  - revert Hfol. apply adjacent_weaken. intros r1 r2 H. apply H.
Qed.

Lemma totals_accumulate_witness :
  exists r,
    calculateMartingaleProgression power_by_multiplication (Some scenario1)
    = Normal r
    /\ (forall first rest,
          Results.progression r = first :: rest ->
          Round.totalWagered first = add c0 (of_Z 10)
          /\ Round.remainingBankroll first = sub (of_Z 1000) (of_Z 10))
    /\ adjacent carried (Results.progression r)
    /\ Forall (settled (normalized_odds scenario1) (targetProfit scenario1))
              (Results.progression r).
Proof.
  apply (totals_accumulate power_by_multiplication scenario1 (of_Z 10) (of_Z 1000)).
  exact scenario1_valid.
Defined.

(** X6.  No bet of a progression exceeds what is left of the bankroll
    when it is placed (the bankroll for the first bet, the remaining
    bankroll of the round before for the others), and none exceeds the
    table limit when one is set. *)
Theorem bets_within_limits
    (Math_pow : number -> number -> number) (cfg : Config) (b k : number) :
  valid_config cfg b k ->
  exists r,
    calculateMartingaleProgression Math_pow (Some cfg) = Normal r
    /\ (forall first rest,
          Results.progression r = first :: rest ->
          gt (Round.betAmount first) k = false)
    /\ adjacent (fun r1 r2 =>
                   gt (Round.betAmount r2) (Round.remainingBankroll r1) = false)
                (Results.progression r)
    /\ (forall limit,
          maxTableLimit cfg = Some limit -> truthy limit = true ->
          Forall (fun round => gt (Round.betAmount round) limit = false)
                 (Results.progression r)).
Proof.
  intros Hvalid.
  destruct (ledger_of_valid Math_pow cfg b k Hvalid) as (r & Hr & Hledger & _).
  exists r. split; [exact Hr | ].
  destruct Hledger as [_ _ _ _ _ Haff1 Haff Hlim _].
  split; [exact Haff1 | ]. split; [exact Haff | ].
  intros limit Hlimit Htruthy.
  revert Hlim. apply Forall_impl. intros round Hround.
  unfold within_limit in Hround. rewrite Hlimit in Hround.
  apply Hround. exact Htruthy.
Qed.

Definition capped : Config :=
  {| baseBet := VNum (of_Z 10);
     bankroll := VNum (of_Z 1000);
     odds := VStr "2.00";
     oddsType := VStr DECIMAL;
     maxRounds := Some 10;
     targetProfit := Some (of_Z 10);
     betMultiplier := Some c2;
     maxTableLimit := Some (of_Z 50) |}.

Lemma capped_valid : valid_config capped (of_Z 10) (of_Z 1000).
Proof. constructor; vm_compute; reflexivity. Defined.

Lemma bets_within_limits_witness :
  exists r,
    calculateMartingaleProgression power_by_multiplication (Some capped)
    = Normal r
    /\ (forall first rest,
          Results.progression r = first :: rest ->
          gt (Round.betAmount first) (of_Z 1000) = false)
    /\ adjacent (fun r1 r2 =>
                   gt (Round.betAmount r2) (Round.remainingBankroll r1) = false)
                (Results.progression r)
    /\ (forall limit,
          maxTableLimit capped = Some limit -> truthy limit = true ->
          Forall (fun round => gt (Round.betAmount round) limit = false)
                 (Results.progression r)).
Proof.
  apply (bets_within_limits power_by_multiplication capped (of_Z 10) (of_Z 1000)).
  exact capped_valid.
Defined.

(** X7.  With a target profit set, the progression stops at the first
    round that meets it: no round but the last has [targetMet]. *)
Theorem stops_at_target
    (Math_pow : number -> number -> number) (cfg : Config) (b k : number) :
  valid_config cfg b k ->
  given (targetProfit cfg) = true ->
  exists r,
    calculateMartingaleProgression Math_pow (Some cfg) = Normal r
    /\ Forall (fun round => Round.targetMet round = false)
              (List.removelast (Results.progression r)).
Proof.
  intros Hvalid Hgiven.
  destruct (ledger_of_valid Math_pow cfg b k Hvalid) as (r & Hr & Hledger & _).
  exists r. split; [exact Hr | ].
  destruct Hledger as [_ _ _ _ Hset _ _ _ Htar].
  apply forall_removelast in Hset.
  rewrite Forall_forall in *. intros round Hin.
  destruct (Hset round Hin) as (_ & _ & _ & _ & _ & Hmet).
  specialize (Htar round Hin). rewrite Hgiven in *. simpl in Htar.
  congruence.
Qed.

Lemma stops_at_target_witness :
  exists r,
    calculateMartingaleProgression power_by_multiplication (Some capped)
    = Normal r
    /\ Forall (fun round => Round.targetMet round = false)
              (List.removelast (Results.progression r)).
Proof.
  apply (stops_at_target power_by_multiplication capped (of_Z 10) (of_Z 1000)).
  - exact capped_valid.
  - reflexivity.
Defined.

(** X8.  The progression of a valid configuration is empty exactly
    when [maxRounds] is below 1, or the base bet exceeds the bankroll,
    or a table limit is set and the base bet exceeds it. *)
Theorem progression_empty_iff
    (Math_pow : number -> number -> number) (cfg : Config) (b k : number) :
  valid_config cfg b k ->
  exists r,
    calculateMartingaleProgression Math_pow (Some cfg) = Normal r
    /\ (Results.progression r = []
        <-> rounds_limit cfg < 1
            \/ gt b k = true
            \/ (given (maxTableLimit cfg) = true
                /\ gt b (or_zero (maxTableLimit cfg)) = true)).
Proof.
  intros Hvalid.
  destruct (ledger_of_valid Math_pow cfg b k Hvalid) as (r & Hr & _ & Hempty).
  exists r. split; [exact Hr | ].
  rewrite Hempty. unfold stops. cbn [initial_state st_round st_currentBet
                                     st_remainingBankroll].
  rewrite !orb_true_iff, andb_true_iff, negb_true_iff, Z.leb_gt.
  tauto.
Qed.

Lemma progression_empty_iff_witness :
  exists r,
    calculateMartingaleProgression power_by_multiplication (Some unaffordable)
    = Normal r
    /\ (Results.progression r = []
        <-> rounds_limit unaffordable < 1
            \/ gt (of_Z 20) (of_Z 10) = true
            \/ (given (maxTableLimit unaffordable) = true
                /\ gt (of_Z 20) (or_zero (maxTableLimit unaffordable)) = true)).
Proof.
  apply (progression_empty_iff power_by_multiplication unaffordable
           (of_Z 20) (of_Z 10)).
  constructor; vm_compute; reflexivity.
Defined.

End LedgerFacts.

(* ================================================================== *)
(** * Stakes and bankroll stay within bounds *)
(* ================================================================== *)


Module SafetyFacts.

Import OddsConverter Calculator F64Order F64Round F64Ops OddsFacts.
Import ProgressionFacts MonotoneFacts NumberFacts EngineFacts LedgerFacts.
Local Open Scope Z_scope.

(** The profit of a winning bet at odds of at least 1 is not
    negative. *)
Lemma payout_profit (stake d : number) :
  positive_finite stake -> valid d = true -> ge d c1 = true ->
  ge (profit (calculatePayout stake d)) c0 = true.
Proof.
  intros Hs Hd Hge. unfold calculatePayout. cbn [profit].
  destruct (mul_ge_self stake d (or_introl Hs) Hd Hge) as (Hle & [Hfin | Hinf]).
  - apply nonnegative_ge_0. now apply sub_le_left.
  - rewrite Hinf. destruct Hs as (m & e & -> & _). reflexivity.
Qed.

Section Safety.

Variables (decimalOdds : number) (maxRounds : Z).
Variables (targetProfit maxTableLimit : option number).
Variable betMultiplier : number.
Variable k : number.

Hypothesis odds_valid : valid decimalOdds = true.
Hypothesis odds_ge_1 : ge decimalOdds c1 = true.
Hypothesis multiplier_valid : valid betMultiplier = true.
Hypothesis multiplier_ge_1 : ge betMultiplier c1 = true.

(** A round whose stake is positive and within the bankroll, and which
    leaves a bankroll that is not negative. *)
Definition sound (r : Round.t) : Prop :=
  isFinite (Round.betAmount r) = true
  /\ gt (Round.betAmount r) c0 = true
  /\ le (Round.betAmount r) k = true
  /\ isFinite (Round.remainingBankroll r) = true
  /\ ge (Round.remainingBankroll r) c0 = true
  /\ le (Round.remainingBankroll r) k = true
  /\ ge (Round.potentialWin r) c0 = true.

Record secure (s : LoopState) : Prop := {
  secure_bet : positive_or_infinite (st_currentBet s);
  secure_finite : isFinite (st_remainingBankroll s) = true;
  secure_valid : valid (st_remainingBankroll s) = true;
  secure_le : le (st_remainingBankroll s) k = true;
  secure_rounds : Forall sound (st_progression s)
}.

Lemma secure_push (s : LoopState) :
  secure s -> stops maxRounds maxTableLimit s = false ->
  forall bet round,
    positive_or_infinite bet ->
    secure (pushed decimalOdds targetProfit s bet round).
Proof.
  intros [Hbet Hfin Hvalid Hle Hrows] Hstop bet round Hnext.
  unfold stops in Hstop.
  apply orb_false_iff in Hstop. destruct Hstop as [Hstop _].
  apply orb_false_iff in Hstop. destruct Hstop as [_ Hgt].
  destruct (affordable _ _ Hbet Hfin Hvalid Hgt) as (Hb & Hk & Hbk).
  destruct (sub_le_left _ _ Hk Hb Hbk) as (Hsub & Hsubfin & Hsubvalid & Hnonneg).
  split; cbn [pushed st_currentBet st_remainingBankroll st_progression]; trivial.
  - eapply le_trans; eassumption.
  - apply Forall_app. split; [exact Hrows | ].
    constructor; [ | constructor].
    unfold sound, round_of. cbn.
    repeat split; trivial.
    + now apply positive_finite_isFinite.
    + now apply positive_finite_gt_0.
    + eapply le_trans; eassumption.
    + now apply nonnegative_ge_0.
    + eapply le_trans; eassumption.
    + now apply payout_profit.
Qed.

Lemma loop_sound (fuel : nat) (s final : LoopState) :
  secure s ->
  progression_loop fuel decimalOdds maxRounds targetProfit maxTableLimit
                   betMultiplier s = Normal final ->
  Forall sound (st_progression final).
Proof.
  revert fuel s final.
  apply (loop_rule decimalOdds maxRounds targetProfit maxTableLimit
           betMultiplier secure
           (fun final => Forall sound (st_progression final))).
  - intros s Hs _. apply (secure_rounds _ Hs).
  - intros s Hs Hstop _.
    apply (secure_rounds _ (secure_push s Hs Hstop _ _ (secure_bet _ Hs))).
  - intros s Hs Hstop _. apply secure_push; trivial.
    apply mul_ge_self; trivial. apply (secure_bet _ Hs).
Qed.

End Safety.

(** X9.  For a valid configuration with canonical amounts and a
    multiplier of at least 1, every round of the progression has a
    finite positive bet that is at most the bankroll, leaves a finite
    remaining bankroll between 0 and the bankroll, and has a potential
    win that is not negative: the bankroll is never overdrawn. *)
Theorem progression_sound
    (Math_pow : number -> number -> number) (cfg : Config) (b k : number) :
  valid_config cfg b k -> valid b = true -> valid k = true ->
  valid (multiplier cfg) = true -> ge (multiplier cfg) c1 = true ->
  exists r,
    calculateMartingaleProgression Math_pow (Some cfg) = Normal r
    /\ Forall (sound k) (Results.progression r).
Proof.
  intros Hvalid Hvb Hvk Hvm Hm.
  pose proof (positive_number_finite _ _ (valid_baseBet _ _ _ Hvalid) Hvb) as Hb.
  pose proof (positive_number_finite _ _ (valid_bankroll _ _ _ Hvalid) Hvk) as Hk.
  destruct (normalized_odds_spec cfg) as (_ & Hvd & _ & Hge).
  rewrite (progression_of_valid Math_pow cfg b k Hvalid).
  fold (rounds_limit cfg). fold (multiplier cfg).
  destruct (loop_ends (normalized_odds cfg) (rounds_limit cfg) (targetProfit cfg)
              (maxTableLimit cfg) (multiplier cfg)
              (S (Z.to_nat (rounds_limit cfg))) (initial_state b k))
    as (final & Hfinal & _).
  { unfold remaining. simpl. lia. }
  rewrite Hfinal. cbn [bind].
  eexists. split; [reflexivity | ]. cbn [Results.progression].
  apply (loop_sound _ _ _ _ _ k Hvd) in Hfinal; trivial.
  - apply (le_trans c1 c1_01); [reflexivity | exact Hge].
  - split; simpl; trivial.
    + left. exact Hb.
    + now apply positive_finite_isFinite.
    + apply le_refl. destruct Hk as (m & e & -> & _). reflexivity.
Qed.

Lemma progression_sound_witness :
  exists r,
    calculateMartingaleProgression power_by_multiplication (Some scenario1)
    = Normal r
    /\ Forall (sound (of_Z 1000)) (Results.progression r).
Proof.
  apply (progression_sound power_by_multiplication scenario1
           (of_Z 10) (of_Z 1000) scenario1_valid);
    reflexivity.
Defined.

(** X10.  [calculatePayout] on a positive finite stake at decimal odds
    of at least 1 returns a total that is at least the stake and a
    profit that is not negative. *)
Theorem winning_payout (stake decimalOdds : number) :
  valid stake = true -> isFinite stake = true -> gt stake c0 = true ->
  valid decimalOdds = true -> ge decimalOdds c1 = true ->
  le stake (totalReturn (calculatePayout stake decimalOdds)) = true
  /\ ge (profit (calculatePayout stake decimalOdds)) c0 = true.
Proof.
  intros Hv Hfin Hpos Hd Hge.
  pose proof (positive_finite_of stake Hv Hfin Hpos) as Hs.
  split; [ | now apply payout_profit].
  apply (mul_ge_self stake decimalOdds); trivial. now left.
Qed.

Lemma winning_payout_witness :
  le (of_Z 10) (totalReturn (calculatePayout (of_Z 10) c1_01)) = true
  /\ ge (profit (calculatePayout (of_Z 10) c1_01)) c0 = true.
Proof.
  apply (winning_payout (of_Z 10) c1_01); reflexivity.
Defined.

End SafetyFacts.

(* ================================================================== *)
(** * The statistics are percentages *)
(* ================================================================== *)


Module StatisticsFacts.

Import OddsConverter Calculator F64Order F64Ops ProgressionFacts NumberFacts.
Local Open Scope Z_scope.

Lemma kelly_fraction (decimalOdds winProbability : number) :
  le c0 (calculateKellyCriterion decimalOdds winProbability) = true
  /\ le (calculateKellyCriterion decimalOdds winProbability) c1 = true
  /\ valid (calculateKellyCriterion decimalOdds winProbability) = true.
Proof.
  unfold calculateKellyCriterion.
  destruct (_ || _ || _); [repeat split | ].
  set (kelly := div _ _).
  destruct (isFinite kelly) eqn:Hfin; [ | repeat split].
  rewrite (finite_not_NaN _ Hfin). cbn [negb orb].
  destruct (min_le kelly (finite_not_NaN _ Hfin)) as (Hnan & Hle & Hmin).
  destruct (max_ge _ Hnan Hle) as (H0 & H1 & Hmax).
  repeat split; trivial.
  destruct Hmax as [-> | ->]; [ | reflexivity].
  destruct Hmin as [-> | ->]; [apply div_valid_any | reflexivity].
Qed.

(** X11.  Whatever [Math.pow] returns and whatever the inputs, the
    statistics report a finite expected value and a Kelly criterion
    between 0 and 100 per cent. *)
Theorem statistics_bounded
    (Math_pow : number -> number -> number) (progression : list Round.t)
    (winProbability lossProbability bankroll baseBet decimalOdds : number) :
  let statistics :=
    calculateStatistics Math_pow progression winProbability lossProbability
                        bankroll baseBet decimalOdds in
  isFinite (Stats.expectedValue statistics) = true
  /\ le c0 (Stats.kellyCriterion statistics) = true
  /\ le (Stats.kellyCriterion statistics) c100 = true.
Proof.
  unfold calculateStatistics.
  cbn [Stats.expectedValue Stats.kellyCriterion].
  split.
  - match goal with
    | |- isFinite (if negb (isFinite ?e) then _ else _) = true =>
        destruct (isFinite e) eqn:He
    end; [exact He | reflexivity].
  - destruct (kelly_fraction decimalOdds winProbability) as (H0 & H1 & Hv).
    now apply percentage.
Qed.

(** X12.  When [Math.pow] returns canonical numbers, the risk of ruin
    the statistics report is a percentage between 0 and 100, or [NaN]
    (which only a [NaN] from [Math.pow] produces). *)
Theorem risk_of_ruin_percentage
    (Math_pow : number -> number -> number) (progression : list Round.t)
    (winProbability lossProbability bankroll baseBet decimalOdds : number) :
  (forall x y, valid x = true -> valid (Math_pow x y) = true) ->
  let risk :=
    Stats.riskOfRuin
      (calculateStatistics Math_pow progression winProbability lossProbability
                           bankroll baseBet decimalOdds) in
  isNaN risk = true \/ (le c0 risk = true /\ le risk c100 = true).
Proof.
  intros Hpow. unfold calculateStatistics. cbn [Stats.riskOfRuin].
  unfold calculateRiskOfRuin.
  destruct (_ || _ || _ || _); [right; split; reflexivity | ].
  destruct (eq winProbability c0_5); [right; split; reflexivity | ].
  destruct (eq _ c1); [right; split; reflexivity | ].
  destruct (_ || _); [right; split; reflexivity | ].
  set (risk := Math_pow _ _).
  assert (Hv : valid risk = true) by (apply Hpow, div_valid_any).
  destruct (isNaN risk) eqn:Hnan.
  - left. destruct risk; try discriminate. reflexivity.
  - right. destruct (clamp_range risk Hv Hnan) as (Hvc & H0 & H1).
    now apply percentage.
Qed.

Lemma power_by_multiplication_valid (x y : number) :
  valid x = true -> valid (power_by_multiplication x y) = true.
Proof.
  intros Hx. unfold power_by_multiplication.
  destruct (integral_exponent y) as [n | ]; [ | reflexivity].
  apply N.iter_invariant; [ | reflexivity].
  intros a Ha. now apply mul_valid.
Qed.

Lemma risk_of_ruin_percentage_witness :
  let risk :=
    Stats.riskOfRuin
      (calculateStatistics power_by_multiplication [] (of_decimal false 25 (-2))
         (of_decimal false 75 (-2)) (of_Z 1000) (of_Z 10) (of_Z 4)) in
  isNaN risk = true \/ (le c0 risk = true /\ le risk c100 = true).
Proof.
  apply (risk_of_ruin_percentage power_by_multiplication).
  exact power_by_multiplication_valid.
Defined.

End StatisticsFacts.

(* ================================================================== *)
(** * Running the simulation *)
(* ================================================================== *)


Module SessionFacts.

Import OddsConverter Calculator F64Order F64Round F64Ops OddsFacts.
Import ProgressionFacts MonotoneFacts SimulatorFacts.
Import NumberFacts ProbabilityFacts EngineFacts LedgerFacts.
Local Open Scope string_scope.
Local Open Scope Z_scope.

Section Table.

Variable Math_pow : number -> number -> number.
Variable Math_random : nat -> number.

Let simulate := simulateMartingaleSessions Math_pow Math_random.
Let single := simulateSingleSession Math_pow Math_random.
Let sessions := sessions_loop Math_pow Math_random.

(** A session over a table that is not empty returns. *)
Lemma single_session_returns (config : option Config) (r : Results.t)
    (p : number) (w : World) :
  calculateMartingaleProgression Math_pow config = Normal r ->
  Results.progression r <> [] ->
  exists s w', single config p w = Normal (s, w').
Proof.
  intros Hr Hne. unfold single, simulateSingleSession, derive.
  rewrite Hr. cbn [bind].
  destruct (play _ _ _ _ _) as [[s | ] w1]; [eauto | ].
  destruct (Results.progression r) as [ | r0 rest] using rev_ind;
    [contradiction | ].
  rewrite map_app. simpl List.map. rewrite last_last. eauto.
Qed.

(** The loop over the sessions ends within 100000 sessions and hands
    back a list that grew by one session for each index below
    [numSessions]. *)
Lemma sessions_return (config : option Config) (r : Results.t)
    (p n : number) :
  calculateMartingaleProgression Math_pow config = Normal r ->
  Results.progression r <> [] ->
  gt n c100000 = false ->
  forall fuel session acc w,
    (1 <= fuel)%nat -> session + Z.of_nat fuel = 100001 ->
    session = Z.of_nat (List.length acc) ->
    exists all w',
      sessions fuel config p n session acc w = Normal (all, w')
      /\ lt (of_Z (Z.of_nat (List.length all))) n = false
      /\ (forall i, session <= i < Z.of_nat (List.length all) ->
                    lt (of_Z i) n = true)
      /\ (List.length acc <= List.length all)%nat.
Proof.
  intros Hr Hne Hmax.
  induction fuel as [ | fuel IH]; intros session acc w Hfuel Hsum Hacc; [lia | ].
  cbn [sessions sessions_loop].
  destruct (lt (of_Z session) n) eqn:Hlt.
  - fold single.
    destruct (single_session_returns config r p w Hr Hne) as (s & w1 & ->).
    cbn [bind].
    assert (Hnot : session <> 100000).
    { intros ->. change (of_Z 100000) with c100000 in Hlt.
      unfold gt in Hmax. unfold lt in Hlt. congruence. }
    destruct (IH (session + 1) (acc ++ [s])%list w1) as (all & w' & Hrun & Hend & Hall & Hlen).
    + lia.
    + lia.
    + rewrite length_app. simpl. lia.
    + exists all, w'. fold sessions. rewrite Hrun.
      rewrite length_app in Hlen. simpl in Hlen.
      split; [reflexivity | ]. split; [exact Hend | ].
      split; [ | lia].
      intros i Hi. destruct (Z.eq_dec i session) as [-> | Hne'];
        [exact Hlt | apply Hall; lia].
  - exists acc, w. split; [reflexivity | ].
    rewrite <- Hacc. split; [exact Hlt | ]. split; [lia | lia].
Qed.

Lemma filter_partition {A : Type} (f : A -> bool) (l : list A) :
  (List.length (List.filter f l)
   + List.length (List.filter (fun x => negb (f x)) l)
   = List.length l)%nat.
Proof.
  induction l as [ | x l IH]; simpl; [reflexivity | ].
  destruct (f x); simpl; lia.
Qed.

(** What a simulation over a table that is not empty returns. *)
Lemma simulation_returns (cfg : Config) (numSessions : value) (n : number)
    (r : Results.t) (w : World) :
  calculateMartingaleProgression Math_pow (Some cfg) = Normal r ->
  Results.progression r <> [] ->
  session_count (defaulted numSessions) = Some n ->
  exists sim w',
    simulate (Some cfg) numSessions w = Normal (sim, w')
    /\ Summary.totalSessions (summary sim) = n
    /\ lt (of_Z (Z.of_nat (List.length (results sim)))) n = false
    /\ (forall i, 0 <= i < Z.of_nat (List.length (results sim)) ->
                  lt (of_Z i) n = true)
    /\ exists won lost : nat,
         Summary.wins (summary sim) = of_Z (Z.of_nat won)
         /\ Summary.losses (summary sim) = of_Z (Z.of_nat lost)
         /\ (won + lost = List.length (results sim))%nat.
Proof.
  intros Hr Hne Hn.
  unfold simulate, simulateMartingaleSessions.
  fold (defaulted numSessions). rewrite Hn.
  unfold derive at 1. rewrite Hr. cbn [bind].
  assert (Hcfg : rejection cfg = None).
  { destruct (rejection cfg) as [message | ] eqn:Hrej; trivial.
    rewrite (progression_of_rejected Math_pow cfg message Hrej) in Hr.
    discriminate Hr. }
  destruct (progression_of_accepted Math_pow cfg Hcfg) as (r' & Hr' & _ & Hodds).
  rewrite Hr in Hr'. injection Hr' as <-.
  rewrite Hodds.
  destruct (normalized_odds_spec cfg) as (_ & Hv & Hfin & Hge).
  destruct (win_probability_bounds _ Hv Hfin Hge) as (Hp & Hup).
  rewrite (positive_finite_isFinite _ Hp).
  assert (Hle0 : le (div (decimalToImpliedProbability (normalized_odds cfg)) c100) c0
                 = false).
  { destruct Hp as (mp & ep & -> & _). reflexivity. }
  assert (Hgt1 : gt (div (decimalToImpliedProbability (normalized_odds cfg)) c100) c1
                 = false).
  { apply le_lt_false. apply (le_trans _ c127_128); [exact Hup | reflexivity]. }
  rewrite Hle0, Hgt1. cbn [negb orb].
  assert (Hmax : gt n c100000 = false).
  { unfold session_count in Hn. destruct (defaulted numSessions); try discriminate.
    destruct (le x c0); [discriminate | ].
    destruct (gt x c100000) eqn:Hg; [discriminate | ].
    destruct (negb (isFinite x)); [discriminate | ].
    injection Hn as <-. exact Hg. }
  destruct (sessions_return (Some cfg) r
              (div (decimalToImpliedProbability (normalized_odds cfg)) c100) n
              Hr Hne Hmax (S (Z.to_nat 100000)) 0 []
              {| draws := draws w; derivations := S (derivations w) |})
    as (all & w' & Hrun & Hend & Hall & _); try reflexivity; [lia | ].
  fold sessions. rewrite Hrun. cbn [bind].
  eexists _, _. split; [reflexivity | ].
  cbn [summary results Summary.totalSessions Summary.wins Summary.losses].
  repeat split; trivial.
  exists (List.length (List.filter Session.won all)),
         (List.length (List.filter (fun s => negb (Session.won s)) all)).
  repeat split. apply filter_partition.
Qed.

End Table.

Lemma integer_session_count (z : Z) :
  1 <= z <= 100000 -> session_count (VNum (of_Z z)) = Some (of_Z z).
Proof.
  intros Hz. unfold session_count.
  assert (Hle : le (of_Z z) c0 = false).
  { destruct (le (of_Z z) c0) eqn:H; trivial.
    change c0 with (of_Z 0) in H. apply of_Z_le in H; lia. }
  assert (Hgt : gt (of_Z z) c100000 = false).
  { destruct (gt (of_Z z) c100000) eqn:H; trivial.
    change c100000 with (of_Z 100000) in H. unfold gt in H.
    change (SFltb (of_Z 100000) (of_Z z)) with (lt (of_Z 100000) (of_Z z)) in H.
    apply of_Z_lt in H; lia. }
  assert (Hfin : isFinite (of_Z z) = true).
  { destruct z as [ | p | p]; try lia.
    destruct (of_Z_canon p) as [Hup _]; [lia | ].
    pose proof (of_Z_not_NaN (Zpos p)) as Hnan.
    pose proof (binary_round_signed false p 0) as Hs.
    change (binary_round prec emax false p 0) with (of_Z (Zpos p)) in Hs.
    destruct (of_Z (Zpos p)) as [s | s | | s m e]; try discriminate; trivial.
    simpl in Hs. subst s. discriminate Hup. }
  rewrite Hle, Hgt, Hfin. reflexivity.
Qed.

Section Outcome.

Variable Math_pow : number -> number -> number.
Variable Math_random : nat -> number.

(** X13.  For a valid configuration whose first bet can be placed and
    an integral number of sessions z between 1 and 100000 (1000 when
    the argument is omitted), the simulation returns exactly z sessions;
    [totalSessions] is z and the wins and losses of the summary add up
    to z. *)
Theorem integer_sessions (cfg : Config) (b k : number)
    (numSessions : value) (z : Z) (w : World) :
  valid_config cfg b k ->
  1 <= rounds_limit cfg -> gt b k = false ->
  given (maxTableLimit cfg) && gt b (or_zero (maxTableLimit cfg)) = false ->
  defaulted numSessions = VNum (of_Z z) -> 1 <= z <= 100000 ->
  exists sim w',
    simulateMartingaleSessions Math_pow Math_random (Some cfg) numSessions w
    = Normal (sim, w')
    /\ Z.of_nat (List.length (results sim)) = z
    /\ Summary.totalSessions (summary sim) = of_Z z
    /\ exists won lost : nat,
         Summary.wins (summary sim) = of_Z (Z.of_nat won)
         /\ Summary.losses (summary sim) = of_Z (Z.of_nat lost)
         /\ (won + lost = List.length (results sim))%nat.
Proof.
  intros Hvalid Hlimit Hbk Htable Hnum Hz.
  destruct (ledger_of_valid Math_pow cfg b k Hvalid) as (r & Hr & _ & Hempty).
  assert (Hne : Results.progression r <> []).
  { intros Hnil. apply Hempty in Hnil. unfold stops in Hnil.
    cbn [initial_state st_round st_currentBet st_remainingBankroll] in Hnil.
    rewrite Hbk, Htable in Hnil.
    destruct (Z.leb_spec 1 (rounds_limit cfg)); [discriminate Hnil | lia]. }
  destruct (simulation_returns Math_pow Math_random cfg numSessions (of_Z z) r w
              Hr Hne)
    as (sim & w' & Hsim & Htotal & Hend & Hall & Hcount).
  { rewrite Hnum. now apply integer_session_count. }
  exists sim, w'. split; [exact Hsim | ].
  split; [ | split; [exact Htotal | exact Hcount]].
  set (len := Z.of_nat (List.length (results sim))) in *.
  assert (Hlen : 0 <= len) by (subst len; lia).
  assert (Hpow : 100000 < 2 ^ 53) by reflexivity.
  assert (Hup : len <= z).
  { destruct (Z.le_gt_cases len z) as [H | H]; trivial.
    specialize (Hall z ltac:(lia)). apply of_Z_lt in Hall; lia. }
  destruct (Z.eq_dec len z) as [Heq | Hneq]; trivial.
  assert (H : lt (of_Z len) (of_Z z) = true) by (apply of_Z_lt; lia).
  congruence.
Qed.

(** The errors [calculateMartingaleProgression] can raise. *)
Lemma progression_errors (config : option Config) (e : exn) :
  calculateMartingaleProgression Math_pow config = Throw e ->
  In e [JsError "Invalid configuration object";
        JsError "Base bet must be a positive number";
        JsError "Bankroll must be a positive number";
        JsError "Odds must be a number or string";
        JsError "Invalid odds type"].
Proof.
  destruct config as [cfg | ]; [ | intros [= <-]; simpl; auto].
  destruct (rejection cfg) as [message | ] eqn:Hrej.
  - rewrite (progression_of_rejected Math_pow cfg message Hrej).
    intros [= <-]. unfold rejection in Hrej.
    destruct (positive_number (baseBet cfg));
      [ | injection Hrej as <-; simpl; auto].
    destruct (positive_number (bankroll cfg));
      [ | injection Hrej as <-; simpl; auto].
    destruct (negb (number_or_string (odds cfg)));
      [injection Hrej as <-; simpl; auto | ].
    destruct (negb (recognized (oddsType cfg)));
      [injection Hrej as <-; simpl; auto 6 | ].
    discriminate Hrej.
  - destruct (progression_of_accepted Math_pow cfg Hrej) as (r & -> & _).
    discriminate.
Qed.

Lemma sessions_errors (config : option Config) (r : Results.t) (p n : number)
    (e : exn) (fuel : nat) :
  calculateMartingaleProgression Math_pow config = Normal r ->
  forall session acc w,
    sessions_loop Math_pow Math_random fuel config p n session acc w = Throw e ->
    e = undefined_totalWagered.
Proof.
  intros Hr. induction fuel as [ | fuel IH]; intros session acc w; [discriminate | ].
  cbn [sessions_loop].
  destruct (lt (of_Z session) n); [ | discriminate].
  unfold simulateSingleSession at 1, derive. rewrite Hr. cbn [bind].
  destruct (play _ _ _ _ _) as [[s | ] w1].
  - cbn [bind]. apply IH.
  - destruct (List.last _ None); cbn [bind]; [apply IH | ].
    now intros [= <-].
Qed.

(** X14.  Whatever its arguments, [simulateMartingaleSessions] does
    not raise its "Invalid win probability for simulation" error. *)
Theorem invalid_win_probability_unreachable (config : option Config)
    (numSessions : value) (w : World) :
  simulateMartingaleSessions Math_pow Math_random config numSessions w
  <> Throw (JsError "Invalid win probability for simulation").
Proof.
  unfold simulateMartingaleSessions.
  destruct (session_count _) as [n | ]; [ | discriminate].
  unfold derive at 1.
  destruct (calculateMartingaleProgression Math_pow config) as [r | e | ] eqn:Hr;
    cbn [bind]; [ | | discriminate].
  - destruct config as [cfg | ]; [ | discriminate Hr].
    assert (Hcfg : rejection cfg = None).
    { destruct (rejection cfg) as [message | ] eqn:Hrej; trivial.
      rewrite (progression_of_rejected Math_pow cfg message Hrej) in Hr.
      discriminate Hr. }
    destruct (progression_of_accepted Math_pow cfg Hcfg) as (r' & Hr' & _ & Hodds).
    rewrite Hr in Hr'. injection Hr' as <-. rewrite Hodds.
    destruct (normalized_odds_spec cfg) as (_ & Hv & Hfin & Hge).
    destruct (win_probability_bounds _ Hv Hfin Hge) as (Hp & Hup).
    rewrite (positive_finite_isFinite _ Hp).
    replace (le (div (decimalToImpliedProbability (normalized_odds cfg)) c100) c0)
      with false by (destruct Hp as (mp & ep & -> & _); reflexivity).
    replace (gt (div (decimalToImpliedProbability (normalized_odds cfg)) c100) c1)
      with false
      by (symmetry; apply le_lt_false; apply (le_trans _ c127_128);
          [exact Hup | reflexivity]).
    cbn [negb orb].
    destruct (sessions_loop _ _ _ _ _ _ _ _ _) as [[all w1] | e | ] eqn:Hloop;
      cbn [bind]; try discriminate.
    apply (sessions_errors _ r) in Hloop; [ | exact Hr].
    rewrite Hloop. discriminate.
  - apply progression_errors in Hr. simpl in Hr.
    intros [= ->].
    repeat (destruct Hr as [Hr | Hr]; [discriminate Hr | ]). exact Hr.
Qed.

End Outcome.

Lemma integer_sessions_witness :
  exists sim w',
    simulateMartingaleSessions power_by_multiplication scripted_random
      (Some scenario1) (VNum (of_Z 2)) fresh
    = Normal (sim, w')
    /\ Z.of_nat (List.length (results sim)) = 2
    /\ Summary.totalSessions (summary sim) = of_Z 2
    /\ exists won lost : nat,
         Summary.wins (summary sim) = of_Z (Z.of_nat won)
         /\ Summary.losses (summary sim) = of_Z (Z.of_nat lost)
         /\ (won + lost = List.length (results sim))%nat.
Proof.
  apply (integer_sessions power_by_multiplication scripted_random scenario1
           (of_Z 10) (of_Z 1000) (VNum (of_Z 2)) 2 fresh scenario1_valid);
    try reflexivity; try lia; vm_compute; discriminate.
Defined.

End SessionFacts.

(* ================================================================== *)
(** * What the validator accepts *)
(* ================================================================== *)


Module ValidationFacts.

Import OddsConverter F64Order F64Round NumberFacts.
Local Open Scope string_scope.
Local Open Scope Z_scope.







End ValidationFacts.

(* ================================================================== *)
(** * The risk warnings *)
(* ================================================================== *)


Module WarningFacts.

Import OddsConverter Calculator F64Order OddsFacts ProgressionFacts.
Import MonotoneFacts SimulatorFacts EngineFacts LedgerFacts.
Local Open Scope string_scope.
Local Open Scope Z_scope.

Lemma positive_number_is (v : value) (x : number) :
  positive_number v = Some x -> v = VNum x.
Proof.
  destruct v; try discriminate. simpl.
  destruct (_ || _); [discriminate | ]. now intros [= ->].
Qed.

(** [Math.max(...progression.map(r => r.betAmount))] *)
Definition max_bet (progression : list Round.t) : number :=
  List.fold_left Math_max (List.map Round.betAmount progression)
                 (S754_infinity true).

(** The kinds of warning the statistics and the progression call for,
    in the order the code tests them. *)
Definition kinds_due (k : number) (statistics : Stats.t)
    (progression : list Round.t) : list string :=
  ((if gt (Stats.bustProbability statistics) c10 then ["high-risk"] else [])
   ++ (if lt k (Stats.recommendedBankroll statistics) then ["bankroll"] else [])
   ++ (if lt (Stats.expectedValue statistics) c0 then ["negative-ev"] else [])
   ++ (if eq (Stats.kellyCriterion statistics) c0 then ["kelly"] else [])
   ++ (if gt (max_bet progression) (mul k c0_5) then ["large-bet"] else []))%list.

Lemma warnings_of_valid
    (Math_pow : number -> number -> number) (cfg : Config) (b k : number)
    (statistics : Stats.t) :
  valid_config cfg b k ->
  exists r ws,
    calculateMartingaleProgression Math_pow (Some cfg) = Normal r
    /\ generateRiskWarnings Math_pow cfg statistics = Normal ws
    /\ List.map Warning.type ws
       = kinds_due k statistics (Results.progression r)
    /\ (Results.progression r = []
        <-> stops (rounds_limit cfg) (maxTableLimit cfg) (initial_state b k)
            = true).
Proof.
  intros Hvalid.
  destruct (ledger_of_valid Math_pow cfg b k Hvalid) as (r & Hr & _ & Hempty).
  exists r. unfold generateRiskWarnings, kinds_due.
  rewrite (positive_number_is _ _ (valid_bankroll _ _ _ Hvalid)).
  rewrite Hr. cbn [ToNumber toFixed_of bind]. fold (max_bet (Results.progression r)).
  destruct (gt (Stats.bustProbability statistics) c10),
           (lt k (Stats.recommendedBankroll statistics)),
           (lt (Stats.expectedValue statistics) c0),
           (eq (Stats.kellyCriterion statistics) c0),
           (gt (max_bet (Results.progression r)) (mul k c0_5));
    cbn [bind]; eexists; (split; [reflexivity | ]);
    (split; [reflexivity | ]); (split; [reflexivity | exact Hempty]).
Qed.


Definition scenario1_statistics : Stats.t :=
  Eval vm_compute in
    match calculateMartingaleProgression power_by_multiplication
            (Some scenario1) with
    | Normal r => Results.statistics r
    | _ => calculateStatistics power_by_multiplication [] c0 c0 c0 c0 c0
    end.


(** X17.  When the base bet exceeds the bankroll the progression is
    empty, its largest bet is [-Infinity], and [generateRiskWarnings]
    issues no large-bet warning. *)
Theorem no_warning_for_unaffordable_bet
    (Math_pow : number -> number -> number) (cfg : Config) (b k : number)
    (statistics : Stats.t) :
  valid_config cfg b k -> gt b k = true ->
  exists ws,
    generateRiskWarnings Math_pow cfg statistics = Normal ws
    /\ ~ In "large-bet" (List.map Warning.type ws).
Proof.
  intros Hvalid Hgt.
  destruct (warnings_of_valid Math_pow cfg b k statistics Hvalid)
    as (r & ws & Hr & Hws & Hkinds & Hempty).
  exists ws. split; [exact Hws | ].
  assert (Hnil : Results.progression r = []).
  { apply Hempty. unfold stops.
    cbn [initial_state st_round st_currentBet st_remainingBankroll].
    rewrite Hgt. now rewrite orb_true_r. }
  rewrite Hkinds, Hnil. unfold kinds_due, max_bet. cbn [List.map List.fold_left].
  replace (gt (S754_infinity true) (mul k c0_5)) with false
    by (unfold gt; destruct (mul k c0_5) as [[] | [] | | [] m e]; reflexivity).
  destruct (gt _ c10), (lt k _), (lt _ c0), (eq _ c0); simpl;
    intuition discriminate.
Qed.

Lemma no_warning_for_unaffordable_bet_witness :
  exists ws,
    generateRiskWarnings power_by_multiplication unaffordable
      scenario1_statistics = Normal ws
    /\ ~ In "large-bet" (List.map Warning.type ws).
Proof.
  apply (no_warning_for_unaffordable_bet power_by_multiplication unaffordable
           (of_Z 20) (of_Z 10)).
  - constructor; vm_compute; reflexivity.
  - reflexivity.
Defined.

End WarningFacts.

(* ================================================================== *)
(** * The exported file *)
(* ================================================================== *)


Module ExportFacts.

Import OddsConverter Calculator.
Local Open Scope string_scope.
Local Open Scope Z_scope.

(** ** Splitting what was joined *)

Lemma rev_onto_app (a b c : string) :
  rev_onto (rev_onto a b) c = rev_onto b (a ++ c).
Proof.
  revert b. induction a as [ | x a IH]; intros b; simpl; [reflexivity | ].
  now rewrite IH.
Qed.

Lemma rev_onto_twice (a : string) : rev_onto (rev_onto a "") "" = a.
Proof.
  rewrite rev_onto_app. simpl. induction a; simpl; congruence.
Qed.

(** A text without the character [sep]. *)
Fixpoint free_of (sep : ascii) (s : string) : bool :=
  match s with
  | String c r => negb (Ascii.eqb c sep) && free_of sep r
  | EmptyString => true
  end.

Lemma free_of_app (sep : ascii) (a b : string) :
  free_of sep (a ++ b) = free_of sep a && free_of sep b.
Proof.
  induction a as [ | c a IH]; simpl; [reflexivity | ].
  now rewrite IH, andb_assoc.
Qed.

Lemma split_on_free (sep : ascii) (a : string) :
  free_of sep a = true ->
  forall rest cur,
    split_on sep (a ++ rest) cur = split_on sep rest (rev_onto a cur).
Proof.
  induction a as [ | c a IH]; intros Hfree rest cur; simpl; [reflexivity | ].
  simpl in Hfree. apply andb_prop in Hfree as [Hc Ha].
  apply negb_true_iff in Hc. rewrite Hc. now apply IH.
Qed.

Lemma append_empty (a : string) : a ++ "" = a.
Proof. induction a; simpl; congruence. Qed.

Lemma split_on_last (sep : ascii) (a : string) :
  free_of sep a = true -> split_on sep a "" = [a].
Proof.
  intros Hfree.
  rewrite <- (append_empty a) at 1.
  rewrite (split_on_free sep a Hfree). simpl. now rewrite rev_onto_twice.
Qed.

Lemma split_on_first (sep : ascii) (a rest : string) :
  free_of sep a = true ->
  split_on sep (a ++ String sep rest) "" = a :: split_on sep rest "".
Proof.
  intros Hfree. rewrite (split_on_free sep a Hfree). simpl.
  rewrite Ascii.eqb_refl. now rewrite rev_onto_twice.
Qed.

(** Splitting a joined list of texts that are free of the separator
    gives the list back. *)
Lemma split_join (sep : ascii) (parts : list string) :
  parts <> [] ->
  Forall (fun p => free_of sep p = true) parts ->
  split_on sep (join (String sep "") parts) "" = parts.
Proof.
  induction parts as [ | p rest IH]; intros Hne Hall; [contradiction | ].
  inversion Hall as [ | ? ? Hp Hrest]; subst.
  destruct rest as [ | q rest'].
  - simpl. now apply split_on_last.
  - change (join (String sep "") (p :: q :: rest'))
      with (p ++ String sep (join (String sep "") (q :: rest'))).
    rewrite (split_on_first sep p _ Hp). f_equal.
    apply IH; [discriminate | exact Hrest].
Qed.

(** ** The text of a number holds no separator *)

Definition line_feed : ascii :=
  Ascii.Ascii false true false true false false false false.

Definition separator (sep : ascii) : Prop := sep = ","%char \/ sep = line_feed.

Lemma free_of_substring (sep : ascii) (s : string) :
  free_of sep s = true ->
  forall n m, free_of sep (String.substring n m s) = true.
Proof.
  induction s as [ | c s IH]; intros Hfree n m.
  - destruct n, m; reflexivity.
  - simpl in Hfree. apply andb_prop in Hfree as [Hc Hs].
    destruct n as [ | n]; simpl.
    + destruct m as [ | m]; simpl; [reflexivity | ].
      rewrite Hc. now apply IH.
    + now apply IH.
Qed.

Lemma free_of_zeros (sep : ascii) (k : nat) :
  separator sep -> free_of sep (zeros k) = true.
Proof.
  intros Hsep. induction k as [ | k IH]; simpl; [reflexivity | ].
  rewrite IH. destruct Hsep as [-> | ->]; reflexivity.
Qed.

Lemma digit_not_separator (sep : ascii) (n : Z) :
  separator sep ->
  Ascii.eqb (ascii_of_nat (48 + Z.to_nat (n mod 10))) sep = false.
Proof.
  intros Hsep.
  pose proof (Z.mod_pos_bound n 10 ltac:(lia)) as Hd.
  assert (Hlt : (Z.to_nat (n mod 10) < 10)%nat) by lia.
  destruct (Z.to_nat (n mod 10)) as [ | [ | [ | [ | [ | [ | [ | [ | [ | [ | d]]]]]]]]]];
    try lia; destruct Hsep as [-> | ->]; reflexivity.
Qed.

Lemma free_of_dec_digits (sep : ascii) (fuel : nat) :
  separator sep ->
  forall n acc, free_of sep acc = true ->
  free_of sep (dec_digits fuel n acc) = true.
Proof.
  intros Hsep. induction fuel as [ | fuel IH]; intros n acc Hacc; simpl;
    [exact Hacc | ].
  assert (Hnext : free_of sep
                    (String (ascii_of_nat (48 + Z.to_nat (n mod 10))) acc)
                  = true).
  { cbn [free_of]. rewrite (digit_not_separator sep n Hsep). exact Hacc. }
  destruct (n <? 10); [exact Hnext | now apply IH].
Qed.

Lemma free_of_string_of_Z (sep : ascii) (n : Z) :
  separator sep -> free_of sep (string_of_Z n) = true.
Proof.
  intros Hsep. unfold string_of_Z. now apply free_of_dec_digits.
Qed.

Lemma free_of_NumberToString (sep : ascii) (x : number) :
  separator sep -> free_of sep (NumberToString x) = true.
Proof.
  intros Hsep. unfold NumberToString.
  destruct x as [s | s | | sg m e].
  - destruct Hsep as [-> | ->]; reflexivity.
  - destruct s; destruct Hsep as [-> | ->]; reflexivity.
  - destruct Hsep as [-> | ->]; reflexivity.
  - destruct (shortest_digits _ _ _ _ _) as [[s n] k].
    assert (Hd := free_of_string_of_Z sep s Hsep).
    assert (Hbody : forall body,
               free_of sep body = true ->
               free_of sep (if sg then "-" ++ body else body) = true).
    { intros body Hb. destruct sg; [ | exact Hb].
      rewrite free_of_app, Hb. destruct Hsep as [-> | ->]; reflexivity. }
    apply Hbody.
    destruct ((k <=? n) && (n <=? 21)).
    { rewrite free_of_app, Hd. now apply free_of_zeros. }
    destruct ((0 <? n) && (n <=? 21)).
    { rewrite !free_of_app, !(free_of_substring sep _ Hd).
      destruct Hsep as [-> | ->]; reflexivity. }
    destruct ((-6 <? n) && (n <=? 0)).
    { rewrite !free_of_app, Hd, free_of_zeros by exact Hsep.
      destruct Hsep as [-> | ->]; reflexivity. }
    assert (Hex : free_of sep ((if n - 1 <? 0 then "-" else "+")
                               ++ string_of_Z (Z.abs (n - 1))) = true).
    { rewrite free_of_app, free_of_string_of_Z by exact Hsep.
      destruct (n - 1 <? 0); destruct Hsep as [-> | ->]; reflexivity. }
    destruct (k =? 1).
    + do 2 rewrite free_of_app. rewrite Hd, Hex.
      destruct Hsep as [-> | ->]; reflexivity.
    + do 4 rewrite free_of_app. rewrite !(free_of_substring sep _ Hd), Hex.
      destruct Hsep as [-> | ->]; reflexivity.
Qed.

Lemma free_of_toFixed (sep : ascii) (x : number) (f : nat) :
  separator sep -> free_of sep (toFixed x f) = true.
Proof.
  intros Hsep. unfold toFixed.
  destruct x as [s | s | | sg m e]; try (now apply free_of_NumberToString).
  - destruct f; [destruct Hsep as [-> | ->]; reflexivity | ].
    rewrite free_of_app, free_of_zeros by exact Hsep.
    destruct Hsep as [-> | ->]; reflexivity.
  - destruct (lt _ c1e21); [ | now apply free_of_NumberToString].
    destruct (scale10 _ _) as [a b].
    set (n := (2 * a + b) / (2 * b)).
    set (digits := if (String.length (string_of_Z n) <=? f)%nat
                   then zeros (S f - String.length (string_of_Z n))
                        ++ string_of_Z n
                   else string_of_Z n).
    assert (Hd : free_of sep digits = true).
    { subst digits. destruct (_ <=? f)%nat.
      - rewrite free_of_app, free_of_zeros by exact Hsep.
        now apply free_of_string_of_Z.
      - now apply free_of_string_of_Z. }
    assert (Hbody : free_of sep
                      match f with
                      | O => digits
                      | S _ =>
                          String.substring 0 (String.length digits - f) digits
                          ++ "."
                          ++ String.substring (String.length digits - f) f digits
                      end = true).
    { destruct f; [exact Hd | ].
      rewrite !free_of_app, !(free_of_substring sep _ Hd).
      destruct Hsep as [-> | ->]; reflexivity. }
    destruct sg; [ | exact Hbody].
    rewrite free_of_app, Hbody. destruct Hsep as [-> | ->]; reflexivity.
Qed.

(** ** The layout of the file *)

Lemma append_assoc (a b c : string) : (a ++ b) ++ c = a ++ (b ++ c).
Proof. induction a; simpl; congruence. Qed.

Lemma newline_app (x : string) : newline ++ x = String line_feed x.
Proof. reflexivity. Qed.

Lemma free_of_join (sep : ascii) (glue : string) (parts : list string) :
  free_of sep glue = true ->
  Forall (fun p => free_of sep p = true) parts ->
  free_of sep (join glue parts) = true.
Proof.
  intros Hglue. induction 1 as [ | p rest Hp Hrest IH]; [reflexivity | ].
  destruct rest as [ | q rest']; [exact Hp | ].
  change (join glue (p :: q :: rest')) with (p ++ glue ++ join glue (q :: rest')).
  now rewrite !free_of_app, Hp, Hglue, IH.
Qed.

Lemma row_free (sep : ascii) (round : Round.t) :
  separator sep -> Forall (fun p => free_of sep p = true) (row round).
Proof.
  intros Hsep. unfold row.
  repeat constructor;
    (apply free_of_NumberToString || apply free_of_toFixed); exact Hsep.
Qed.

Lemma row_line_free (round : Round.t) :
  free_of line_feed (join "," (row round)) = true.
Proof.
  apply free_of_join; [reflexivity | ].
  apply row_free. now right.
Qed.

Lemma split_on_empty (sep : ascii) (rest : string) :
  split_on sep (String sep rest) "" = "" :: split_on sep rest "".
Proof. exact (split_on_first sep "" rest eq_refl). Qed.

(** The lines of a joined block that another line follows. *)
Lemma split_lines (lines : list string) (rest : string) :
  lines <> [] ->
  Forall (fun l => free_of line_feed l = true) lines ->
  split_on line_feed (join newline lines ++ String line_feed rest) ""
  = (lines ++ split_on line_feed rest "")%list.
Proof.
  induction lines as [ | l more IH]; intros Hne Hall; [contradiction | ].
  inversion Hall as [ | ? ? Hl Hmore]; subst.
  destruct more as [ | l' more'].
  - simpl join. now rewrite (split_on_first line_feed l rest Hl).
  - change (join newline (l :: l' :: more'))
      with (l ++ newline ++ join newline (l' :: more')).
    rewrite append_assoc, newline_app. cbn [String.append].
    rewrite (split_on_first line_feed l _ Hl).
    cbn [List.app]. f_equal.
    apply IH; [discriminate | exact Hmore].
Qed.

Definition row_line (round : Round.t) : string := join "," (row round).

(** The block that follows the rounds. *)
Definition statistics_lines (statistics : Stats.t) : list string :=
  [""; "Statistics";
   "Expected Value," ++ toFixed (Stats.expectedValue statistics) 2;
   "Bust Probability," ++ toFixed (Stats.bustProbability statistics) 2 ++ "%";
   "Max Drawdown," ++ toFixed (Stats.maxDrawdown statistics) 2;
   "Kelly Criterion," ++ toFixed (Stats.kellyCriterion statistics) 2 ++ "%";
   ""].

(** X18.  The text [exportToCSV] builds splits at line feeds into the
    header line, one line for each round (one empty line when there is
    no round), an empty line, the line "Statistics", the four
    statistics lines and a final empty line; and the line of a round
    splits at commas into exactly its seven cells: no number is
    written with a comma or a line feed in it. *)
Theorem csv_layout (progression : list Round.t) (statistics : Stats.t) :
  split_on line_feed (exportToCSV progression statistics) ""
  = join "," headers
    :: List.app
         match progression with
         | [] => [""]
         | _ => List.map row_line progression
         end
         (statistics_lines statistics)
  /\ Forall (fun round => split_on "," (row_line round) "" = row round)
            progression.
Proof.
  split.
  - unfold exportToCSV.
    repeat rewrite append_assoc. repeat rewrite newline_app.
    rewrite (split_on_first line_feed (join "," headers)) by reflexivity.
    f_equal.
    assert (Hfixed : forall x, free_of line_feed (toFixed x 2) = true).
    { intros x. apply free_of_toFixed. now right. }
    assert (Htail :
      split_on line_feed
        (String line_feed
           ("Statistics" ++
            String line_feed
              ("Expected Value," ++
               toFixed (Stats.expectedValue statistics) 2 ++
               String line_feed
                 ("Bust Probability," ++
                  toFixed (Stats.bustProbability statistics) 2 ++
                  "%" ++
                  String line_feed
                    ("Max Drawdown," ++
                     toFixed (Stats.maxDrawdown statistics) 2 ++
                     String line_feed
                       ("Kelly Criterion," ++
                        toFixed (Stats.kellyCriterion statistics) 2 ++
                        "%" ++ newline)))))) ""
      = statistics_lines statistics).
    { unfold statistics_lines, newline.
      rewrite split_on_empty. f_equal.
      rewrite (split_on_first line_feed "Statistics" _ eq_refl). f_equal.
      rewrite <- append_assoc.
      rewrite (split_on_first line_feed
                 ("Expected Value," ++ toFixed (Stats.expectedValue statistics) 2))
        by (rewrite free_of_app, Hfixed; reflexivity).
      f_equal.
      rewrite <- (append_assoc _ "%"), <- append_assoc.
      rewrite (split_on_first line_feed
                 ("Bust Probability,"
                  ++ toFixed (Stats.bustProbability statistics) 2 ++ "%"))
        by (rewrite !free_of_app, Hfixed; reflexivity).
      f_equal.
      rewrite <- append_assoc.
      rewrite (split_on_first line_feed
                 ("Max Drawdown," ++ toFixed (Stats.maxDrawdown statistics) 2))
        by (rewrite free_of_app, Hfixed; reflexivity).
      f_equal.
      rewrite <- (append_assoc _ "%"), <- append_assoc.
      rewrite (split_on_first line_feed
                 ("Kelly Criterion,"
                  ++ toFixed (Stats.kellyCriterion statistics) 2 ++ "%"))
        by (rewrite !free_of_app, Hfixed; reflexivity).
      reflexivity. }
    destruct progression as [ | round rounds].
    + cbn [List.map join String.append]. rewrite split_on_empty.
      cbn [List.app]. f_equal. exact Htail.
    + rewrite List.map_map. fold row_line.
      rewrite split_lines.
      * rewrite Htail. reflexivity.
      * discriminate.
      * apply Forall_map. apply Forall_forall. intros r _. apply row_line_free.
  - apply Forall_forall. intros round _. unfold row_line.
    apply (split_join ","%char).
    + discriminate.
    + apply row_free. now left.
Qed.

End ExportFacts.

(* ================================================================== *)
(** * Integers as numbers *)
(* ================================================================== *)

Module IntegerFacts.

Import OddsConverter F64Order F64Round F64Ops F64Div NumberFacts.
Local Open Scope Z_scope.

(** ** Integers below [2^53] are numbers *)

Lemma le_antisym (m : positive) (e : Z) (x : number) :
  le (S754_finite false m e) x = true -> le x (S754_finite false m e) = true ->
  x = S754_finite false m e.
Proof.
  intros H1 H2.
  destruct x as [s | s | | s m' e']; try discriminate;
    try (destruct s; discriminate).
  destruct s; [discriminate | ].
  apply le_finite in H1. apply le_finite in H2.
  assert (e = e') by lia. subst e'.
  assert (Zpos m = Zpos m') by lia.
  congruence.
Qed.

Lemma of_Z_pos (p : positive) : Zpos p < 2 ^ 53 -> of_Z (Zpos p) = canon p.
Proof.
  intros Hp. destruct (of_Z_canon p Hp) as [H1 H2].
  now apply le_antisym.
Qed.

Lemma digits_le_53 (p : positive) : Zpos p < 2 ^ 53 -> digits p <= 53.
Proof.
  intros Hp.
  destruct (Z.le_gt_cases (digits p) 53) as [H | H]; trivial.
  pose proof (digits_bounds p) as [Hlo _].
  assert (2 ^ 53 <= 2 ^ (digits p - 1)) by (apply pow2_le; lia). lia.
Qed.

(** Rounding the integer [p], written as [m * 2^e], changes nothing. *)
Lemma round_exact (p m : positive) (e : Z) :
  Zpos p < 2 ^ 53 -> e <= 0 -> Zpos m = Zpos p * 2 ^ (- e) ->
  binary_round prec emax false m e = canon p.
Proof.
  intros Hp He Hm.
  destruct (canon_spec p Hp) as (Hc & Hb).
  pose proof (digits_pos p) as Hd1. pose proof (digits_le_53 p Hp) as Hd.
  assert (Hv : Zpos m * 2 ^ (53 - digits p)
               = Zpos p * 2 ^ (53 - digits p) * 2 ^ (- e)).
  { rewrite Hm. ring. }
  unfold canon. apply le_antisym.
  - apply binary_round_below; [exact Hb | ].
    apply (dle_at (e + (digits p - 53))); [lia | lia | ].
    rewrite Hc.
    replace (digits p - 53 - (e + (digits p - 53))) with (- e) by lia.
    replace (e - (e + (digits p - 53))) with (53 - digits p) by lia.
    lia.
  - apply binary_round_above; [exact Hb | ].
    apply (dle_at (e + (digits p - 53))); [lia | lia | ].
    rewrite Hc.
    replace (digits p - 53 - (e + (digits p - 53))) with (- e) by lia.
    replace (e - (e + (digits p - 53))) with (53 - digits p) by lia.
    lia.
Qed.

(** The mantissa of [canon p], moved to a lower exponent. *)
Lemma canon_aligned (p : positive) (k : Z) :
  Zpos p < 2 ^ 53 -> k <= digits p - 53 ->
  Zpos (Z.to_pos (Zpos p * 2 ^ (53 - digits p))) * 2 ^ (digits p - 53 - k)
  = Zpos p * 2 ^ (- k).
Proof.
  intros Hp Hk. destruct (canon_spec p Hp) as (Hc & _). rewrite Hc.
  pose proof (digits_le_53 p Hp).
  rewrite <- Z.mul_assoc, <- pow2_split by lia.
  f_equal. f_equal. lia.
Qed.

(** The remainder of two integers is the integer remainder. *)
Lemma rem_integers (a b : Z) :
  0 <= a < 2 ^ 53 -> 0 < b < 2 ^ 53 ->
  rem (of_Z a) (of_Z b) = of_Z (a mod b).
Proof.
  intros Ha Hb.
  destruct b as [ | q | q]; try lia.
  rewrite (of_Z_pos q) by lia.
  destruct a as [ | p | p]; try lia.
  - rewrite Z.mod_0_l by lia. reflexivity.
  - rewrite (of_Z_pos p) by lia.
    pose proof (digits_le_53 p (proj2 Ha)) as Hdp.
    pose proof (digits_le_53 q (proj2 Hb)) as Hdq.
    unfold canon, rem. cbv zeta.
    set (e0 := Z.min (digits p - 53) (digits q - 53)).
    rewrite (canon_aligned p e0), (canon_aligned q e0) by lia.
    assert (Hpow : 0 < 2 ^ (- e0)) by (apply pow2_pos; lia).
    rewrite Z.rem_mod_nonneg by nia.
    rewrite Z.mul_mod_distr_r by lia.
    pose proof (Z.mod_pos_bound (Zpos p) (Zpos q) ltac:(lia)) as Hmod.
    destruct (Zpos p mod Zpos q) as [ | c | c] eqn:Hc; try lia.
    + reflexivity.
    + assert (Hr : exists r, Zpos c * 2 ^ (- e0) = Zpos r).
      { destruct (Zpos c * 2 ^ (- e0)) as [ | r | r] eqn:Hr; try lia.
        now exists r. }
      destruct Hr as (r & Hr). rewrite Hr.
      rewrite (of_Z_pos c) by lia.
      apply round_exact; lia.
Qed.

(** Only the integer [0] is equal to zero. *)
Lemma eq_zero (b : Z) : 0 <= b < 2 ^ 53 -> eq (of_Z b) c0 = (b =? 0).
Proof.
  intros Hb. destruct b as [ | q | q]; try lia; [reflexivity | ].
  rewrite (of_Z_pos q) by lia. reflexivity.
Qed.

(** Dividing an integer by one of its divisors is exact. *)
Lemma div_integers (a g : Z) :
  0 <= a < 2 ^ 53 -> 0 < g -> (g | a) ->
  div (of_Z a) (of_Z g) = of_Z (a / g).
Proof.
  intros Ha Hg (k & Hk).
  assert (Hquot : a / g = k) by (subst a; now apply Z.div_mul; lia).
  rewrite Hquot.
  destruct a as [ | p | p]; try lia.
  - assert (k = 0) by nia. subst k.
    destruct g as [ | q | q]; try lia.
    change (of_Z (Zpos q)) with (binary_round prec emax false q 0).
    pose proof (binary_round_signed false q 0) as Hs.
    assert (Hq : le c1 (binary_round prec emax false q 0) = true).
    { apply binary_round_below; [reflexivity | ].
      apply (dle_at (-52)); [lia | lia | ]. simpl. lia. }
    destruct (binary_round prec emax false q 0) as [s | s | | s mq eq];
      try discriminate; simpl in Hs; subst; try reflexivity.
  - assert (Hkpos : 0 < k) by nia.
    assert (Hg53 : g < 2 ^ 53) by nia.
    assert (Hk53 : k < 2 ^ 53) by nia.
    destruct g as [ | q | q]; try lia.
    destruct k as [ | c | c]; try lia.
    rewrite (of_Z_pos p), (of_Z_pos q), (of_Z_pos c) by lia.
    destruct (canon_spec p (proj2 Ha)) as (Hcp & Hbp).
    destruct (canon_spec q Hg53) as (Hcq & Hbq).
    destruct (canon_spec c Hk53) as (Hcc & Hbc).
    pose proof (digits_le_53 p (proj2 Ha)) as Hdp.
    pose proof (digits_le_53 q Hg53) as Hdq.
    pose proof (digits_le_53 c Hk53) as Hdc.
    pose proof (digits_pos p). pose proof (digits_pos q). pose proof (digits_pos c).
    unfold canon. apply le_antisym.
    + apply div_below; [exact Hbc | ].
      apply (dle_at (-106)); [lia | lia | ].
      rewrite Hcp, Hcc, Hcq.
      replace (digits c - 53 + (digits q - 53) - -106) with (digits c + digits q) by lia.
      replace (digits p - 53 - -106) with (53 + digits p) by lia.
      rewrite !pow2_split by lia.
      replace (Zpos p) with (Zpos c * Zpos q) by lia.
      assert (E : 2 ^ (53 - digits c) * 2 ^ digits c = 2 ^ 53)
        by (rewrite <- pow2_split by lia; f_equal; lia).
      assert (E' : 2 ^ (53 - digits q) * 2 ^ digits q = 2 ^ 53)
        by (rewrite <- pow2_split by lia; f_equal; lia).
      assert (E'' : 2 ^ (53 - digits p) * 2 ^ digits p = 2 ^ 53)
        by (rewrite <- pow2_split by lia; f_equal; lia).
      apply Z.eq_le_incl.
      transitivity (Zpos c * Zpos q * (2 ^ (53 - digits c) * 2 ^ digits c)
                    * (2 ^ (53 - digits q) * 2 ^ digits q)); [ring | ].
      transitivity (Zpos c * Zpos q * (2 ^ (53 - digits p) * 2 ^ digits p) * 2 ^ 53);
        [ | ring].
      rewrite E, E', E''. ring.
    + apply div_above; [exact Hbc | ].
      apply (dle_at (-106)); [lia | lia | ].
      rewrite Hcp, Hcc, Hcq.
      replace (digits c - 53 + (digits q - 53) - -106) with (digits c + digits q) by lia.
      replace (digits p - 53 - -106) with (53 + digits p) by lia.
      rewrite !pow2_split by lia.
      replace (Zpos p) with (Zpos c * Zpos q) by lia.
      assert (E : 2 ^ (53 - digits c) * 2 ^ digits c = 2 ^ 53)
        by (rewrite <- pow2_split by lia; f_equal; lia).
      assert (E' : 2 ^ (53 - digits q) * 2 ^ digits q = 2 ^ 53)
        by (rewrite <- pow2_split by lia; f_equal; lia).
      assert (E'' : 2 ^ (53 - digits p) * 2 ^ digits p = 2 ^ 53)
        by (rewrite <- pow2_split by lia; f_equal; lia).
      apply Z.eq_le_incl.
      transitivity (Zpos c * Zpos q * (2 ^ (53 - digits p) * 2 ^ digits p) * 2 ^ 53);
        [ring | ].
      transitivity (Zpos c * Zpos q * (2 ^ (53 - digits c) * 2 ^ digits c)
                    * (2 ^ (53 - digits q) * 2 ^ digits q)); [ | ring].
      rewrite E, E', E''. ring.
Qed.

(** ** Rounding to an integer *)

(** The first integer that is not exact as a number's neighbour:
    [2^53]. *)
Definition c2_53 : number := Eval vm_compute in of_Z (2 ^ 53).

Lemma round_integer (m : positive) (e : Z) :
  bounded prec emax m e = true ->
  lt (S754_finite false m e) c2_53 = true ->
  exists n, 0 <= n < 2 ^ 53 /\ Math_round (S754_finite false m e) = of_Z n.
Proof.
  intros Hb Hlt.
  destruct (bounded_facts m e Hb) as (Hf & He & Hd & Hm & Hnorm).
  unfold Math_round. destruct (0 <=? e) eqn:H0.
  - apply Z.leb_le in H0.
    assert (e = 0).
    { destruct (le c2_53 (S754_finite false m e)) eqn:Hle.
      - apply le_lt_false in Hle. congruence.
      - destruct (Z.eq_dec e 0) as [E | E]; trivial. exfalso.
        assert (H : le c2_53 (S754_finite false m e) = true); [ | congruence].
        apply le_finite. specialize (Hnorm ltac:(lia)).
        change (2 ^ 52) with 4503599627370496 in Hnorm. lia. }
    subst e. exists (Zpos m). split; [lia | ].
    rewrite (of_Z_pos m Hm). unfold canon.
    rewrite fexp_eq in Hf.
    assert (Hdm : digits m = 53) by lia.
    rewrite Hdm. change (53 - 53) with 0.
    rewrite Z.pow_0_r, Z.mul_1_r. reflexivity.
  - apply Z.leb_gt in H0. cbn [cond_Zopp].
    set (n := Z.shiftr (2 * Zpos m + 2 ^ (- e)) (- e + 1)).
    assert (Hn : 0 <= n <= 2 ^ 52).
    { unfold n. rewrite Z.shiftr_div_pow2 by lia.
      assert (Hp : 0 < 2 ^ (- e)) by (apply pow2_pos; lia).
      assert (Hp1 : 2 ^ (- e + 1) = 2 * 2 ^ (- e)).
      { rewrite pow2_split by lia. change (2 ^ 1) with 2. ring. }
      assert (H2 : 2 <= 2 ^ (- e)).
      { change 2 with (2 ^ 1) at 1. apply pow2_le; lia. }
      rewrite Hp1. split.
      - apply Z.div_pos; lia.
      - assert (H : (2 * Zpos m + 2 ^ (- e)) / (2 * 2 ^ (- e)) < 2 ^ 52 + 1);
          [ | lia].
        apply Z.div_lt_upper_bound; [lia | ].
        change (2 ^ 53) with 9007199254740992 in Hm.
        change (2 ^ 52) with 4503599627370496. nia. }
    change (2 ^ 52) with 4503599627370496 in Hn.
    exists n. split; [change (2 ^ 53) with 9007199254740992; lia | ].
    destruct (n =? 0) eqn:E; [ | reflexivity].
    apply Z.eqb_eq in E. rewrite E. reflexivity.
Qed.

End IntegerFacts.

(* ================================================================== *)
(** * Integers print as their digits *)
(* ================================================================== *)

Module PrintFacts.

Import OddsConverter F64Order F64Round NumberFacts.
Import RoundTripFacts ProgressionFacts ExportFacts IntegerFacts.
Local Open Scope string_scope.
Local Open Scope Z_scope.

(** ** The decimal digits of an integer *)

Lemma dec_digits_acc (fuel : nat) :
  forall n acc, dec_digits fuel n acc = dec_digits fuel n "" ++ acc.
Proof.
  induction fuel as [ | fuel IH]; intros n acc; [reflexivity | ].
  cbn [dec_digits]. cbv zeta.
  destruct (n <? 10); [reflexivity | ].
  rewrite IH. rewrite (IH _ (String _ "")).
  rewrite append_assoc. reflexivity.
Qed.

Lemma pow10_pos (k : Z) : 0 <= k -> 0 < 10 ^ k.
Proof. intros. apply Z.pow_pos_nonneg; lia. Qed.

Lemma pow10_succ (k : Z) : 0 <= k -> 10 ^ (k + 1) = 10 * 10 ^ k.
Proof. intros. rewrite Z.pow_add_r by lia. change (10 ^ 1) with 10. ring. Qed.

(** More fuel than digits changes nothing. *)
Lemma dec_digits_fuel (f1 : nat) :
  forall f2 n acc,
    0 <= n < 10 ^ Z.of_nat (S f1) -> 0 <= n < 10 ^ Z.of_nat (S f2) ->
    dec_digits (S f1) n acc = dec_digits (S f2) n acc.
Proof.
  induction f1 as [ | f1 IH]; intros f2 n acc H1 H2.
  - change (10 ^ Z.of_nat 1) with 10 in H1.
    cbn [dec_digits]. cbv zeta.
    destruct (n <? 10) eqn:E; [reflexivity | ].
    apply Z.ltb_ge in E. lia.
  - cbn [dec_digits]. cbv zeta.
    destruct (n <? 10) eqn:E; [reflexivity | ].
    apply Z.ltb_ge in E.
    assert (H1' : 0 <= n / 10 < 10 ^ Z.of_nat (S f1)).
    { split; [apply Z.div_pos; lia | ].
      apply Z.div_lt_upper_bound; [lia | ].
      rewrite <- pow10_succ by lia.
      replace (Z.of_nat (S f1) + 1) with (Z.of_nat (S (S f1))) by lia. lia. }
    destruct f2 as [ | f2].
    + change (10 ^ Z.of_nat 1) with 10 in H2. lia.
    + apply IH; trivial.
      split; [apply Z.div_pos; lia | ].
      apply Z.div_lt_upper_bound; [lia | ].
      rewrite <- pow10_succ by lia.
      replace (Z.of_nat (S f2) + 1) with (Z.of_nat (S (S f2))) by lia. lia.
Qed.

Lemma log2_fuel (n : Z) : 0 <= n -> n < 10 ^ Z.of_nat (S (Z.to_nat (Z.log2 n))).
Proof.
  intros Hn.
  destruct (Z.eq_dec n 0) as [-> | Hne]; [reflexivity | ].
  pose proof (Z.log2_nonneg n) as Hl.
  pose proof (Z.log2_spec n ltac:(lia)) as [_ Hup].
  replace (Z.of_nat (S (Z.to_nat (Z.log2 n)))) with (Z.succ (Z.log2 n)) by lia.
  apply (Z.lt_le_trans _ _ _ Hup).
  apply Z.pow_le_mono_l. lia.
Qed.

Lemma dec_digits_step (fuel : nat) (n : Z) (acc : string) :
  dec_digits (S fuel) n acc
  = if n <? 10 then String (ascii_of_nat (48 + Z.to_nat (n mod 10))) acc
    else dec_digits fuel (n / 10)
           (String (ascii_of_nat (48 + Z.to_nat (n mod 10))) acc).
Proof. reflexivity. Qed.

(** Ten times a positive integer is written with one more [0]. *)
Lemma string_of_Z_tenfold (x : Z) :
  0 < x -> string_of_Z (10 * x) = string_of_Z x ++ "0".
Proof.
  intros Hx. unfold string_of_Z.
  pose proof (Z.log2_nonneg (10 * x)) as Hl.
  assert (Hl1 : 1 <= Z.log2 (10 * x)).
  { apply Z.log2_le_pow2; [lia | ]. change (2 ^ 1) with 2. lia. }
  destruct (Z.to_nat (Z.log2 (10 * x))) as [ | f] eqn:Hf; [lia | ].
  rewrite dec_digits_step.
  destruct (10 * x <? 10) eqn:E; [apply Z.ltb_lt in E; lia | ].
  replace (10 * x / 10) with x by (symmetry; rewrite Z.mul_comm; apply Z.div_mul; lia).
  replace ((10 * x) mod 10) with 0
    by (symmetry; rewrite Z.mul_comm; apply Z.mod_mul; lia).
  rewrite dec_digits_acc.
  rewrite (dec_digits_fuel f (Z.to_nat (Z.log2 x))).
  - reflexivity.
  - split; [lia | ].
    pose proof (Z.log2_spec (10 * x) ltac:(lia)) as [_ Hup].
    assert (Hs : Z.of_nat (S f) = Z.log2 (10 * x)) by lia.
    rewrite Hs.
    assert (2 ^ Z.succ (Z.log2 (10 * x)) <= 10 * 10 ^ Z.log2 (10 * x)).
    { rewrite Z.pow_succ_r by lia.
      assert (2 ^ Z.log2 (10 * x) <= 10 ^ Z.log2 (10 * x))
        by (apply Z.pow_le_mono_l; lia).
      lia. }
    lia.
  - split; [lia | apply log2_fuel; lia].
Qed.

Lemma zeros_snoc (z : nat) : zeros z ++ "0" = zeros (S z).
Proof. induction z as [ | z IH]; [reflexivity | ]. simpl in *. now rewrite IH. Qed.

Lemma string_of_Z_zeros (s : Z) (z : nat) :
  0 < s -> string_of_Z s ++ zeros z = string_of_Z (s * 10 ^ Z.of_nat z).
Proof.
  intros Hs. induction z as [ | z IH].
  - rewrite append_empty. f_equal. change (10 ^ Z.of_nat 0) with 1. lia.
  - rewrite <- zeros_snoc, <- append_assoc, IH.
    rewrite <- string_of_Z_tenfold.
    + f_equal. replace (Z.of_nat (S z)) with (Z.of_nat z + 1) by lia.
      rewrite pow10_succ by lia. ring.
    + pose proof (pow10_pos (Z.of_nat z) ltac:(lia)). nia.
Qed.

(** ** Reading integers back *)

Lemma same_number_refl (x : number) : same_number x x = true.
Proof.
  destruct x as [s | s | | s m e]; simpl; trivial;
    try apply Bool.eqb_reflx.
  rewrite Bool.eqb_reflx, Pos.eqb_refl, Z.eqb_refl. reflexivity.
Qed.

Lemma of_decimal_integer (x e : Z) :
  0 < x -> 0 <= e -> of_decimal false x e = of_Z (x * 10 ^ e).
Proof.
  intros Hx He. destruct x as [ | d | d]; try lia.
  unfold of_decimal. apply Z.leb_le in He. rewrite He. apply Z.leb_le in He.
  pose proof (pow10_pos e He) as Hp.
  destruct (10 ^ e) as [ | t | t]; try lia.
  reflexivity.
Qed.

(** An integer of at least [2^53] is not read as a smaller one. *)
Lemma large_integer (x : Z) : 2 ^ 53 <= x -> le c2_53 (of_Z x) = true.
Proof.
  intros Hx. change (2 ^ 53) with 9007199254740992 in Hx.
  destruct x as [ | q | q]; try lia.
  change (of_Z (Zpos q)) with (binary_round prec emax false q 0).
  apply binary_round_below; [reflexivity | ].
  apply (dle_at 0); [lia | lia | ].
  change (2 ^ (1 - 0)) with 2. change (2 ^ (0 - 0)) with 1. lia.
Qed.

Lemma small_integer (p : Z) : 0 <= p < 2 ^ 53 -> le c2_53 (of_Z p) = false.
Proof.
  intros Hp. destruct p as [ | q | q]; try lia; [reflexivity | ].
  rewrite (of_Z_pos q) by lia.
  destruct (le c2_53 (canon q)) eqn:E; [exfalso | reflexivity].
  destruct (canon_spec q (proj2 Hp)) as (Hc & Hb).
  pose proof (digits_pos q). pose proof (digits_le_53 q (proj2 Hp)).
  unfold canon in E. apply le_value in E; [ | reflexivity | exact Hb].
  apply (dle_to (digits q - 53)) in E; [ | lia | lia].
  rewrite Hc, Z.sub_diag, Z.pow_0_r, Z.mul_1_r in E.
  replace (1 - (digits q - 53)) with (1 + (53 - digits q)) in E by lia.
  rewrite pow2_split in E by lia.
  assert (0 < 2 ^ (53 - digits q)) by (apply pow2_pos; lia).
  change (2 ^ 1) with 2 in E. change (2 ^ 53) with 9007199254740992 in Hp.
  nia.
Qed.

Lemma integer_read_back (x p : Z) :
  0 < x -> 0 <= p < 2 ^ 53 -> same_number (of_Z x) (of_Z p) = true -> x = p.
Proof.
  intros Hx Hp H. apply same_number_eq in H.
  destruct (Z.lt_ge_cases x (2 ^ 53)) as [Hlt | Hge].
  - assert (H1 : le (of_Z x) (of_Z p) = true).
    { rewrite H. apply (of_Z_le p p); lia. }
    assert (H2 : le (of_Z p) (of_Z x) = true).
    { rewrite H. apply (of_Z_le p p); lia. }
    apply of_Z_le in H1; [ | lia | lia].
    apply of_Z_le in H2; [ | lia | lia].
    lia.
  - apply large_integer in Hge. rewrite H in Hge.
    rewrite (small_integer p Hp) in Hge. discriminate.
Qed.

(** ** The decimal exponent *)

Lemma decimal_length (p : Z) :
  1 <= p < 2 ^ 53 -> exists D, 1 <= D <= 16 /\ 10 ^ (D - 1) <= p < 10 ^ D.
Proof.
  intros Hp.
  assert (H : forall k : nat, p < 10 ^ Z.of_nat k ->
              exists D, 1 <= D <= Z.of_nat k /\ 10 ^ (D - 1) <= p < 10 ^ D).
  { induction k as [ | k IH]; intros Hk.
    - change (10 ^ Z.of_nat 0) with 1 in Hk. lia.
    - destruct (Z.lt_ge_cases p (10 ^ Z.of_nat k)) as [Hlt | Hge].
      + destruct (IH Hlt) as (D & HD & Hb). exists D. split; [lia | exact Hb].
      + exists (Z.of_nat (S k)). split; [lia | ].
        replace (Z.of_nat (S k) - 1) with (Z.of_nat k) by lia. lia. }
  apply (H 16%nat).
  change (10 ^ Z.of_nat 16) with 10000000000000000.
  change (2 ^ 53) with 9007199254740992 in Hp. lia.
Qed.

(** The estimate [log2 * 0.30103 - 2] is at most 7 below the decimal
    exponent and never above it. *)
Lemma estimate_table :
  all_between 0 52
    (fun L =>
       (10 ^ (L * 30103 / 100000 - 2 - 1) <=? 2 ^ L)
       && (2 ^ (L + 1) <=? 10 ^ (L * 30103 / 100000 - 2 + 7))) = true.
Proof. vm_compute. reflexivity. Qed.

Lemma estimate_bounds (p D : Z) :
  1 <= p < 2 ^ 53 -> 1 <= D -> 10 ^ (D - 1) <= p < 10 ^ D ->
  Z.log2 p * 30103 / 100000 - 2 <= D <= Z.log2 p * 30103 / 100000 - 2 + 7.
Proof.
  intros Hp HD Hb.
  pose proof (Z.log2_nonneg p) as Hl0.
  pose proof (Z.log2_spec p ltac:(lia)) as [Hlo Hup].
  assert (Hl : Z.log2 p <= 52).
  { destruct (Z.le_gt_cases (Z.log2 p) 52) as [H | H]; trivial.
    assert (2 ^ 53 <= 2 ^ Z.log2 p) by (apply pow2_le; lia). lia. }
  pose proof (all_between_spec 0 52 _ estimate_table (Z.log2 p) ltac:(lia)) as H.
  cbv beta in H. apply andb_prop in H as [H1 H2].
  apply Z.leb_le in H1. apply Z.leb_le in H2.
  set (n0 := Z.log2 p * 30103 / 100000 - 2) in *.
  replace (Z.log2 p + 1) with (Z.succ (Z.log2 p)) in H2 by lia.
  split.
  - destruct (Z.le_gt_cases n0 D) as [H | H]; trivial. exfalso.
    assert (10 ^ D <= 10 ^ (n0 - 1)) by (apply Z.pow_le_mono_r; lia). lia.
  - destruct (Z.le_gt_cases D (n0 + 7)) as [H | H]; trivial. exfalso.
    assert (10 ^ (n0 + 7) <= 10 ^ (D - 1)) by (apply Z.pow_le_mono_r; lia). lia.
Qed.

Lemma decimal_exponent_spec (p b D : Z) :
  0 < b -> 1 <= D -> 10 ^ (D - 1) <= p < 10 ^ D ->
  forall fuel n0,
    n0 <= D -> D - n0 < Z.of_nat fuel ->
    decimal_exponent fuel (p * b, b) n0 = D.
Proof.
  intros Hb HD Hp.
  assert (H1 : 1 <= p).
  { pose proof (pow10_pos (D - 1) ltac:(lia)). lia. }
  induction fuel as [ | fuel IH]; intros n0 Hn Hf; [lia | ].
  cbn [decimal_exponent]. unfold scale10.
  destruct (0 <=? - n0) eqn:E.
  - apply Z.leb_le in E.
    pose proof (pow10_pos (- n0) E) as Hpow.
    destruct (p * b * 10 ^ (- n0) <? b) eqn:Ht.
    + apply Z.ltb_lt in Ht. exfalso.
      assert (b <= p * b) by nia.
      assert (p * b * 1 <= p * b * 10 ^ (- n0))
        by (apply Z.mul_le_mono_nonneg_l; lia).
      lia.
    + apply IH; lia.
  - apply Z.leb_gt in E. rewrite Z.opp_involutive.
    destruct (p * b <? b * 10 ^ n0) eqn:Ht.
    + apply Z.ltb_lt in Ht.
      destruct (Z.eq_dec n0 D) as [-> | Hne]; trivial. exfalso.
      assert (10 ^ n0 <= 10 ^ (D - 1)) by (apply Z.pow_le_mono_r; lia).
      nia.
    + apply Z.ltb_ge in Ht.
      destruct (Z.eq_dec n0 D) as [-> | Hne]; [nia | ].
      apply IH; lia.
Qed.

(** ** The shortest digits *)

Section Shortest.

Variables p b D : Z.
Hypothesis Hp : 1 <= p < 2 ^ 53.
Hypothesis Hb : 0 < b.
Hypothesis HD : 1 <= D.
Hypothesis Hlen : 10 ^ (D - 1) <= p < 10 ^ D.

(** The quotient of [p] by a power of ten below its length. *)
Lemma leading_digits (k : Z) :
  1 <= k <= D ->
  1 <= p / 10 ^ (D - k)
  /\ p / 10 ^ (D - k) * 10 ^ (D - k) <= p
  /\ p < (p / 10 ^ (D - k) + 1) * 10 ^ (D - k).
Proof.
  intros Hk.
  pose proof (pow10_pos (D - k) ltac:(lia)) as Ht.
  assert (Hle : 10 ^ (D - k) <= 10 ^ (D - 1)) by (apply Z.pow_le_mono_r; lia).
  split; [ | split].
  - apply Z.div_le_lower_bound; lia.
  - rewrite Z.mul_comm. apply Z.mul_div_le. lia.
  - pose proof (Z.mul_succ_div_gt p (10 ^ (D - k)) Ht). lia.
Qed.

Lemma scaled_quotient (k : Z) :
  1 <= k <= D ->
  let '(a, c) := scale10 (p * b, b) (k - D) in
  a / c = p / 10 ^ (D - k).
Proof.
  intros Hk. unfold scale10.
  pose proof (pow10_pos (D - k) ltac:(lia)) as Ht.
  destruct (0 <=? k - D) eqn:E.
  - apply Z.leb_le in E. assert (k = D) by lia. subst k.
    rewrite !Z.sub_diag, Z.pow_0_r, Z.mul_1_r, Z.div_1_r.
    apply Z.div_mul. lia.
  - replace (- (k - D)) with (D - k) by lia.
    rewrite (Z.mul_comm b). apply Z.div_mul_cancel_r; lia.
Qed.

Lemma shortest_digits_spec :
  forall fuel k,
    1 <= k <= D -> D - k < Z.of_nat fuel ->
    exists k',
      k <= k' <= D
      /\ p / 10 ^ (D - k') * 10 ^ (D - k') = p
      /\ shortest_digits fuel (of_Z p) (p * b, b) D k
         = (p / 10 ^ (D - k'), D, k').
Proof.
  induction fuel as [ | fuel IH]; intros k Hk Hf; [lia | ].
  cbn [shortest_digits].
  pose proof (scaled_quotient k Hk) as Hq.
  destruct (scale10 (p * b, b) (k - D)) as [a c].
  rewrite Hq.
  destruct (leading_digits k Hk) as (Hlo & Hdown & Hup).
  pose proof (pow10_pos (D - k) ltac:(lia)) as Ht.
  rewrite !of_decimal_integer by lia.
  assert (Hhi : same_number (of_Z ((p / 10 ^ (D - k) + 1) * 10 ^ (D - k))) (of_Z p)
                = false).
  { destruct (same_number _ _) eqn:E; trivial.
    apply integer_read_back in E; nia. }
  rewrite Hhi, Bool.andb_false_r.
  destruct (same_number (of_Z (p / 10 ^ (D - k) * 10 ^ (D - k))) (of_Z p)) eqn:E.
  - apply integer_read_back in E; [ | nia | lia].
    exists k. split; [lia | ]. split; [exact E | reflexivity].
  - assert (k < D).
    { destruct (Z.eq_dec k D) as [-> | Hne]; [ | lia].
      rewrite Z.sub_diag, Z.pow_0_r, Z.mul_1_r, Z.div_1_r in E.
      rewrite same_number_refl in E. discriminate. }
    destruct (IH (k + 1)) as (k' & Hk' & Hdiv & Heq); [lia | lia | ].
    exists k'. split; [lia | ]. split; [exact Hdiv | exact Heq].
Qed.

End Shortest.

(** ** Integers print as their digits *)

Lemma fraction_canon (q : positive) :
  Zpos q < 2 ^ 53 ->
  fraction_of (Z.to_pos (Zpos q * 2 ^ (53 - digits q))) (digits q - 53)
  = (Zpos q * 2 ^ (53 - digits q), 2 ^ (53 - digits q)).
Proof.
  intros Hq. destruct (canon_spec q Hq) as (Hc & _).
  pose proof (digits_le_53 q Hq) as Hd.
  unfold fraction_of. rewrite Hc.
  destruct (0 <=? digits q - 53) eqn:E.
  - apply Z.leb_le in E. assert (Hd53 : digits q = 53) by lia.
    rewrite Hd53. change (53 - 53) with 0.
    rewrite Z.pow_0_r, !Z.mul_1_r. reflexivity.
  - f_equal. f_equal. lia.
Qed.

Lemma integer_string (n : Z) :
  0 <= n < 2 ^ 53 -> NumberToString (of_Z n) = string_of_Z n.
Proof.
  intros Hn. destruct n as [ | q | q]; try lia; [reflexivity | ].
  assert (Hq : 1 <= Zpos q < 2 ^ 53) by lia.
  destruct (decimal_length (Zpos q) Hq) as (D & HD & Hlen).
  pose proof (digits_le_53 q (proj2 Hn)) as Hd.
  assert (Hb : 0 < 2 ^ (53 - digits q)) by (apply pow2_pos; lia).
  rewrite (of_Z_pos q) by lia.
  unfold NumberToString, canon.
  change (S754_finite false (Z.to_pos (Zpos q * 2 ^ (53 - digits q))) (digits q - 53))
    with (canon q).
  rewrite <- (of_Z_pos q) by lia.
  rewrite (fraction_canon q) by lia.
  cbv zeta. cbn [fst snd].
  rewrite Z.log2_mul_pow2, Z.log2_pow2 by lia.
  replace (53 - digits q + Z.log2 (Zpos q) - (53 - digits q))
    with (Z.log2 (Zpos q)) by lia.
  pose proof (estimate_bounds (Zpos q) D Hq ltac:(lia) Hlen) as He.
  rewrite (decimal_exponent_spec (Zpos q) _ D Hb ltac:(lia) Hlen) by lia.
  destruct (shortest_digits_spec (Zpos q) (2 ^ (53 - digits q)) D
              Hq Hb ltac:(lia) Hlen 16%nat 1)
    as (k & Hk & Hdiv & Heq); [lia | lia | ].
  rewrite Heq.
  assert (Hbody : (k <=? D) && (D <=? 21) = true).
  { apply andb_true_intro. split; apply Z.leb_le; lia. }
  rewrite Hbody.
  destruct (leading_digits (Zpos q) D ltac:(lia) Hlen k ltac:(lia)) as (Hlo & _).
  rewrite string_of_Z_zeros by lia.
  rewrite Z2Nat.id by lia. now rewrite Hdiv.
Qed.

End PrintFacts.

(* ================================================================== *)
(** * The fraction shown *)
(* ================================================================== *)

Module FractionFacts.

Import OddsConverter F64Order F64Round F64Ops NumberFacts.
Import RoundTripFacts ProgressionFacts IntegerFacts PrintFacts.
Local Open Scope string_scope.
Local Open Scope Z_scope.

(** ** Euclid's algorithm on the hundredths *)

Definition returns_number (c : completion number) (x : number) : bool :=
  match c with
  | Normal y => same_number y x
  | _ => false
  end.

Lemma returns_number_spec (c : completion number) (x : number) :
  returns_number c x = true -> c = Normal x.
Proof.
  destruct c as [y | | ]; try discriminate.
  intros H. apply same_number_eq in H. now subst.
Qed.

(** Against [100] the algorithm is done within 63 steps, whatever the
    remainder. *)
Lemma euclid_table :
  all_between 0 99
    (fun r => returns_number (gcd 63 c100 (of_Z r)) (of_Z (Z.gcd 100 r)))
  = true.
Proof. vm_compute. reflexivity. Qed.

Lemma euclid_hundred (r : Z) :
  0 <= r < 100 -> gcd 63 c100 (of_Z r) = Normal (of_Z (Z.gcd 100 r)).
Proof.
  intros Hr.
  assert (Hr' : 0 <= r <= 99) by lia.
  pose proof (all_between_spec 0 99 _ euclid_table r Hr') as H.
  cbv beta in H. now apply returns_number_spec.
Qed.

Lemma c100_integer : c100 = of_Z 100.
Proof. vm_compute. reflexivity. Qed.

Lemma gcd_step (fuel : nat) (a b : number) :
  gcd (S fuel) a b = if eq b c0 then Normal a else gcd fuel b (rem a b).
Proof. reflexivity. Qed.

Lemma hundred_not_zero : eq c100 c0 = false.
Proof. reflexivity. Qed.

Lemma gcd_hundred (n : Z) :
  0 <= n < 2 ^ 53 ->
  gcd 64 (of_Z n) c100 = Normal (of_Z (Z.gcd n 100)).
Proof.
  intros Hn.
  rewrite gcd_step, hundred_not_zero.
  rewrite c100_integer at 2.
  rewrite rem_integers by (first [exact Hn | split; [lia | reflexivity]]).
  pose proof (Z.mod_pos_bound n 100 ltac:(lia)) as Hr.
  rewrite (euclid_hundred _ Hr).
  rewrite Z.gcd_comm, Z.gcd_mod by lia.
  now rewrite Z.gcd_comm.
Qed.

(** ** The fraction shown *)

(** The hundredths of the net odds [d - 1], before rounding. *)
Definition net_hundredths (d : number) : number := mul (sub d c1) c100.

Lemma hundredths_integer (d : number) :
  valid d = true -> le c1 d = true -> lt (net_hundredths d) c2_53 = true ->
  exists n, 0 <= n < 2 ^ 53 /\ Math_round (net_hundredths d) = of_Z n.
Proof.
  intros Hv Hge Hlt. unfold net_hundredths in *.
  destruct d as [s | s | | s md ed]; try discriminate;
    try (destruct s; discriminate).
  destruct s; [discriminate | ].
  assert (Hd : positive_finite (S754_finite false md ed))
    by (eexists _, _; split; [reflexivity | exact Hv]).
  assert (Hc1 : positive_finite c1) by (eexists _, _; split; reflexivity).
  destruct (sub_le_left _ c1 Hd Hc1 Hge) as (_ & Hfin & Hvalid & Hnn).
  destruct Hnn as [Hz | [(m & e & Hx & Hb) | Hinf]].
  - rewrite Hz. exists 0. split; [lia | reflexivity].
  - rewrite Hx in *.
    assert (Hmv : valid (mul (S754_finite false m e) c100) = true)
      by (apply mul_valid; [exact Hb | reflexivity]).
    assert (Hs : signed false (mul (S754_finite false m e) c100)).
    { change c100 with (S754_finite false 7036874417766400 (-46)).
      rewrite mul_finite. apply round_aux_signed; [apply Pos2Z.is_nonneg | ].
      apply mul_exponent; [exact Hb | reflexivity]. }
    destruct (mul (S754_finite false m e) c100) as [s | s | | s mx ex];
      simpl in Hs; try contradiction; subst s; try discriminate.
    + exists 0. split; [lia | reflexivity].
    + now apply round_integer.
  - rewrite Hinf in Hfin. discriminate.
Qed.

(** X20.  For canonical decimal odds of at least 1 whose hundredths
    [(d - 1) * 100] are below [2^53], [decimalToFractional] returns,
    within the 64 calls of its [gcd], the text of [n / g], a slash and
    [100 / g] in decimal digits, where [n] is the integer [Math.round]
    makes of the hundredths and [g] is the greatest common divisor of
    [n] and 100: the fraction shown is in lowest terms. *)
Theorem fraction_in_lowest_terms (d : number) :
  valid d = true -> le c1 d = true -> lt (net_hundredths d) c2_53 = true ->
  exists n,
    0 <= n < 2 ^ 53
    /\ Math_round (net_hundredths d) = of_Z n
    /\ decimalToFractional d
       = Normal (string_of_Z (n / Z.gcd n 100) ++ "/"
                 ++ string_of_Z (100 / Z.gcd n 100))
    /\ Z.gcd (n / Z.gcd n 100) (100 / Z.gcd n 100) = 1.
Proof.
  intros Hv Hge Hlt.
  destruct (hundredths_integer d Hv Hge Hlt) as (n & Hn & Hround).
  exists n. split; [exact Hn | ]. split; [exact Hround | ].
  assert (Hpos : 0 < Z.gcd n 100).
  { pose proof (Z.gcd_nonneg n 100).
    destruct (Z.eq_dec (Z.gcd n 100) 0) as [E | E]; [ | lia].
    apply Z.gcd_eq_0_r in E. discriminate. }
  assert (Hnum : 0 <= n / Z.gcd n 100 <= n).
  { split; [apply Z.div_pos; lia | ].
    apply Z.div_le_upper_bound; [lia | nia]. }
  assert (Hden : 0 <= 100 / Z.gcd n 100 <= 100).
  { split; [apply Z.div_pos; lia | ].
    apply Z.div_le_upper_bound; [lia | nia]. }
  split.
  - unfold decimalToFractional. cbv zeta.
    unfold net_hundredths in Hround. rewrite Hround.
    rewrite (gcd_hundred n Hn). cbn [bind].
    rewrite (div_integers n (Z.gcd n 100) Hn Hpos (Z.gcd_divide_l n 100)).
    rewrite c100_integer.
    rewrite (div_integers 100 (Z.gcd n 100)) by
      first [exact Hpos | apply Z.gcd_divide_r | split; [lia | reflexivity]].
    rewrite !integer_string; [reflexivity | | ].
    + change (2 ^ 53) with 9007199254740992. lia.
    + lia.
  - apply Z.gcd_div_gcd; [lia | reflexivity].
Qed.

Lemma fraction_in_lowest_terms_witness :
  exists n,
    0 <= n < 2 ^ 53
    /\ Math_round (net_hundredths (of_decimal false 25 (-1))) = of_Z n
    /\ decimalToFractional (of_decimal false 25 (-1))
       = Normal (string_of_Z (n / Z.gcd n 100) ++ "/"
                 ++ string_of_Z (100 / Z.gcd n 100))
    /\ Z.gcd (n / Z.gcd n 100) (100 / Z.gcd n 100) = 1.
Proof.
  apply (fraction_in_lowest_terms (of_decimal false 25 (-1)));
    vm_compute; reflexivity.
Defined.

(** ** Odds beyond all bounds *)

Lemma gcd_of_NaN (fuel : nat) : gcd fuel NaN NaN = Unfinished.
Proof. induction fuel as [ | fuel IH]; [reflexivity | exact IH]. Qed.

(** X21.  When the hundredths of the net odds are not finite (odds
    of [Infinity] or [NaN], or finite odds so large that the product
    overflows), the [gcd] of [decimalToFractional] goes on calling
    itself on [NaN]: whatever the depth allowed it has not returned,
    and so [decimalToFractional] does not return a fraction. *)
Theorem fraction_of_unbounded_odds (d : number) :
  isFinite (net_hundredths d) = false ->
  (forall fuel, gcd fuel (Math_round (net_hundredths d)) c100 = Unfinished)
  /\ decimalToFractional d = Unfinished.
Proof.
  intros Hinf.
  assert (Hloop : forall fuel,
            gcd fuel (Math_round (net_hundredths d)) c100 = Unfinished).
  { intros fuel.
    assert (Hx : exists x,
              Math_round (net_hundredths d) = x /\ isFinite x = false).
    { destruct (net_hundredths d) as [s | s | | s m e]; try discriminate;
        eexists; split; reflexivity. }
    destruct Hx as (x & -> & Hx).
    destruct fuel as [ | fuel]; [reflexivity | ].
    rewrite gcd_step, hundred_not_zero.
    assert (Hrem : rem x c100 = NaN)
      by (destruct x as [s | s | | s m e]; try discriminate; reflexivity).
    rewrite Hrem.
    destruct fuel as [ | fuel]; [reflexivity | ].
    rewrite gcd_step. change (eq NaN c0) with false. cbv iota.
    change (rem c100 NaN) with NaN. apply gcd_of_NaN. }
  split; [exact Hloop | ].
  unfold decimalToFractional. cbv zeta.
  fold (net_hundredths d). rewrite (Hloop 64%nat). reflexivity.
Qed.

Lemma fraction_of_unbounded_odds_witness :
  isFinite (net_hundredths (of_decimal false 1 308)) = false
  /\ decimalToFractional (of_decimal false 1 308) = Unfinished.
Proof.
  assert (H : isFinite (net_hundredths (of_decimal false 1 308)) = false)
    by (vm_compute; reflexivity).
  split; [exact H | ].
  exact (proj2 (fraction_of_unbounded_odds (of_decimal false 1 308) H)).
Defined.

End FractionFacts.

(* ================================================================== *)
(** * What the American display shows *)
(* ================================================================== *)

Module AmericanFacts.

Import OddsConverter F64Order F64Round F64Ops F64Div NumberFacts.
Import IntegerFacts PrintFacts FractionFacts.
Local Open Scope string_scope.
Local Open Scope Z_scope.

Definition c10000 : number := Eval vm_compute in of_Z 10000.

(** ** Rounding to an integer *)

Lemma le_100_spec (m : positive) (e : Z) :
  bounded prec emax m e = true -> e < 0 ->
  (le c100 (S754_finite false m e) = true <-> 100 * 2 ^ (- e) <= Zpos m).
Proof.
  intros Hb He.
  change c100 with (S754_finite false 7036874417766400 (-46)).
  rewrite le_value by (reflexivity || exact Hb).
  rewrite (dle_same_value_l 100 0 7036874417766400 (-46)) by (lia || reflexivity).
  rewrite (dle_align _ _ _ _ e) by lia.
  rewrite Z.sub_diag, Z.pow_0_r, Z.mul_1_r, Z.sub_0_l. reflexivity.
Qed.

Lemma le_10000_spec (m : positive) (e : Z) :
  bounded prec emax m e = true -> e < 0 ->
  (le (S754_finite false m e) c10000 = true <-> Zpos m <= 10000 * 2 ^ (- e)).
Proof.
  intros Hb He.
  change c10000 with (S754_finite false 5497558138880000 (-39)).
  rewrite le_value by (reflexivity || exact Hb).
  rewrite (dle_same_value _ _ 10000 0 5497558138880000 (-39))
    by (lia || reflexivity).
  rewrite (dle_align _ _ _ _ e) by lia.
  rewrite Z.sub_diag, Z.pow_0_r, Z.mul_1_r, Z.sub_0_l. reflexivity.
Qed.

Lemma of_Z_ge_100 (n : Z) : 100 <= n -> le c100 (of_Z n) = true.
Proof.
  intros Hn. destruct n as [ | p | p]; try lia.
  change (of_Z (Zpos p)) with (binary_round prec emax false p 0).
  apply binary_round_below; [reflexivity | ].
  apply (dle_at (-46)); [lia | lia | ].
  change (-46 - -46) with 0. change (0 - -46) with 46.
  change (Zpos 7036874417766400) with (100 * 2 ^ 46).
  rewrite Z.pow_0_r, Z.mul_1_r.
  apply Z.mul_le_mono_nonneg_r; [apply Z.pow_nonneg; lia | exact Hn].
Qed.

(** Rounding a number that is at least 100 gives at least 100. *)
Lemma round_ge_100 (x : number) :
  valid x = true -> le c100 x = true -> le c100 (Math_round x) = true.
Proof.
  intros Hv Hle.
  destruct x as [s | s | | s m e]; try discriminate; try exact Hle.
  destruct s; [discriminate | ].
  unfold Math_round. destruct (Z.leb_spec 0 e) as [He | He]; [exact Hle | ].
  assert (Hb : bounded prec emax m e = true) by exact Hv.
  apply (le_100_spec m e Hb He) in Hle.
  cbn [cond_Zopp].
  rewrite Z.shiftr_div_pow2 by lia.
  assert (Hpow : 0 < 2 ^ (- e)) by (apply pow2_pos; lia).
  assert (Hsplit : 2 ^ (- e + 1) = 2 * 2 ^ (- e)).
  { rewrite pow2_split by lia. lia. }
  assert (Hn : 100 <= (2 * Zpos m + 2 ^ (- e)) / 2 ^ (- e + 1)).
  { apply Z.div_le_lower_bound; lia. }
  destruct (Z.eqb_spec ((2 * Zpos m + 2 ^ (- e)) / 2 ^ (- e + 1)) 0); [lia | ].
  now apply of_Z_ge_100.
Qed.

(** Rounding the opposite of a number between 100 and 10000 gives the
    opposite of an integer between 100 and 10000. *)
Lemma round_neg_integer (t : number) :
  positive_finite t -> le c100 t = true -> le t c10000 = true ->
  exists n, 100 <= n <= 10000 /\ Math_round (neg t) = neg (of_Z n).
Proof.
  intros (m & e & -> & Hb) Hlo Hhi.
  cbn [neg SFopp negb]. unfold Math_round.
  destruct (Z.leb_spec 0 e) as [He | He].
  - exfalso. change c10000 with (S754_finite false 5497558138880000 (-39)) in Hhi.
    apply le_finite in Hhi. lia.
  - apply (le_100_spec m e Hb He) in Hlo.
    apply (le_10000_spec m e Hb He) in Hhi.
    cbn [cond_Zopp].
    rewrite Z.shiftr_div_pow2 by lia.
    assert (Hpow : 0 < 2 ^ (- e)) by (apply pow2_pos; lia).
    assert (Hsplit : 2 ^ (- e + 1) = 2 * 2 ^ (- e)).
    { rewrite pow2_split by lia. lia. }
    set (n := (2 * - Zpos m + 2 ^ (- e)) / 2 ^ (- e + 1)).
    assert (Hn1 : n < -99).
    { apply Z.div_lt_upper_bound; lia. }
    assert (Hn2 : -10000 <= n).
    { apply Z.div_le_lower_bound; lia. }
    destruct (Z.eqb_spec n 0); [lia | ].
    destruct n as [ | p | p]; try lia.
    exists (Zpos p). split; [lia | ].
    change (of_Z (Zneg p)) with (binary_round prec emax true p 0).
    apply binary_round_neg.
Qed.

(** ** Odds less one *)

Definition c0_01 : number := Eval vm_compute in sub c1_01 c1.

(** [d - 1] for canonical odds [d >= 1.01]: the difference of the
    aligned mantissas at exponent -52. *)
Lemma sub_one (md : positive) (ed : Z) :
  bounded prec emax md ed = true ->
  le c1_01 (S754_finite false md ed) = true ->
  -52 <= ed
  /\ 4548635623644201 <= Zpos md * 2 ^ (ed + 52)
  /\ sub (S754_finite false md ed) c1
     = binary_normalize prec emax (Zpos md * 2 ^ (ed + 52) - 2 ^ 52) (-52) false.
Proof.
  intros Hb Hge.
  assert (He : -52 <= ed).
  { change c1_01 with (S754_finite false 4548635623644201 (-52)) in Hge.
    apply le_finite in Hge. lia. }
  split; [exact He | ].
  split.
  - change c1_01 with (S754_finite false 4548635623644201 (-52)) in Hge.
    apply le_value in Hge; [ | reflexivity | exact Hb].
    apply (dle_to (-52)) in Hge; [ | lia | lia].
    rewrite Z.sub_diag, Z.pow_0_r, Z.mul_1_r in Hge.
    replace (ed - -52) with (ed + 52) in Hge by lia. exact Hge.
  - change c1 with (S754_finite false 4503599627370496 (-52)).
    rewrite sub_finite.
    replace (Z.min ed (-52)) with (-52) by lia.
    rewrite !aligned by lia.
    replace (ed - -52) with (ed + 52) by lia.
    rewrite Z.sub_diag, Z.pow_0_r, Z.mul_1_r. reflexivity.
Qed.

(** Odds of 2 or more, less one, are at least 1. *)
Lemma sub_one_long (d : number) :
  positive_finite d -> le c2 d = true ->
  positive_finite (sub d c1) /\ le c1 (sub d c1) = true.
Proof.
  intros Hd Hge.
  assert (H1 : le c1 d = true) by (apply (le_trans _ c2); [reflexivity | exact Hge]).
  assert (Hc1 : positive_finite c1) by (eexists _, _; split; reflexivity).
  destruct (sub_le_left d c1 Hd Hc1 H1) as (Hup & Hfin & Hvalid & _).
  assert (Hle : le c1 (sub d c1) = true).
  { destruct Hd as (md & ed & -> & Hb).
    destruct (sub_one md ed Hb) as (He & _ & Heq).
    { apply (le_trans _ c2); [reflexivity | exact Hge]. }
    rewrite Heq.
    change c2 with (S754_finite false 4503599627370496 (-51)) in Hge.
    apply le_value in Hge; [ | reflexivity | exact Hb].
    apply (dle_to (-52)) in Hge; [ | lia | lia].
    change (-51 - -52) with 1 in Hge.
    replace (ed - -52) with (ed + 52) in Hge by lia.
    change (4503599627370496 * 2 ^ 1) with (2 * 2 ^ 52) in Hge.
    destruct (Zpos md * 2 ^ (ed + 52) - 2 ^ 52) as [ | q | q] eqn:Hq; try lia.
    cbn [binary_normalize].
    apply binary_round_below; [reflexivity | ].
    apply (dle_at (-52)); [lia | lia | ].
    rewrite Z.sub_diag, Z.pow_0_r, !Z.mul_1_r.
    change (Zpos 4503599627370496) with (2 ^ 52). lia. }
  split; [ | exact Hle].
  destruct (positive_of_le c1 (sub d c1) Hc1 Hvalid Hle) as [H | H]; [exact H | ].
  rewrite H in Hfin. discriminate Hfin.
Qed.

(** Odds from 1.01 to 2, less one, lie between 0.01 and 1. *)
Lemma sub_one_short (d : number) :
  positive_finite d -> le c1_01 d = true -> le c2 d = false ->
  positive_finite (sub d c1)
  /\ le c0_01 (sub d c1) = true /\ le (sub d c1) c1 = true.
Proof.
  intros Hd Hge Hlt.
  destruct Hd as (md & ed & -> & Hb).
  destruct (sub_one md ed Hb Hge) as (He & Hlo & Heq).
  assert (Hed : ed = -52).
  { destruct (bounded_facts md ed Hb) as (_ & _ & _ & _ & Hnorm).
    destruct (Z.eq_dec ed (-52)) as [H | H]; trivial. exfalso.
    assert (Hle : le c2 (S754_finite false md ed) = true); [ | congruence].
    change c2 with (S754_finite false 4503599627370496 (-51)).
    apply le_finite.
    destruct (Z.eq_dec ed (-51)) as [-> | H']; [ | left; lia].
    right. split; [reflexivity | ].
    change (Zpos 4503599627370496) with (2 ^ 52). apply Hnorm. lia. }
  subst ed. change (-52 + 52) with 0 in *.
  rewrite Z.pow_0_r, Z.mul_1_r in *.
  destruct (bounded_facts md (-52) Hb) as (_ & _ & _ & Hmd & _).
  rewrite Heq.
  destruct (Zpos md - 2 ^ 52) as [ | q | q] eqn:Hq; try lia.
  cbn [binary_normalize].
  assert (Hdown : le c0_01 (binary_round prec emax false q (-52)) = true).
  { apply binary_round_below; [reflexivity | ].
    apply (dle_at (-59)); [lia | lia | ].
    change (-59 - -59) with 0. change (-52 - -59) with 7.
    rewrite Z.pow_0_r, Z.mul_1_r.
    change (Zpos 5764607523034240) with (45035996273705 * 2 ^ 7).
    apply Z.mul_le_mono_nonneg_r; lia. }
  assert (Hup : le (binary_round prec emax false q (-52)) c1 = true).
  { apply binary_round_above; [reflexivity | ].
    apply (dle_at (-52)); [lia | lia | ].
    rewrite Z.sub_diag, Z.pow_0_r, !Z.mul_1_r.
    change (Zpos 4503599627370496) with (2 ^ 52). lia. }
  split; [ | split; assumption].
  apply (between c0_01 c1); trivial;
    try (eexists _, _; split; reflexivity).
  apply binary_round_valid.
Qed.

Ltac closed_dle := unfold dle; vm_compute; discriminate.

(** ** The number that is rounded *)

(** At odds of 2 or more the hundredths of the net odds are at least
    100. *)
Lemma long_odds (d : number) :
  positive_finite d -> le c2 d = true ->
  valid (net_hundredths d) = true /\ le c100 (net_hundredths d) = true.
Proof.
  intros Hd H2. unfold net_hundredths.
  destruct (sub_one_long d Hd H2) as (Hs & Hle).
  destruct Hs as (ms & es & Hs & Hb). rewrite Hs in *.
  apply le_value in Hle; [ | reflexivity | exact Hb].
  split.
  - apply mul_valid; [exact Hb | reflexivity].
  - apply (mul_below 7036874417766400 (-46)); trivial; try reflexivity.
    apply (dle_trans _ _ (4503599627370496 * 7036874417766400) (-52 + -46));
      [closed_dle | ].
    apply dle_scale; [lia | exact Hle].
Qed.

(** At odds from 1.01 to 2 the quotient [-100 / (d - 1)] is the
    opposite of a number between 100 and 10000. *)
Lemma short_odds (d : number) :
  positive_finite d -> le c1_01 d = true -> le c2 d = false ->
  exists t,
    positive_finite t /\ le c100 t = true /\ le t c10000 = true
    /\ div (neg c100) (sub d c1) = neg t.
Proof.
  intros Hd Hge H2.
  destruct (sub_one_short d Hd Hge H2) as (Hs & Hlo & Hhi).
  exists (div c100 (sub d c1)).
  destruct Hs as (ms & es & Hs & Hb). rewrite Hs in *.
  apply le_value in Hlo; [ | reflexivity | exact Hb].
  apply le_value in Hhi; [ | exact Hb | reflexivity].
  assert (Hdown : le c100 (div c100 (S754_finite false ms es)) = true).
  { apply (div_below 7036874417766400 (-46)); [reflexivity | ].
    apply (dle_trans _ _ (7036874417766400 * 4503599627370496) (-46 + -52));
      [ | closed_dle].
    rewrite !(Z.mul_comm 7036874417766400), !(Z.add_comm (-46)).
    apply dle_scale; [lia | exact Hhi]. }
  assert (Hup : le (div c100 (S754_finite false ms es)) c10000 = true).
  { apply (div_above 5497558138880000 (-39)); [reflexivity | ].
    apply (dle_trans _ _ (5497558138880000 * 5764607523034240) (-39 + -59));
      [closed_dle | ].
    rewrite !(Z.mul_comm 5497558138880000), !(Z.add_comm (-39)).
    apply dle_scale; [lia | exact Hlo]. }
  split; [ | split; [exact Hdown | split; [exact Hup | apply div_neg]]].
  apply (between c100 c10000); trivial;
    try (eexists _, _; split; reflexivity).
  apply div_valid_any.
Qed.

Lemma odds_positive_finite (d : number) :
  valid d = true -> isFinite d = true -> ge d c1_01 = true -> positive_finite d.
Proof.
  intros Hv Hfin Hge.
  destruct (positive_of_le c1_01 d) as [H | ->]; trivial; [ | discriminate].
  eexists _, _. split; reflexivity.
Qed.

(** X19.  For canonical decimal odds that are finite and at least
    1.01, [decimalToAmerican] returns at least +100 when the odds are 2
    or more, and a number from -10000 to -100 otherwise: never one
    strictly between -100 and +100. *)
Theorem american_display (d : number) :
  valid d = true -> isFinite d = true -> ge d c1_01 = true ->
  (ge d c2 = true -> ge (decimalToAmerican d) c100 = true)
  /\ (ge d c2 = false ->
      le (decimalToAmerican d) (neg c100) = true
      /\ ge (decimalToAmerican d) (neg c10000) = true).
Proof.
  intros Hv Hfin Hge.
  pose proof (odds_positive_finite d Hv Hfin Hge) as Hd.
  unfold decimalToAmerican. split; intros H2; rewrite H2.
  - destruct (long_odds d Hd H2) as (Hvalid & Hle).
    now apply round_ge_100.
  - destruct (short_odds d Hd Hge H2) as (t & Ht & Hlo & Hhi & ->).
    destruct (round_neg_integer t Ht Hlo Hhi) as (n & Hn & ->).
    unfold ge. rewrite !le_neg.
    change c100 with (of_Z 100). change c10000 with (of_Z 10000).
    split; apply of_Z_le; lia.
Qed.

Lemma american_display_witness :
  valid c1_01 = true
  /\ le (decimalToAmerican c1_01) (neg c100) = true
  /\ ge (decimalToAmerican c1_01) (neg c10000) = true.
Proof.
  split; [reflexivity | ].
  apply (proj2 (american_display c1_01 eq_refl eq_refl eq_refl)). reflexivity.
Defined.

(** ** The text shown *)

Lemma negative_string (m : positive) (e : Z) :
  NumberToString (S754_finite true m e)
  = "-" ++ NumberToString (S754_finite false m e).
Proof.
  unfold NumberToString. cbv zeta.
  destruct (shortest_digits _ _ _ _ _) as [[s n] k]. reflexivity.
Qed.

Lemma negative_integer_string (n : Z) :
  0 < n < 2 ^ 53 ->
  NumberToString (neg (of_Z n)) = "-" ++ string_of_Z n
  /\ gt (neg (of_Z n)) c0 = false.
Proof.
  intros Hn. rewrite <- (integer_string n) by lia.
  destruct n as [ | q | q]; try lia.
  rewrite (of_Z_pos q) by lia. unfold canon. cbn [neg SFopp negb].
  split; [apply negative_string | reflexivity].
Qed.

Lemma positive_integer_string (n : Z) :
  0 < n < 2 ^ 53 ->
  NumberToString (of_Z n) = string_of_Z n /\ gt (of_Z n) c0 = true.
Proof.
  intros Hn. split; [apply integer_string; lia | ].
  destruct n as [ | q | q]; try lia.
  rewrite (of_Z_pos q) by lia. reflexivity.
Qed.

(** X22.  For canonical finite odds of at least 1.01 whose
    hundredths are below [2^53], the American display of [formatOdds]
    is a sign followed by the decimal digits of an integer of at least
    100: the sign is [+] at odds of 2 or more, and [-] with an integer
    of at most 10000 below 2. *)
Theorem american_format (d : number) :
  valid d = true -> isFinite d = true -> ge d c1_01 = true ->
  lt (net_hundredths d) c2_53 = true ->
  exists n,
    100 <= n
    /\ (ge d c2 = false -> n <= 10000)
    /\ formatOdds d (VStr AMERICAN)
       = Normal ((if ge d c2 then "+" else "-") ++ string_of_Z n).
Proof.
  intros Hv Hfin Hge Hlt.
  pose proof (odds_positive_finite d Hv Hfin Hge) as Hd.
  unfold formatOdds.
  change (is_type (VStr AMERICAN) DECIMAL) with false.
  change (is_type (VStr AMERICAN) AMERICAN) with true. cbv iota zeta.
  unfold decimalToAmerican.
  destruct (ge d c2) eqn:H2.
  - destruct (long_odds d Hd H2) as (Hvalid & Hle).
    pose proof (round_ge_100 _ Hvalid Hle) as Hround.
    fold (net_hundredths d).
    destruct (net_hundredths d) as [s | s | | s m e] eqn:Hx; try discriminate;
      try (destruct s; discriminate).
    destruct s; [discriminate | ].
    destruct (round_integer m e Hvalid Hlt) as (n & Hn & Heq).
    rewrite Heq in *.
    assert (H100 : 100 <= n).
    { change c100 with (of_Z 100) in Hround.
      apply of_Z_le in Hround; [exact Hround | split; [lia | reflexivity] | exact Hn]. }
    exists n. split; [exact H100 | ]. split; [discriminate | ].
    destruct (positive_integer_string n ltac:(lia)) as (-> & ->). reflexivity.
  - destruct (short_odds d Hd Hge H2) as (t & Ht & Hlo & Hhi & ->).
    destruct (round_neg_integer t Ht Hlo Hhi) as (n & Hn & ->).
    exists n. split; [lia | ]. split; [lia | ].
    assert (Hn53 : 0 < n < 2 ^ 53)
      by (change (2 ^ 53) with 9007199254740992; lia).
    destruct (negative_integer_string n Hn53) as (-> & ->). reflexivity.
Qed.

Lemma american_format_witness :
  exists n,
    100 <= n
    /\ (ge c1_01 c2 = false -> n <= 10000)
    /\ formatOdds c1_01 (VStr AMERICAN)
       = Normal ((if ge c1_01 c2 then "+" else "-") ++ string_of_Z n).
Proof.
  apply (american_format c1_01); vm_compute; reflexivity.
Defined.

End AmericanFacts.

(* ================================================================== *)
(** * Fractions the validator accepts *)
(* ================================================================== *)

Module PatternFacts.

Import OddsConverter F64Order F64Round NumberFacts ExportFacts.
Local Open Scope string_scope.
Local Open Scope Z_scope.

(** ** Texts of digits *)

Fixpoint all_digits (s : string) : bool :=
  match s with
  | String c r => is_digit c && all_digits r
  | EmptyString => true
  end.

Fixpoint all_zeros (s : string) : bool :=
  match s with
  | String c r => Ascii.eqb c "0" && all_zeros r
  | EmptyString => true
  end.

(** A text without white space. *)
Fixpoint solid (s : string) : bool :=
  match s with
  | String c r => negb (is_space c) && solid r
  | EmptyString => true
  end.

(** What a digit is and is not. *)
Lemma digit_cases (c : ascii) :
  is_digit c = true ->
  is_space c = false
  /\ Ascii.eqb c "/" = false
  /\ Ascii.eqb c "+" = false /\ Ascii.eqb c "-" = false
  /\ Ascii.eqb c "." = false
  /\ Ascii.eqb c "e" = false /\ Ascii.eqb c "E" = false
  /\ Ascii.eqb c "x" = false /\ Ascii.eqb c "X" = false
  /\ Ascii.eqb c "o" = false /\ Ascii.eqb c "O" = false
  /\ Ascii.eqb c "b" = false /\ Ascii.eqb c "B" = false
  /\ Ascii.eqb c "I" = false
  /\ exists d, digit_of 10 c = Some d /\ 0 <= d <= 9
               /\ (d = 0 <-> Ascii.eqb c "0" = true).
Proof.
  destruct c as [b0 b1 b2 b3 b4 b5 b6 b7].
  destruct b7, b6, b5, b4; try discriminate;
    destruct b3, b2, b1, b0; try discriminate; intros _;
    repeat (split; [reflexivity | ]);
    eexists; (split; [vm_compute; reflexivity | ]);
    (split; [lia | ]); split; intros H;
    first [lia | discriminate H | reflexivity].
Qed.

Lemma digits_solid (s : string) : all_digits s = true -> solid s = true.
Proof.
  induction s as [ | c s IH]; simpl; [reflexivity | ].
  intros H. apply andb_prop in H as [Hc Hs].
  destruct (digit_cases c Hc) as (-> & _). now rewrite IH.
Qed.

Lemma digits_free (s : string) : all_digits s = true -> free_of "/" s = true.
Proof.
  induction s as [ | c s IH]; simpl; [reflexivity | ].
  intros H. apply andb_prop in H as [Hc Hs].
  destruct (digit_cases c Hc) as (_ & -> & _). now rewrite IH.
Qed.

Lemma solid_app (a b : string) : solid (a ++ b) = solid a && solid b.
Proof.
  induction a as [ | c a IH]; simpl; [reflexivity | ].
  now rewrite IH, andb_assoc.
Qed.

Lemma solid_rev (a : string) :
  forall acc, solid (rev_onto a acc) = solid a && solid acc.
Proof.
  induction a as [ | c a IH]; intros acc; simpl; [reflexivity | ].
  rewrite IH. simpl. destruct (is_space c), (solid a); reflexivity.
Qed.

Lemma trim_start_solid (s : string) : solid s = true -> trim_start s = s.
Proof.
  destruct s as [ | c s]; simpl; [reflexivity | ].
  intros H. apply andb_prop in H as [Hc _].
  apply negb_true_iff in Hc. now rewrite Hc.
Qed.

(** Trimming a text without white space changes nothing. *)
Lemma trim_solid (s : string) : solid s = true -> trim s = s.
Proof.
  intros H. unfold trim.
  rewrite (trim_start_solid s H).
  rewrite trim_start_solid by (rewrite solid_rev, H; reflexivity).
  apply rev_onto_twice.
Qed.

Lemma skip_digits_app (a rest : string) :
  all_digits a = true -> skip_digits (a ++ rest) = skip_digits rest.
Proof.
  induction a as [ | c a IH]; simpl; [reflexivity | ].
  intros H. apply andb_prop in H as [Hc Ha]. now rewrite Hc, IH.
Qed.

(** The pattern of a fraction holds for digits, a slash, digits. *)
Lemma fraction_format_digits (a b : string) :
  a <> "" -> b <> "" -> all_digits a = true -> all_digits b = true ->
  fraction_format (a ++ "/" ++ b) = true.
Proof.
  intros Ha Hb Hda Hdb.
  destruct a as [ | c a]; [contradiction | ].
  destruct b as [ | c' b]; [contradiction | ].
  simpl in Hda, Hdb.
  apply andb_prop in Hda as [Hc Hda]. apply andb_prop in Hdb as [Hc' Hdb].
  cbn [String.append fraction_format]. rewrite Hc.
  rewrite (skip_digits_app a _ Hda).
  change (skip_digits (String "/" (String c' b))) with (String "/" (String c' b)).
  cbv iota. rewrite Hc'.
  rewrite <- (append_empty b), (skip_digits_app b "" Hdb). reflexivity.
Qed.

(** ** The number a text of digits denotes *)

Lemma scan_digits_digits (a : string) :
  all_digits a = true ->
  forall acc count,
    0 <= acc ->
    exists v,
      scan_digits 10 a acc count = (v, count + Z.of_nat (String.length a), "")
      /\ 0 <= v
      /\ (v = 0 <-> acc = 0 /\ all_zeros a = true).
Proof.
  induction a as [ | c a IH]; intros Hd acc count Hacc.
  - exists acc. cbn [scan_digits String.length all_zeros].
    rewrite Z.add_0_r. split; [reflexivity | ]. split; [exact Hacc | tauto].
  - simpl in Hd. apply andb_prop in Hd as [Hc Ha].
    destruct (digit_cases c Hc)
      as (_ & _ & _ & _ & _ & _ & _ & _ & _ & _ & _ & _ & _ & _ & d & Hdig & Hr & Hz).
    cbn [scan_digits]. rewrite Hdig.
    destruct (IH Ha (10 * acc + d) (count + 1) ltac:(lia)) as (v & Heq & Hv & Hzero).
    exists v. rewrite Heq. split; [ | split; [exact Hv | ]].
    + f_equal. f_equal. cbn [String.length]. lia.
    + cbn [all_zeros]. rewrite Hzero. rewrite andb_true_iff. rewrite <- Hz.
      split; intros H; (split; [lia | ]); tauto || (split; [lia | tauto]).
Qed.

Lemma scan_decimal_digits (a : string) :
  a <> "" -> all_digits a = true ->
  exists v,
    scan_decimal a = Some (v, 0, "")
    /\ 0 <= v /\ (v = 0 <-> all_zeros a = true).
Proof.
  intros Hne Hd.
  destruct (scan_digits_digits a Hd 0 0 ltac:(lia)) as (v & Heq & Hv & Hz).
  exists v. unfold scan_decimal. rewrite Heq. cbv iota beta zeta.
  assert (Hlen : (0 + Z.of_nat (String.length a) =? 0) = false).
  { apply Z.eqb_neq. destruct a; [contradiction | ]. cbn [String.length]. lia. }
  rewrite Hlen. cbn [andb].
  split; [reflexivity | ]. split; [exact Hv | ]. rewrite Hz. tauto.
Qed.

(** [Number] of a text of digits is the integer it denotes. *)
Lemma Number_digits (a : string) :
  a <> "" -> all_digits a = true ->
  exists v,
    Number_string a = of_decimal false v 0
    /\ 0 <= v /\ (v = 0 <-> all_zeros a = true).
Proof.
  intros Hne Hd.
  destruct (scan_decimal_digits a Hne Hd) as (v & Hscan & Hv & Hz).
  exists v. split; [ | split; assumption].
  unfold Number_string. rewrite (trim_solid a (digits_solid a Hd)). cbv zeta.
  destruct a as [ | c r]; [contradiction | ].
  pose proof Hd as Hd'. cbn [all_digits] in Hd'.
  apply andb_prop in Hd' as [Hc Hr].
  assert (Hhead :
    forall x r', r = String x r' ->
      (Ascii.eqb x "x" || Ascii.eqb x "X" = false)%bool
      /\ (Ascii.eqb x "o" || Ascii.eqb x "O" = false)%bool
      /\ (Ascii.eqb x "b" || Ascii.eqb x "B" = false)%bool).
  { intros x r' ->. cbn [all_digits] in Hr. apply andb_prop in Hr as [Hx _].
    destruct (digit_cases x Hx)
      as (_ & _ & _ & _ & _ & _ & _ & -> & -> & -> & -> & -> & -> & _).
    repeat split. }
  destruct c as [b0 b1 b2 b3 b4 b5 b6 b7].
  destruct b7, b6, b5, b4; try discriminate Hc;
    destruct b3, b2, b1, b0; try discriminate Hc;
    try (cbv beta iota delta [scan_sign]; rewrite Hscan; reflexivity).
  destruct r as [ | x r'].
  - cbv beta iota delta [scan_sign]. rewrite Hscan. reflexivity.
  - destruct (Hhead x r' eq_refl) as (H1 & H2 & H3).
    cbv beta iota. rewrite H1, H2, H3, Hscan. reflexivity.
Qed.

Lemma digits_positive (a : string) :
  a <> "" -> all_digits a = true ->
  le (Number_string a) c0 = all_zeros a.
Proof.
  intros Hne Hd.
  destruct (Number_digits a Hne Hd) as (v & -> & Hv & Hz).
  destruct v as [ | p | p]; try lia.
  - rewrite (proj1 Hz eq_refl). reflexivity.
  - assert (Hnz : all_zeros a = false).
    { destruct (all_zeros a); trivial. destruct Hz as [_ Hz]. now specialize (Hz eq_refl). }
    rewrite Hnz. unfold of_decimal. cbn [Z.leb Z.compare].
    change (Z.to_pos (10 ^ 0)) with 1%positive. rewrite Pos.mul_1_r.
    destruct (integer_positive p) as (Hpos & _).
    apply lt_le in Hpos. apply le_lt_false in Hpos.
    destruct (le (binary_round prec emax false p 0) c0) eqn:E; trivial.
    destruct (integer_positive p) as (Hpos' & _).
    apply le_lt_false in E. congruence.
Qed.

(** X23.  For two texts of digits that are not empty,
    [validateOdds] accepts the first, a slash and the second as
    fractional odds exactly when each has a digit other than 0; when
    one of them is all zeros its one error is that fractional odds must
    have positive numbers. *)
Theorem fractional_validation (a b : string) :
  a <> "" -> b <> "" -> all_digits a = true -> all_digits b = true ->
  validateOdds (VStr (a ++ "/" ++ b)) (VStr FRACTIONAL)
  = Normal (verdict
      (if all_zeros a || all_zeros b
       then ["Fractional odds must have positive numbers"] else [])).
Proof.
  intros Ha Hb Hda Hdb.
  assert (Hsolid : solid (a ++ "/" ++ b) = true).
  { rewrite !solid_app, (digits_solid a Hda), (digits_solid b Hdb). reflexivity. }
  assert (Hne : String.eqb (a ++ "/" ++ b) "" = false).
  { destruct a; [contradiction | reflexivity]. }
  unfold validateOdds.
  rewrite (trim_solid _ Hsolid), Hne. cbn [orb].
  change (is_type (VStr FRACTIONAL) DECIMAL) with false.
  change (is_type (VStr FRACTIONAL) AMERICAN) with false.
  change (is_type (VStr FRACTIONAL) FRACTIONAL) with true. cbv iota.
  rewrite (fraction_format_digits a b Ha Hb Hda Hdb). cbn [negb]. cbv zeta.
  change ("/" ++ b) with (String "/" b).
  rewrite (split_on_first "/" a b (digits_free a Hda)).
  rewrite (split_on_last "/" b (digits_free b Hdb)).
  cbn [List.map List.nth ToNumber].
  rewrite (digits_positive a Ha Hda), (digits_positive b Hb Hdb).
  reflexivity.
Qed.

Lemma fractional_validation_witness :
  validateOdds (VStr ("3" ++ "/" ++ "2")) (VStr FRACTIONAL)
  = Normal (verdict
      (if all_zeros "3" || all_zeros "2"
       then ["Fractional odds must have positive numbers"] else [])).
Proof.
  apply (fractional_validation "3" "2"); (discriminate || reflexivity).
Defined.

End PatternFacts.
